(** * feedFilter: a shallow embedding of the CSV/TSV column filter

    The development follows [src/feedFilter/feedFilter.js] (the main variant)
    and [src/unnamed/part_000] (the older variant of the same page):
    the delimiter detector, the line parser, the tokenizers, the header row
    built when a file is loaded, the CSV encoder and the chunked export.

    JavaScript strings are sequences of UTF-16 code units; a code unit is
    modelled as a number of type [N] and a string as a list of code units.
    The file handed to the page is a sequence of bytes; its size and the
    bounds of a slice count bytes, and the text of a slice is the UTF-8
    decoding of its bytes alone, as [Blob.text] gives it.  The globals
    [headers], [delimiter] and [currentFile] and the ticked boxes are
    arguments of the functions that read them; what the page shows and
    downloads is the result.  The chunk loop runs on fuel and returns [None]
    when the fuel runs out; the window size is an argument, the page using
    [CHUNK_SIZE].  Scores and percentages are computed as JavaScript
    computes them, in double precision: every arithmetic operation is the
    exact operation on rationals followed by the rounding to the nearest
    double, ties to even.  Sizes, offsets and counts are integers below
    2^53, which JavaScript's numbers hold exactly. *)

From Stdlib Require Import List Bool NArith ZArith QArith Qround Qpower Lia Lqa.
From Stdlib Require String Ascii DecimalString SpecFloat.
Import ListNotations String.StringSyntax.

Delimit Scope string_scope with string.

Close Scope Q_scope.
Local Open Scope N_scope.
Local Open Scope list_scope.

(** ** JavaScript string primitives used by the page *)

Definition char := N.
Definition jsstring := list char.

Definition DQUOTE : char := 34.
Definition COMMA : char := 44.
Definition TAB : char := 9.
Definition PIPE : char := 124.
Definition SEMICOLON : char := 59.
Definition LF : char := 10.
Definition CR : char := 13.
Definition SPACE : char := 32.
Definition BOM : char := 65279.

(** Literals: [str "a,b"] is the JavaScript string [a,b]; read as the
    content of a file, it is the file with these ASCII bytes. *)
Definition str (s : String.string) : jsstring :=
  map Ascii.N_of_ascii (String.list_ascii_of_string s).

Arguments str s%_string.

(** [WhiteSpace] and [LineTerminator] of ECMAScript, the characters that
    [String.prototype.trim] strips. *)
Definition isWhiteSpace (c : char) : bool :=
  (c =? 9) || (c =? 10) || (c =? 11) || (c =? 12) || (c =? 13) || (c =? 32)
  || (c =? 160) || (c =? 5760) || ((8192 <=? c) && (c <=? 8202))
  || (c =? 8232) || (c =? 8233) || (c =? 8239) || (c =? 8287)
  || (c =? 12288) || (c =? 65279).

Fixpoint trimStart (s : jsstring) : jsstring :=
  match s with
  | [] => []
  | c :: t => if isWhiteSpace c then trimStart t else s
  end.

Fixpoint trimEnd (s : jsstring) : jsstring :=
  match s with
  | [] => []
  | c :: t =>
      match trimEnd t with
      | [] => if isWhiteSpace c then [] else [c]
      | t' => c :: t'
      end
  end.

(** [s.trim()] *)
Definition trim (s : jsstring) : jsstring := trimEnd (trimStart s).

(** [s.includes(c)] for a one-character needle *)
Definition includes (c : char) (s : jsstring) : bool := existsb (N.eqb c) s.

(** [s.startsWith(c)] and [s.endsWith(c)] for a one-character needle *)
Definition startsWith (c : char) (s : jsstring) : bool :=
  match s with
  | [] => false
  | x :: _ => x =? c
  end.

Definition endsWith (c : char) (s : jsstring) : bool := startsWith c (rev s).

(** [s.replace] of every double quote by two double quotes (global regex) *)
Definition doubleQuotes (s : jsstring) : jsstring :=
  flat_map (fun c => if c =? DQUOTE then [DQUOTE; DQUOTE] else [c]) s.

(** [s.replace] of every pair of double quotes by one (global regex):
    leftmost, non-overlapping pairs. *)
Fixpoint undoubleQuotes (s : jsstring) : jsstring :=
  match s with
  | [] => []
  | c :: rest =>
      match rest with
      | c' :: rest' =>
          if (c =? DQUOTE) && (c' =? DQUOTE) then DQUOTE :: undoubleQuotes rest'
          else c :: undoubleQuotes rest
      | [] => [c]
      end
  end.

(** [parts.join(sep)] *)
Fixpoint join (sep : char) (parts : list jsstring) : jsstring :=
  match parts with
  | [] => []
  | [p] => p
  | p :: ps => p ++ sep :: join sep ps
  end.

(** [s.split(sep)] for a one-character separator; [cur] is the piece being
    collected. *)
Fixpoint splitOn_from (sep : char) (cur s : jsstring) : list jsstring :=
  match s with
  | [] => [cur]
  | c :: rest =>
      if c =? sep then cur :: splitOn_from sep [] rest
      else splitOn_from sep (cur ++ [c]) rest
  end.

Definition splitOn (sep : char) (s : jsstring) : list jsstring :=
  splitOn_from sep [] s.

(** [s.split(/\r?\n/)]: a line feed, or a carriage return directly followed
    by a line feed, separates; a lone carriage return stays in the piece. *)
Fixpoint splitLines_from (cur s : jsstring) : list jsstring :=
  match s with
  | [] => [cur]
  | c :: rest =>
      if c =? LF then cur :: splitLines_from [] rest
      else if c =? CR then
        match rest with
        | c' :: rest' =>
            if c' =? LF then cur :: splitLines_from [] rest'
            else splitLines_from (cur ++ [c]) rest
        | [] => splitLines_from (cur ++ [c]) rest
        end
      else splitLines_from (cur ++ [c]) rest
  end.

Definition splitLines (s : jsstring) : list jsstring := splitLines_from [] s.

(** A JavaScript value is truthy as a string when it is not empty. *)
Definition nonEmpty (s : jsstring) : bool :=
  match s with
  | [] => false
  | _ :: _ => true
  end.

(** [text.charCodeAt(0) === 0xFEFF ? text.slice(1) : text] *)
Definition removeBOM (text : jsstring) : jsstring :=
  match text with
  | c :: t => if c =? BOM then t else text
  | [] => text
  end.

(** ** The bytes of a file and their text *)

Definition byte := N.

(** The content of a file or of a slice of it. *)
Definition blob := list byte.

(** U+FFFD, which the decoder puts for a malformed sequence. *)
Definition REPLACEMENT : char := 65533.

(** The state of the UTF-8 decoder of the Encoding standard: the code
    point being read, the number of bytes it still needs, and the bounds
    of the next byte. *)
Record utf8State := {
  codePoint : N;
  bytesLeft : nat;
  lowerBoundary : N;
  upperBoundary : N
}.

Definition utf8Start : utf8State :=
  {| codePoint := 0; bytesLeft := 0; lowerBoundary := 128; upperBoundary := 191 |}.

(** The code units of a code point: itself, or a surrogate pair. *)
Definition codeUnits (cp : N) : jsstring :=
  if cp <? 65536 then [cp]
  else [55296 + (cp - 65536) / 1024; 56320 + (cp - 65536) mod 1024].

(** The decoder on a byte when no sequence is open. *)
Definition utf8Lead (b : byte) : jsstring * utf8State :=
  if b <=? 127 then ([b], utf8Start)
  else if (194 <=? b) && (b <=? 223) then
    ([], {| codePoint := N.land b 31; bytesLeft := 1;
            lowerBoundary := 128; upperBoundary := 191 |})
  else if (224 <=? b) && (b <=? 239) then
    ([], {| codePoint := N.land b 15; bytesLeft := 2;
            lowerBoundary := if b =? 224 then 160 else 128;
            upperBoundary := if b =? 237 then 159 else 191 |})
  else if (240 <=? b) && (b <=? 244) then
    ([], {| codePoint := N.land b 7; bytesLeft := 3;
            lowerBoundary := if b =? 240 then 144 else 128;
            upperBoundary := if b =? 244 then 143 else 191 |})
  else ([REPLACEMENT], utf8Start).

(** The decoder on a byte: a byte out of bounds inside a sequence gives
    U+FFFD and is read again as the first byte of a sequence. *)
Definition utf8Step (st : utf8State) (b : byte) : jsstring * utf8State :=
  match bytesLeft st with
  | O => utf8Lead b
  | S more =>
      if (lowerBoundary st <=? b) && (b <=? upperBoundary st) then
        let cp := N.lor (N.shiftl (codePoint st) 6) (N.land b 63) in
        match more with
        | O => (codeUnits cp, utf8Start)
        | S _ => ([], {| codePoint := cp; bytesLeft := more;
                         lowerBoundary := 128; upperBoundary := 191 |})
        end
      else (REPLACEMENT :: fst (utf8Lead b), snd (utf8Lead b))
  end.

(** The decoder over the bytes: a sequence left open at the end gives
    U+FFFD. *)
Fixpoint utf8Decoder (st : utf8State) (bytes : blob) : jsstring :=
  match bytes with
  | [] => match bytesLeft st with O => [] | S _ => [REPLACEMENT] end
  | b :: rest => fst (utf8Step st b) ++ utf8Decoder (snd (utf8Step st b)) rest
  end.

(** [blob.text()]: UTF-8 decode, which drops a byte order mark, the bytes
    EF BB BF, at the head of the bytes. *)
Definition decodeUTF8 (bytes : blob) : jsstring :=
  match bytes with
  | b1 :: b2 :: b3 :: rest =>
      if (b1 =? 239) && (b2 =? 187) && (b3 =? 191)
      then utf8Decoder utf8Start rest
      else utf8Decoder utf8Start bytes
  | _ => utf8Decoder utf8Start bytes
  end.

(** ** Numbers in double precision *)

(** The integer part of the binary logarithm of the positive rational
    [n / d]. *)
Definition floorLog2 (n d : positive) : Z :=
  let k := (Z.log2 (Zpos n) - Z.log2 (Zpos d))%Z in
  if Qle_bool (2 ^ k)%Q (Zpos n # d) then k else (k - 1)%Z.

(** The nearest integer, the even one of two that are equally near. *)
Definition roundHalfEven (q : Q) : Z :=
  let f := Qfloor q in
  match Qcompare (q - inject_Z f) (1 # 2) with
  | Lt => f
  | Gt => (f + 1)%Z
  | Eq => if Z.even f then f else (f + 1)%Z
  end.

(** The double nearest to a positive rational: 53 significant bits, the
    unit in the last place not below 2^-1074. *)
Definition roundPositive (n d : positive) : Q :=
  let e := Z.max (floorLog2 n d - 52) (-1074) in
  Qred (inject_Z (roundHalfEven ((Zpos n # d) / 2 ^ e)) * 2 ^ e)%Q.

(** The double nearest to a rational, ties to even: the result of an
    arithmetic operation of JavaScript is this rounding of the exact
    result. *)
Definition roundDouble (q : Q) : Q :=
  match Qnum q with
  | Z0 => 0%Q
  | Zpos n => roundPositive n (Qden q)
  | Zneg n => Qopp (roundPositive n (Qden q))
  end.

(** [Math.round]: the nearest integer, the larger of two that are equally
    near. *)
Definition mathRound (x : Q) : Z := Qfloor (x + (1 # 2))%Q.

(** ** The CSV encoder, [formatCSVLine] *)

(** One element of the [values.map] callback of the main variant.  [None]
    stands for [null] and [undefined]. *)
Definition formatCSVField (value : option jsstring) : jsstring :=
  match value with
  | None => []
  | Some value =>
      let needsQuotes :=
        includes COMMA value || includes DQUOTE value
        || includes LF value || includes CR value
        || startsWith SPACE value || endsWith SPACE value in
      if needsQuotes then DQUOTE :: doubleQuotes value ++ [DQUOTE]
      else value
  end.

Definition formatCSVLine (values : list (option jsstring)) : jsstring :=
  join COMMA (map formatCSVField values).

(** ** The line parser, [parseCSVLine] *)

(** The [for] loop of the main variant over the rest of the line: [i++] after
    an escaped quote is the two-character step. *)
Fixpoint parseCSVLine_loop (delimiter : char) (line : jsstring)
    (result : list jsstring) (current : jsstring) (inQuotes : bool)
    : list jsstring :=
  match line with
  | [] => result ++ [trim current]
  | c :: rest =>
      if c =? DQUOTE then
        match inQuotes, rest with
        | true, c' :: rest' =>
            if c' =? DQUOTE
            then parseCSVLine_loop delimiter rest' result (current ++ [DQUOTE]) inQuotes
            else parseCSVLine_loop delimiter rest result current (negb inQuotes)
        | _, _ => parseCSVLine_loop delimiter rest result current (negb inQuotes)
        end
      else if (c =? delimiter) && negb inQuotes then
        parseCSVLine_loop delimiter rest (result ++ [trim current]) [] inQuotes
      else parseCSVLine_loop delimiter rest result (current ++ [c]) inQuotes
  end.

Definition parseCSVLine (line : jsstring) (delimiter : char) : list jsstring :=
  parseCSVLine_loop delimiter line [] [] false.


(** ** Slices and indices *)

(** [s.slice(0, n)] and [s.slice(n)] with the bound a number of type [N]. *)
Fixpoint takeN {A : Type} (n : N) (l : list A) : list A :=
  match l with
  | [] => []
  | x :: t => if n =? 0 then [] else x :: takeN (N.pred n) t
  end.

Fixpoint dropN {A : Type} (n : N) (l : list A) : list A :=
  match l with
  | [] => []
  | x :: t => if n =? 0 then l else dropN (N.pred n) t
  end.

(** [blob.slice(from, to)]: the bytes from [from] to [to]. *)
Definition sliceN (from to : N) (file : blob) : blob :=
  takeN (to - from) (dropN from file).

(** [file.size], the number of bytes of a file; also [s.length], the number
    of code units of a string. *)
Definition sizeN (file : list N) : N := N.of_nat (length file).

(** [s.lastIndexOf(c)], [None] standing for -1; [i] is the index of the head
    of [s]. *)
Fixpoint lastIndexOf_from (c : char) (i : nat) (s : jsstring) : option nat :=
  match s with
  | [] => None
  | x :: t =>
      match lastIndexOf_from c (S i) t with
      | Some k => Some k
      | None => if x =? c then Some i else None
      end
  end.

Definition lastIndexOf (c : char) (s : jsstring) : option nat :=
  lastIndexOf_from c 0 s.

(** [s.slice(1, -1)] *)
Definition sliceInner (s : jsstring) : jsstring := removelast (tl s).

(** Decimal rendering of a number inside a template literal. *)
Definition decimal (n : N) : jsstring :=
  str (DecimalString.NilZero.string_of_uint (N.to_uint n)).

(** ** The delimiter detector, [detectDelimiter] (main variant) *)

(** The keys of [delimiterCounts], in insertion order. *)
Definition candidates : list char := [COMMA; TAB; PIPE; SEMICOLON].

(** [counts.hasOwnProperty(char)] *)
Definition hasOwnProperty (c : char) (counts : list (char * Z)) : bool :=
  existsb (fun kv => fst kv =? c) counts.

(** [counts[char]++] *)
Definition increment (c : char) (counts : list (char * Z)) : list (char * Z) :=
  map (fun kv => if fst kv =? c then (fst kv, (snd kv + 1)%Z) else kv) counts.

(** [counts[delim]] *)
Definition getCount (c : char) (counts : list (char * Z)) : Z :=
  match find (fun kv => fst kv =? c) counts with
  | Some kv => snd kv
  | None => 0%Z
  end.

(** The inner [for] loop over one sampled line. *)
Fixpoint countLine_loop (line : jsstring) (inQuotes : bool)
    (counts : list (char * Z)) : list (char * Z) :=
  match line with
  | [] => counts
  | c :: rest =>
      if c =? DQUOTE then
        match inQuotes, rest with
        | true, c' :: rest' =>
            if c' =? DQUOTE then countLine_loop rest' inQuotes counts
            else countLine_loop rest (negb inQuotes) counts
        | _, _ => countLine_loop rest (negb inQuotes) counts
        end
      else if negb inQuotes && hasOwnProperty c counts then
        countLine_loop rest inQuotes (increment c counts)
      else countLine_loop rest inQuotes counts
  end.

Definition countLine (line : jsstring) : list (char * Z) :=
  countLine_loop line false (map (fun d => (d, 0%Z)) candidates).

(** [text.split(/\r?\n/).slice(0, 10).filter(line => line.trim())] *)
Definition sampleLines (text : jsstring) : list jsstring :=
  filter (fun line => nonEmpty (trim line)) (firstn 10 (splitLines text)).

(** [delimiterCounts[delim]] once every sampled line has pushed its count. *)
Definition delimiterCounts (lines : list jsstring) (delim : char) : list Z :=
  map (fun line => getCount delim (countLine line)) lines.

(** The consistency score, in double precision.  The counts are integers
    and their sum is exact; [Math.pow] with the exponent 2 is the rounded
    square. *)
Definition avgCount (counts : list Z) : Q :=
  roundDouble (inject_Z (fold_left Z.add counts 0%Z)
               / inject_Z (Z.of_nat (length counts)))%Q.

Definition variance (counts : list Z) : Q :=
  roundDouble
    (fold_left (fun sum count =>
                  roundDouble
                    (sum + roundDouble
                             (roundDouble (inject_Z count - avgCount counts)
                              * roundDouble (inject_Z count - avgCount counts))))
       counts 0
     / inject_Z (Z.of_nat (length counts)))%Q.

Definition consistency (counts : list Z) : Q :=
  if Qlt_le_dec 0 (avgCount counts)
  then roundDouble
         (roundDouble (1 / roundDouble (1 + variance counts)) * avgCount counts)%Q
  else 0%Q.

(** One round of [Object.keys(delimiterCounts).forEach]: the state is
    [(bestDelimiter, bestScore)]. *)
Definition scoreStep (lines : list jsstring) (best : char * Q) (delim : char)
    : char * Q :=
  match delimiterCounts lines delim with
  | [] => best
  | first :: _ =>
      if (first =? 0)%Z then best
      else if Qlt_le_dec (snd best) (consistency (delimiterCounts lines delim))
           then (delim, consistency (delimiterCounts lines delim))
           else best
  end.

Definition detectDelimiter (text : jsstring) : char :=
  match sampleLines text with
  | [] => COMMA
  | lines => fst (fold_left (scoreStep lines) candidates (COMMA, (-1)%Q))
  end.

(** ** The tokenizers, [parseCSVData] and [parseTSVData] *)

Definition MAX_FIELD_SIZE : N := 1000000.

(** [currentLine.length > 0 && (currentLine.length > 1 || currentLine[0] !== '')] *)
Definition keepLine (currentLine : list jsstring) : bool :=
  match currentLine with
  | [] => false
  | [f] => nonEmpty f
  | _ :: _ :: _ => true
  end.

Definition pushLine (lines : list (list jsstring)) (currentLine : list jsstring)
    : list (list jsstring) :=
  if keepLine currentLine then lines ++ [currentLine] else lines.

(** [nextChar === c], with [nextChar] undefined past the end of the text. *)
Definition nextIs (c : char) (rest : jsstring) : bool :=
  match rest with
  | [] => false
  | c' :: _ => c' =? c
  end.

(** The [while] loop of [parseCSVData] over the rest of the text; [i += 2]
    is the two-character step. *)
Fixpoint parseCSVData_loop (delimiter : char) (isTSV : bool) (text : jsstring)
    (lines : list (list jsstring)) (currentLine : list jsstring)
    (currentField : jsstring) (inQuotes : bool) : list (list jsstring) :=
  match text with
  | [] =>
      let currentLine :=
        if nonEmpty currentField || negb (length currentLine =? 0)%nat
        then currentLine ++ [currentField] else currentLine in
      pushLine lines currentLine
  | c :: rest =>
      if negb isTSV && (c =? DQUOTE) then
        match inQuotes, rest with
        | true, c' :: rest' =>
            if c' =? DQUOTE
            then parseCSVData_loop delimiter isTSV rest' lines currentLine
                   (currentField ++ [DQUOTE]) inQuotes
            else parseCSVData_loop delimiter isTSV rest lines currentLine
                   currentField (negb inQuotes)
        | _, _ => parseCSVData_loop delimiter isTSV rest lines currentLine
                    currentField (negb inQuotes)
        end
      else if isTSV && (c =? DQUOTE) then
        if negb (nonEmpty currentField) && negb (nextIs delimiter rest)
           && negb (nextIs LF rest) && negb (nextIs CR rest)
        then parseCSVData_loop delimiter isTSV rest lines currentLine currentField true
        else if inQuotes && (nextIs delimiter rest || nextIs LF rest
                             || nextIs CR rest || negb (nonEmpty rest))
        then parseCSVData_loop delimiter isTSV rest lines currentLine currentField false
        else
          match inQuotes, rest with
          | true, c' :: rest' =>
              if c' =? DQUOTE
              then parseCSVData_loop delimiter isTSV rest' lines currentLine
                     (currentField ++ [DQUOTE]) inQuotes
              else parseCSVData_loop delimiter isTSV rest lines currentLine
                     (currentField ++ [c]) inQuotes
          | _, _ => parseCSVData_loop delimiter isTSV rest lines currentLine
                      (currentField ++ [c]) inQuotes
          end
      else if (c =? delimiter) && negb inQuotes then
        parseCSVData_loop delimiter isTSV rest lines
          (currentLine ++ [currentField]) [] inQuotes
      else if ((c =? LF) || (c =? CR)) && negb inQuotes then
        match rest with
        | c' :: rest' =>
            if (c =? CR) && (c' =? LF)
            then parseCSVData_loop delimiter isTSV rest'
                   (pushLine lines (currentLine ++ [currentField])) [] [] inQuotes
            else parseCSVData_loop delimiter isTSV rest
                   (pushLine lines (currentLine ++ [currentField])) [] [] inQuotes
        | [] => parseCSVData_loop delimiter isTSV rest
                  (pushLine lines (currentLine ++ [currentField])) [] [] inQuotes
        end
      else
        parseCSVData_loop delimiter isTSV rest lines currentLine
          (if sizeN currentField <? MAX_FIELD_SIZE then currentField ++ [c]
           else currentField)
          inQuotes
  end.

Definition parseCSVData (text : jsstring) (delimiter : char)
    : list (list jsstring) :=
  parseCSVData_loop delimiter (delimiter =? TAB) text [] [] [] false.

(** The callback that strips a pair of enclosing quotes from a tab-separated
    field; [field || ''] is the field itself for a string. *)
Definition unquoteField (field : jsstring) : jsstring :=
  if nonEmpty field && (2 <=? length field)%nat
     && startsWith DQUOTE field && endsWith DQUOTE field
  then undoubleQuotes (sliceInner field)
  else field.

(** [while (processedFields.length < maxFields) processedFields.push('')] *)
Definition padTo (maxFields : nat) (fields : list jsstring) : list jsstring :=
  fields ++ repeat [] (maxFields - length fields).

Definition parseTSVData (text : jsstring) : list (list jsstring) :=
  let rawLines := splitLines text in
  let maxFields :=
    fold_left (fun m line =>
                 if nonEmpty line then Nat.max m (length (splitOn TAB line)) else m)
              rawLines 0%nat in
  flat_map (fun line =>
              if nonEmpty line
              then [padTo maxFields (map unquoteField (splitOn TAB line))]
              else [])
           rawLines.

(** ** Loading a file: the header row of [handleFile] (main variant) *)

Definition MAX_FILE_SIZE : N := 700 * 1024 * 1024.
Definition PREVIEW_SIZE : N := 1024 * 1024.

(** The diagnostic loop over rows 1 to 19 of the preview: the largest field
    count among the sampled rows that differ from the header. *)
Definition maxColumnsOf (numColumns : nat) (parsedLines : list (list jsstring))
    : nat :=
  fold_left (fun maxColumns row =>
               if (length row =? numColumns)%nat then maxColumns
               else Nat.max maxColumns (length row))
            (firstn 19 (tl parsedLines)) numColumns.

(** The warning sign, its variation selector, a space and [Extra_k]. *)
Definition extraName (k : N) : jsstring :=
  [9888; 65039; SPACE] ++ str "Extra_" ++ decimal k.

Definition columnName (k : N) : jsstring := str "Column_" ++ decimal k.

(** The placeholder names pushed for [i] from [numColumns] to
    [maxColumns - 1]. *)
Definition placeholders (name : N -> jsstring) (numColumns maxColumns : nat)
    : list jsstring :=
  map (fun i => name (N.of_nat (i + 1))) (seq numColumns (maxColumns - numColumns)).

(** [headers] after the first parsed row has been taken as header and the
    placeholder names have been pushed. *)
Definition extendHeaders (delimiter : char) (parsedLines : list (list jsstring))
    : list jsstring :=
  let headers := hd [] parsedLines in
  let numColumns := length headers in
  let maxColumns := maxColumnsOf numColumns parsedLines in
  if (numColumns <? maxColumns)%nat && (delimiter =? TAB)
  then headers ++ placeholders extraName numColumns maxColumns
  else if (numColumns <? maxColumns)%nat
  then headers ++ placeholders columnName numColumns maxColumns
  else headers.

(** What [handleFile] leaves in the globals, or the message it shows. *)
Inductive loaded :=
| Rejected (message : jsstring)
| Loaded (delimiter : char) (headers : list jsstring).

Definition previewLines (text : jsstring) (delimiter : char)
    : list (list jsstring) :=
  if delimiter =? TAB then parseTSVData text else parseCSVData text delimiter.

Definition handleFile (file : blob) : loaded :=
  if MAX_FILE_SIZE <? sizeN file
  then Rejected (str "File size exceeds 700 MB limit")
  else
    let text :=
      removeBOM (decodeUTF8 (sliceN 0 (N.min PREVIEW_SIZE (sizeN file)) file)) in
    let delimiter := detectDelimiter text in
    match previewLines text delimiter with
    | [] => Rejected (str "No data found in file")
    | parsedLines => Loaded delimiter (extendHeaders delimiter parsedLines)
    end.

(** ** The export, [exportFile] (main variant) *)

Definition CHUNK_SIZE : N := 5 * 1024 * 1024.

(** What the caller observes of one export: the error shown, the values
    passed to [showProgress], the byte ranges sliced from the file, and the
    parts of the downloaded blob. *)
Record outcome := {
  errorMessage : option jsstring;
  shown : list N;
  slices : list (N * N);
  download : option (list jsstring)
}.

(** The variables of the chunk loop. *)
Record exportState := {
  offset : N;
  outputParts : list jsstring;
  remainder : jsstring;
  isFirstChunk : bool;
  progress : list N;
  requested : list (N * N)
}.

(** [Math.min(100, Math.round((offset / size) * 100))]: the quotient and
    the product are rounded to doubles. *)
Definition progressOf (offset size : N) : N :=
  N.min 100
    (Z.to_N (mathRound
       (roundDouble
          (roundDouble (inject_Z (Z.of_N offset) / inject_Z (Z.of_N size))
           * 100)%Q))).

(** [paddedValues[j] = values[j] || ''] for [j] below [headers.length] *)
Definition padValues (headers values : list jsstring) : list jsstring :=
  map (fun j => nth j values []) (seq 0 (length headers)).

(** [selectedColumns.map(idx => paddedValues[idx] || '')] *)
Definition selectValues (selectedColumns : list nat)
    (paddedValues : list jsstring) : list jsstring :=
  map (fun idx => nth idx paddedValues []) selectedColumns.

Definition encodeRow (selectedValues : list jsstring) : jsstring :=
  formatCSVLine (map Some selectedValues) ++ [LF].

(** The body of the row loop of the comma path. *)
Definition emitCSVRow (headers : list jsstring) (selectedColumns : list nat)
    (values : list jsstring) : list jsstring :=
  if negb (length values =? 0)%nat then
    let selectedValues := selectValues selectedColumns (padValues headers values) in
    if existsb nonEmpty selectedValues then [encodeRow selectedValues] else []
  else [].

(** [for (let i = (isFirstChunk ? 1 : 0); i < parsedLines.length; i++)] *)
Definition fromRow {A : Type} (isFirstChunk : bool) (rows : list A) : list A :=
  if isFirstChunk then tl rows else rows.

Definition emitCSVRows (headers : list jsstring) (selectedColumns : list nat)
    (isFirstChunk : bool) (parsedLines : list (list jsstring)) : list jsstring :=
  flat_map (emitCSVRow headers selectedColumns) (fromRow isFirstChunk parsedLines).

(** The count of quotes before position [i], a pair of adjacent quotes
    counting for none; [s] is the text from position [j] on and [todo] is
    [i - j]. *)
Fixpoint quoteCount_from (s : jsstring) (todo : nat) : nat :=
  match todo, s with
  | S todo', c :: rest =>
      if c =? DQUOTE then
        match rest with
        | c' :: rest' =>
            if c' =? DQUOTE then quoteCount_from rest' (todo' - 1)
            else S (quoteCount_from rest todo')
        | [] => S (quoteCount_from rest todo')
        end
      else quoteCount_from rest todo'
  | _, _ => 0%nat
  end.

Definition quoteCount (fullText : jsstring) (i : nat) : nat :=
  quoteCount_from fullText i.

Definition charAt (s : jsstring) (i : nat) (c : char) : bool :=
  match nth_error s i with
  | Some x => x =? c
  | None => false
  end.

(** The backward scan for a line break outside quotes, entered at index [i]
    with the running [inQuotes]; the result is [lastCompleteLineEnd]. *)
Fixpoint scanBack (fullText : jsstring) (i : nat) (inQuotes : bool) : nat :=
  if (Z.of_nat (length fullText) - 1000 <=? Z.of_nat i)%Z then
    let inQuotes :=
      if charAt fullText i DQUOTE then Nat.odd (quoteCount fullText i)
      else inQuotes in
    if (charAt fullText i LF || charAt fullText i CR) && negb inQuotes then
      if charAt fullText i CR && charAt fullText (i + 1) LF
      then (i + 2)%nat else (i + 1)%nat
    else
      match i with
      | O => length fullText
      | S i' => scanBack fullText i' inQuotes
      end
  else length fullText.

Definition findSafeBreak (fullText : jsstring) : nat :=
  match length fullText with
  | O => O
  | S i => scanBack fullText i false
  end.

(** One round of the chunk loop of the comma path. *)
Definition csvChunk (headers : list jsstring) (delimiter : char)
    (selectedColumns : list nat) (chunkSize : N) (currentFile : blob)
    (st : exportState) : exportState :=
  let size := sizeN currentFile in
  let to := N.min (offset st + chunkSize) size in
  let text := decodeUTF8 (sliceN (offset st) to currentFile) in
  let text := if offset st =? 0 then removeBOM text else text in
  let fullText := remainder st ++ text in
  let lastCompleteLineEnd :=
    if offset st + chunkSize <? size then findSafeBreak fullText
    else length fullText in
  let toProcess := firstn lastCompleteLineEnd fullText in
  let parsedLines := parseCSVData toProcess delimiter in
  {| offset := offset st + chunkSize;
     outputParts := outputParts st
                    ++ emitCSVRows headers selectedColumns (isFirstChunk st) parsedLines;
     remainder := skipn lastCompleteLineEnd fullText;
     isFirstChunk := false;
     progress := progress st ++ [progressOf (offset st + chunkSize) size];
     requested := requested st ++ [(offset st, to)] |}.

(** The rows of the trailing text of the comma path. *)
Definition csvTail (headers : list jsstring) (delimiter : char)
    (selectedColumns : list nat) (remainder : jsstring) : list jsstring :=
  if nonEmpty (trim remainder)
  then emitCSVRows headers selectedColumns false (parseCSVData remainder delimiter)
  else [].

(** The padding of the tab path inside the chunk loop. *)
Definition padValuesTSV (headers processedValues : list jsstring)
    : list jsstring :=
  let maxFields := Nat.min (length processedValues) (length headers) in
  map (fun j => if (j <? maxFields)%nat then nth j processedValues [] else [])
      (seq 0 (length headers)).

(** The body of the line loop of the tab path. *)
Definition emitTSVLine (headers : list jsstring) (selectedColumns : list nat)
    (line : jsstring) : list jsstring :=
  if nonEmpty line then
    let processedValues := map unquoteField (splitOn TAB line) in
    [encodeRow (selectValues selectedColumns (padValuesTSV headers processedValues))]
  else [].

Definition emitTSVLines (headers : list jsstring) (selectedColumns : list nat)
    (isFirstChunk : bool) (lines : list jsstring) : list jsstring :=
  flat_map (emitTSVLine headers selectedColumns) (fromRow isFirstChunk lines).

(** One round of the chunk loop of the tab path. *)
Definition tsvChunk (headers : list jsstring) (selectedColumns : list nat)
    (chunkSize : N) (currentFile : blob) (st : exportState) : exportState :=
  let size := sizeN currentFile in
  let to := N.min (offset st + chunkSize) size in
  let text := decodeUTF8 (sliceN (offset st) to currentFile) in
  let text := if offset st =? 0 then removeBOM text else text in
  let fullText := remainder st ++ text in
  let lastNewline :=
    if size <=? offset st + chunkSize then length fullText
    else match lastIndexOf LF fullText with
         | Some k => k
         | None => length fullText
         end in
  let toProcess := firstn lastNewline fullText in
  let lines := splitLines toProcess in
  {| offset := offset st + chunkSize;
     outputParts := outputParts st
                    ++ emitTSVLines headers selectedColumns (isFirstChunk st) lines;
     remainder := if (lastNewline <? length fullText)%nat
                  then skipn (lastNewline + 1) fullText else [];
     isFirstChunk := false;
     progress := progress st ++ [progressOf (offset st + chunkSize) size];
     requested := requested st ++ [(offset st, to)] |}.

(** The row of the trailing text of the tab path. *)
Definition tsvTail (headers : list jsstring) (selectedColumns : list nat)
    (remainder : jsstring) : list jsstring :=
  if nonEmpty remainder && nonEmpty (trim remainder) then
    let processedValues := map unquoteField (splitOn TAB remainder) in
    let paddedValues :=
      map (fun j => if (j <? length processedValues)%nat
                    then nth j processedValues [] else [])
          (seq 0 (length headers)) in
    [encodeRow (selectValues selectedColumns paddedValues)]
  else [].

(** [while (offset < currentFile.size)]: [None] when the fuel runs out
    before the condition fails. *)
Fixpoint whileChunks (fuel : nat) (size : N)
    (body : exportState -> exportState) (st : exportState)
    : option exportState :=
  if offset st <? size then
    match fuel with
    | O => None
    | S fuel' => whileChunks fuel' size body (body st)
    end
  else Some st.

(** [selectedColumns.map(i => headers[i])] *)
Definition selectedHeaders (headers : list jsstring)
    (selectedColumns : list nat) : list (option jsstring) :=
  map (fun i => nth_error headers i) selectedColumns.

(** [exportFile] with the globals [headers], [delimiter] and [currentFile],
    the indices of the ticked boxes and the window size as arguments; the
    page runs it with [CHUNK_SIZE]. *)
Definition exportFile (headers : list jsstring) (delimiter : char)
    (selectedColumns : list nat) (chunkSize : N) (currentFile : blob)
    : option outcome :=
  match selectedColumns with
  | [] =>
      Some {| errorMessage := Some (str "Please select at least one column");
              shown := []; slices := []; download := None |}
  | _ =>
      let start :=
        {| offset := 0;
           outputParts := [formatCSVLine (selectedHeaders headers selectedColumns) ++ [LF]];
           remainder := [];
           isFirstChunk := true;
           progress := [0];
           requested := [] |} in
      let body :=
        if delimiter =? TAB
        then tsvChunk headers selectedColumns chunkSize currentFile
        else csvChunk headers delimiter selectedColumns chunkSize currentFile in
      match whileChunks (length currentFile) (sizeN currentFile) body start with
      | None => None
      | Some st =>
          let tail :=
            if delimiter =? TAB
            then tsvTail headers selectedColumns (remainder st)
            else csvTail headers delimiter selectedColumns (remainder st) in
          Some {| errorMessage := None;
                  shown := progress st;
                  slices := requested st;
                  download := Some (outputParts st ++ tail) |}
      end
  end.

(** The text of the downloaded blob. *)
Definition blobText (o : outcome) : option jsstring :=
  option_map (@concat char) (download o).

(** ** The name of the download *)

(** [a === b] on strings *)
Fixpoint eqString (a b : jsstring) : bool :=
  match a, b with
  | [], [] => true
  | x :: a', y :: b' => (x =? y) && eqString a' b'
  | _, _ => false
  end.

(** [s.endsWith(suffix)] *)
Definition endsWithString (suffix s : jsstring) : bool :=
  (length suffix <=? length s)%nat
  && eqString (skipn (length s - length suffix) s) suffix.

(** The four final characters match the pattern of a dot followed by csv or
    tsv, letters in either case (the [i] flag of the regular expression). *)
Definition isCsvTsvExtension (tail : jsstring) : bool :=
  match tail with
  | [dot; c1; c2; c3] =>
      (dot =? 46)
      && ((c1 =? 99) || (c1 =? 67) || (c1 =? 116) || (c1 =? 84))
      && ((c2 =? 115) || (c2 =? 83))
      && ((c3 =? 118) || (c3 =? 86))
  | _ => false
  end.

(** [name.replace] of a final extension csv or tsv by nothing *)
Definition stripCsvTsv (name : jsstring) : jsstring :=
  if isCsvTsvExtension (skipn (length name - 4) name)
  then firstn (length name - 4) name
  else name.

(** The default name [handleFile] puts in the name field. *)
Definition defaultExportName (fileName : jsstring) : jsstring :=
  stripCsvTsv fileName ++ str "_converted".

(** [exportFileName] as [exportFile] computes it from the name field and the
    name of the file. *)
Definition exportFileName (nameInput fileName : jsstring) : jsstring :=
  let name := trim nameInput in
  let name := if nonEmpty name then name else defaultExportName fileName in
  if endsWithString (str ".csv") name then name else name ++ str ".csv".

(** ** Presets *)

(** A saved preset: its name and the header names of the ticked columns;
    [None] stands for the [undefined] of a box without a header. *)
Record preset := {
  presetName : jsstring;
  presetHeaders : list (option jsstring)
}.

(** The loop of [savePreset] and [openSavePresetModal] over the check
    boxes: [headers[index]] of every ticked box, in order. *)
Definition tickedHeaders (headers : list jsstring) (boxes : list bool)
    : list (option jsstring) :=
  flat_map (fun ib : nat * bool => if snd ib then [nth_error headers (fst ib)] else [])
           (combine (seq 0%nat (length boxes)) boxes).

(** The object [savePreset] stores. *)
Definition newPreset (name : jsstring) (headers : list jsstring)
    (boxes : list bool) : preset :=
  {| presetName := name; presetHeaders := tickedHeaders headers boxes |}.

(** [header === presetHeader] *)
Definition sameHeader (header : jsstring) (presetHeader : option jsstring)
    : bool :=
  match presetHeader with
  | Some h => eqString header h
  | None => false
  end.

(** [applyPreset]: every box is cleared, then the box of every header equal
    to a header of the preset is ticked; the result is the state of the
    boxes. *)
Definition applyPreset (headers : list jsstring) (boxes : list bool)
    (p : preset) : list bool :=
  map (fun index =>
         match nth_error headers index with
         | Some header => existsb (sameHeader header) (presetHeaders p)
         | None => false
         end)
      (seq 0%nat (length boxes)).

(** ** The older variant of the page ([src/unnamed/part_000]) *)

Module Legacy.

Definition formatCSVField (value : option jsstring) : jsstring :=
  match value with
  | None => []
  | Some value =>
      if includes COMMA value || includes DQUOTE value || includes LF value
      then DQUOTE :: doubleQuotes value ++ [DQUOTE]
      else value
  end.

Definition formatCSVLine (values : list (option jsstring)) : jsstring :=
  join COMMA (map formatCSVField values).

Fixpoint parseCSVLine_loop (delimiter : char) (line : jsstring)
    (result : list jsstring) (current : jsstring) (inQuotes : bool)
    : list jsstring :=
  match line with
  | [] => result ++ [current]
  | c :: rest =>
      if c =? DQUOTE then
        match inQuotes, rest with
        | true, c' :: rest' =>
            if c' =? DQUOTE
            then parseCSVLine_loop delimiter rest' result (current ++ [DQUOTE]) inQuotes
            else parseCSVLine_loop delimiter rest result current (negb inQuotes)
        | _, _ => parseCSVLine_loop delimiter rest result current (negb inQuotes)
        end
      else if (c =? delimiter) && negb inQuotes then
        parseCSVLine_loop delimiter rest (result ++ [current]) [] inQuotes
      else parseCSVLine_loop delimiter rest result (current ++ [c]) inQuotes
  end.

Definition parseCSVLine (line : jsstring) (delimiter : char) : list jsstring :=
  parseCSVLine_loop delimiter line [] [] false.


Definition CHUNK_SIZE : N := 10 * 1024 * 1024.

(** The body of the line loop; [line] is the trimmed line. *)
Definition emitLine (delimiter : char) (selectedColumns : list nat)
    (line : jsstring) : list jsstring :=
  if nonEmpty line
  then [formatCSVLine
          (map Some (selectValues selectedColumns (parseCSVLine line delimiter)))
        ++ [LF]]
  else [].

(** One round of the chunk loop; [remainder] holds [partialLine]. *)
Definition chunk (delimiter : char) (selectedColumns : list nat)
    (chunkSize : N) (currentFile : blob) (st : exportState) : exportState :=
  let size := sizeN currentFile in
  let text := decodeUTF8 (sliceN (offset st) (offset st + chunkSize) currentFile) in
  let lines := splitOn LF (remainder st ++ text) in
  {| offset := offset st + chunkSize;
     outputParts := outputParts st
                    ++ flat_map (fun line => emitLine delimiter selectedColumns (trim line))
                         (fromRow (isFirstChunk st) (removelast lines));
     remainder := last lines [];
     isFirstChunk := false;
     progress := progress st ++ [progressOf (offset st + chunkSize) size];
     requested := requested st ++ [(offset st, offset st + chunkSize)] |}.

Definition exportFile (headers : list jsstring) (delimiter : char)
    (selectedColumns : list nat) (chunkSize : N) (currentFile : blob)
    : option outcome :=
  match selectedColumns with
  | [] =>
      Some {| errorMessage := Some (str "Please select at least one column");
              shown := []; slices := []; download := None |}
  | _ =>
      let start :=
        {| offset := 0;
           outputParts := [formatCSVLine (selectedHeaders headers selectedColumns) ++ [LF]];
           remainder := [];
           isFirstChunk := true;
           progress := [0];
           requested := [] |} in
      match whileChunks (length currentFile) (sizeN currentFile)
              (chunk delimiter selectedColumns chunkSize currentFile) start with
      | None => None
      | Some st =>
          let tail :=
            if nonEmpty (trim (remainder st))
            then [formatCSVLine
                    (map Some (selectValues selectedColumns
                                 (parseCSVLine (remainder st) delimiter)))
                  ++ [LF]]
            else [] in
          Some {| errorMessage := None;
                  shown := progress st;
                  slices := requested st;
                  download := Some (outputParts st ++ tail) |}
      end
  end.

End Legacy.

(** ** Notions used by the statements *)

(** A value between double quotes, its own double quotes doubled. *)
Definition wrapped (v : jsstring) : jsstring :=
  DQUOTE :: doubleQuotes v ++ [DQUOTE].

(** The example field of the quoting rule: He said, quote, hi, quote, comma,
    bye. *)
Definition heSaid : jsstring :=
  str "He said " ++ [DQUOTE] ++ str "hi" ++ [DQUOTE] ++ str ", bye".

(** The same field between quotes, its two inner quotes doubled. *)
Definition heSaidEncoded : jsstring :=
  [DQUOTE] ++ str "He said " ++ [DQUOTE; DQUOTE] ++ str "hi"
  ++ [DQUOTE; DQUOTE] ++ str ", bye" ++ [DQUOTE].

(** Words of the specification: a value has leading or trailing whitespace. *)
Definition hasEdgeWhitespace (v : jsstring) : bool :=
  match v with
  | [] => false
  | c :: _ => isWhiteSpace c || isWhiteSpace (last v c)
  end.

(** Words of the specification: the condition under which the encoder is
    said to wrap a value. *)
Definition needsQuotes_spec (v : jsstring) : bool :=
  includes COMMA v || includes DQUOTE v || includes LF v || includes CR v
  || hasEdgeWhitespace v.

(** A finite number of the Standard Library's specification of binary64
    as a rational. *)
Definition rationalOf (x : SpecFloat.spec_float) : option Q :=
  match x with
  | SpecFloat.S754_zero _ => Some 0%Q
  | SpecFloat.S754_finite s m e =>
      Some (Qred ((if s then -1 else 1) * inject_Z (Zpos m) * 2 ^ e))%Q
  | _ => None
  end.

(** An integer as a number of that specification. *)
Definition binary64Of (z : Z) : SpecFloat.spec_float :=
  match z with
  | Z0 => SpecFloat.S754_zero false
  | Zpos p => SpecFloat.S754_finite false p 0
  | Zneg p => SpecFloat.S754_finite true p 0
  end.

(** Bytes below 128: each is one character of the text. *)
Definition isASCII (bytes : blob) : Prop := Forall (fun b => b < 128) bytes.

(** [counts.length === 0 || counts[0] === 0], the guard of the scoring loop *)
Definition firstCountIsZero (lines : list jsstring) (delim : char) : bool :=
  match delimiterCounts lines delim with
  | [] => true
  | first :: _ => (first =? 0)%Z
  end.

(** The score of a candidate over the sampled lines. *)
Definition score (lines : list jsstring) (delim : char) : Q :=
  consistency (delimiterCounts lines delim).

(** The state of the scoring loop once the candidates [seen] are done:
    nothing picked yet, or the first of the best eligible candidates. *)
Definition scored (lines : list jsstring) (seen : list char)
    (best : char * Q) : Prop :=
  (best = (COMMA, (-1)%Q)
   /\ Forall (fun d => firstCountIsZero lines d = true) seen)
  \/ (exists pre post,
        seen = pre ++ fst best :: post
        /\ firstCountIsZero lines (fst best) = false
        /\ snd best = score lines (fst best)
        /\ Forall (fun d => firstCountIsZero lines d = true
                            \/ (score lines d < score lines (fst best))%Q) pre
        /\ Forall (fun d => firstCountIsZero lines d = true
                            \/ (score lines d <= score lines (fst best))%Q) post).

(** A sample with 0, 2 and 5 commas and 3, 3 and 3 tabs on its lines. *)
Definition sampleTabs : jsstring :=
  str "a" ++ [TAB] ++ str "b" ++ [TAB] ++ str "c" ++ [TAB] ++ str "d" ++ [LF]
  ++ str "a,b" ++ [TAB] ++ str "c,d" ++ [TAB] ++ str "e" ++ [TAB] ++ str "f" ++ [LF]
  ++ str "a,b,c" ++ [TAB] ++ str "d,e,f" ++ [TAB] ++ str "g," ++ [TAB] ++ str "h".

(** A sample with 1, 0 and 1 commas and 2, 0 and 4 tabs on its lines: the
    two scores are 6/11 in exact arithmetic, and the score of the tab is
    one unit in the last place above the score of the comma in double
    precision. *)
Definition sampleTie : jsstring :=
  str "a,b" ++ [TAB] ++ str "c" ++ [TAB] ++ str "d" ++ [LF]
  ++ str "x" ++ [LF]
  ++ str "a,b" ++ [TAB] ++ str "c" ++ [TAB] ++ str "d" ++ [TAB] ++ str "e"
  ++ [TAB] ++ str "f".

(** A sample whose first line has no delimiter and whose later lines have one
    semicolon each. *)
Definition sampleLateSemicolon : jsstring :=
  str "abc" ++ [LF] ++ str "a;b" ++ [LF] ++ str "c;d".

(** A sample whose first line has no comma and where no other candidate
    occurs. *)
Definition sampleLateComma : jsstring :=
  str "abc" ++ [LF] ++ str "a,b" ++ [LF] ++ str "c,d".

(** A sample where the tab is absent from the first line and frequent on the
    later ones. *)
Definition sampleLateTab : jsstring :=
  str "a;b" ++ [LF] ++ str "a" ++ [TAB] ++ str "b" ++ [TAB] ++ str "c;d" ++ [LF]
  ++ str "e" ++ [TAB] ++ str "f" ++ [TAB] ++ str "g;h".

(** The percentage of [offset] over [size] in double precision, before
    [Math.round]. *)
Definition percentOf (offset size : N) : Q :=
  roundDouble
    (roundDouble (inject_Z (Z.of_N offset) / inject_Z (Z.of_N size)) * 100)%Q.

(** The state of the chunk loop after [n] windows, as far as the progress
    bar and the requested slices go. *)
Definition paced (size chunkSize : N) (st : exportState) : Prop :=
  exists n : nat,
    offset st = N.of_nat n * chunkSize
    /\ progress st
       = map (fun k => progressOf (N.of_nat k * chunkSize) size) (seq 0 (S n))
    /\ requested st
       = map (fun k => (N.of_nat k * chunkSize,
                        N.min (N.of_nat k * chunkSize + chunkSize) size))
             (seq 0 n)
    /\ (n = 0%nat \/ N.of_nat (n - 1) * chunkSize < size).

(** Both paths of the main variant advance the offset, the progress bar and
    the list of slices alike. *)
Definition exportBody (headers : list jsstring) (delimiter : char)
    (selectedColumns : list nat) (chunkSize : N) (currentFile : blob)
    : exportState -> exportState :=
  if delimiter =? TAB
  then tsvChunk headers selectedColumns chunkSize currentFile
  else csvChunk headers delimiter selectedColumns chunkSize currentFile.

(** The rows of the text left over when the loop is done. *)
Definition exportTail (headers : list jsstring) (delimiter : char)
    (selectedColumns : list nat) (remainder : jsstring) : list jsstring :=
  if delimiter =? TAB
  then tsvTail headers selectedColumns remainder
  else csvTail headers delimiter selectedColumns remainder.

(** The variables of the loop as [exportFile] sets them up: the header
    line is the first output part and 0 the first progress value. *)
Definition exportStart (headers : list jsstring) (selectedColumns : list nat)
    : exportState :=
  {| offset := 0;
     outputParts := [formatCSVLine (selectedHeaders headers selectedColumns) ++ [LF]];
     remainder := [];
     isFirstChunk := true;
     progress := [0];
     requested := [] |}.

(** A file of 200 bytes, the letter x, without a line break. *)
Definition file200 : blob := repeat 120 200.

(** The test that lets a row of the comma path through. *)
Definition someSelected (headers : list jsstring) (selectedColumns : list nat)
    (values : list jsstring) : bool :=
  existsb nonEmpty (selectValues selectedColumns (padValues headers values)).

(** The output part of a row: padded to the header, projected to the
    selected columns and encoded. *)
Definition projectRow (headers : list jsstring) (selectedColumns : list nat)
    (values : list jsstring) : jsstring :=
  encodeRow (selectValues selectedColumns (padValues headers values)).

(** The output part of a line of the tab path. *)
Definition projectLine (headers : list jsstring) (selectedColumns : list nat)
    (line : jsstring) : jsstring :=
  projectRow headers selectedColumns (map unquoteField (splitOn TAB line)).

(** A file whose second row has an empty first field, and the same rows
    separated by tabs. *)
Definition fileEmptyFirst : blob :=
  str "a,b" ++ [LF] ++ str ",x" ++ [LF].

Definition fileEmptyFirstTab : blob :=
  str "a" ++ [TAB] ++ str "b" ++ [LF] ++ [TAB] ++ str "x" ++ [LF].

(** A file whose rows have fewer and more fields than its header. *)
Definition fileRagged : blob :=
  str "a,b" ++ [LF] ++ str "x" ++ [LF] ++ str "p,q,r" ++ [LF].

(** The characters that end a row outside quotes. *)
Definition isTerminator (c : char) : bool := (c =? LF) || (c =? CR).

(** The last character of a text is a row terminator. *)
Fixpoint endsWithTerminator (u : jsstring) : bool :=
  match u with
  | [] => false
  | [c] => isTerminator c
  | _ :: rest => endsWithTerminator rest
  end.

(** The number of double quotes of a text. *)
Definition quotesIn (text : jsstring) : nat :=
  length (filter (fun c => c =? DQUOTE) text).

(** The last character of a text is a carriage return. *)
Fixpoint endsWithCR (u : jsstring) : bool :=
  match u with
  | [] => false
  | [c] => c =? CR
  | _ :: rest => endsWithCR rest
  end.

(** The delimiters of the comma path. *)
Definition csvDelimiters : list char := [COMMA; PIPE; SEMICOLON].

(** The field after one more character. *)
Definition grow (cf : jsstring) (c : char) : jsstring :=
  if sizeN cf <? MAX_FIELD_SIZE then cf ++ [c] else cf.

(** The text of the window at [off], as the chunk loops read it: the
    bytes of the window decoded on their own, without the byte order mark
    when the window is the first. *)
Definition chunkText (chunkSize : N) (file : blob) (off : N) : jsstring :=
  let text := decodeUTF8 (sliceN off (N.min (off + chunkSize) (sizeN file)) file) in
  if off =? 0 then removeBOM text else text.

(** A piece of text handed to the tokenizer, with the separator the cut
    leaves out after it (a line feed on the tab path, nothing otherwise). *)
Definition piece : Type := jsstring * jsstring.

(** A piece with its separator, as it stands in the text read. *)
Definition glue (p : piece) : jsstring := fst p ++ snd p.

(** [fullText]: the remainder followed by the text of the next window. *)
Definition fullTextOf (chunkSize : N) (file : blob) (st : exportState)
    : jsstring :=
  remainder st ++ chunkText chunkSize file (offset st).

(** The next window is the last one. *)
Definition isFinal (chunkSize : N) (file : blob) (st : exportState) : bool :=
  negb (offset st + chunkSize <? sizeN file).

(** The pieces that a chunk loop hands to its tokenizer, in order, from
    the window at [off] on, [rem] being the remainder of the windows
    before; the fuel bounds the number of windows as in [whileChunks]. *)
Fixpoint cutsFrom (cut : bool -> jsstring -> piece * jsstring)
    (chunkSize : N) (file : blob) (fuel : nat) (off : N) (rem : jsstring)
    : list piece :=
  match fuel with
  | O => []
  | S fuel' =>
      if off <? sizeN file then
        let c := cut (negb (off + chunkSize <? sizeN file))
                     (rem ++ chunkText chunkSize file off) in
        fst c :: cutsFrom cut chunkSize file fuel' (off + chunkSize) (snd c)
      else []
  end.

(** The texts of the windows from the one at [off] on, as the loop reads
    them. *)
Fixpoint textsFrom (chunkSize : N) (file : blob) (fuel : nat) (off : N)
    : list jsstring :=
  match fuel with
  | O => []
  | S fuel' =>
      if off <? sizeN file
      then chunkText chunkSize file off
           :: textsFrom chunkSize file fuel' (off + chunkSize)
      else []
  end.

(** The texts of the windows of a run over the file. *)
Definition windowTexts (chunkSize : N) (file : blob) : list jsstring :=
  textsFrom chunkSize file (length file) 0.

(** The output parts of the pieces; [first] tells that the first row of
    the first piece is the header. *)
Definition emitFrom (emit : bool -> jsstring -> list jsstring) (first : bool)
    (pieces : list piece) : list jsstring :=
  match pieces with
  | [] => []
  | p :: ps => emit first (fst p) ++ flat_map (fun q => emit false (fst q)) ps
  end.

Definition emitAll (emit : bool -> jsstring -> list jsstring)
    (pieces : list piece) : list jsstring :=
  emitFrom emit true pieces.

(** The cut of the comma path: the piece to tokenize, no separator, and
    the remainder. *)
Definition csvCut (final : bool) (full : jsstring) : piece * jsstring :=
  if final then ((full, []), [])
  else ((firstn (findSafeBreak full) full, []), skipn (findSafeBreak full) full).

(** The output parts of a piece on the comma path. *)
Definition csvEmit (headers : list jsstring) (delimiter : char)
    (selectedColumns : list nat) (first : bool) (text : jsstring)
    : list jsstring :=
  emitCSVRows headers selectedColumns first (parseCSVData text delimiter).

(** The cut of the tab path: the piece up to the last line feed, that line
    feed, and the remainder. *)
Definition tsvCut (final : bool) (full : jsstring) : piece * jsstring :=
  if final then ((full, []), [])
  else match lastIndexOf LF full with
       | Some k => ((firstn k full, [LF]), skipn (k + 1) full)
       | None => ((full, []), [])
       end.

(** The output parts of a piece on the tab path. *)
Definition tsvEmit (headers : list jsstring) (selectedColumns : list nat)
    (first : bool) (text : jsstring) : list jsstring :=
  emitTSVLines headers selectedColumns first (splitLines text).

(** The first output part: the selected header names, encoded. *)
Definition headerLine (headers : list jsstring) (selectedColumns : list nat)
    : jsstring :=
  formatCSVLine (selectedHeaders headers selectedColumns) ++ [LF].

(** The output parts of a piece on the path the delimiter selects. *)
Definition pathEmit (headers : list jsstring) (delimiter : char)
    (selectedColumns : list nat) : bool -> jsstring -> list jsstring :=
  if delimiter =? TAB then tsvEmit headers selectedColumns
  else csvEmit headers delimiter selectedColumns.

(** The cut of the path the delimiter selects. *)
Definition pathCut (delimiter : char) : bool -> jsstring -> piece * jsstring :=
  if delimiter =? TAB then tsvCut else csvCut.

(** The pieces that the export of a file in windows of [chunkSize] bytes
    hands to the tokenizer of its path. *)
Definition piecesOf (delimiter : char) (chunkSize : N) (file : blob)
    : list piece :=
  cutsFrom (pathCut delimiter) chunkSize file (length file) 0 [].

(** A cut after which the tokenizer of the path starts afresh.  On the
    comma path the piece ends with a row terminator and holds an even
    number of double quotes; on the tab path the piece was cut at a line
    feed and does not end with a carriage return. *)
Definition safeCut (delimiter : char) (p : piece) : bool :=
  if delimiter =? TAB
  then match snd p with
       | [c] => (c =? LF) && negb (endsWithCR (fst p))
       | _ => false
       end
  else endsWithTerminator (fst p) && Nat.even (quotesIn (fst p)).

(** When there are several pieces, the first one holds a row: the header
    row, which the export leaves out of the first piece. *)
Definition firstPieceHasRow (delimiter : char) (pieces : list piece) : bool :=
  match pieces with
  | p :: _ :: _ =>
      (delimiter =? TAB)
      || negb (length (parseCSVData (fst p) delimiter) =? 0)%nat
  | _ => true
  end.

(** Every cut of the run is safe: all the pieces but the last. *)
Definition safeCuts (delimiter : char) (chunkSize : N) (file : blob) : bool :=
  forallb (safeCut delimiter) (removelast (piecesOf delimiter chunkSize file))
  && firstPieceHasRow delimiter (piecesOf delimiter chunkSize file).

(** The windows decode alone: the texts of the windows, each decoded on
    its own, make up the text of the file. *)
Definition windowsDecodeAlone (chunkSize : N) (file : blob) : Prop :=
  concat (windowTexts chunkSize file) = removeBOM (decodeUTF8 file).

(** A piece of the comma path cut where a row ends outside quotes. *)
Definition rowsClosed (p : piece) : Prop :=
  snd p = [] /\ endsWithTerminator (fst p) = true
  /\ Nat.odd (quotesIn (fst p)) = false.

(** A piece of the tab path cut at a line feed that ends a line. *)
Definition cutAtLF (p : piece) : Prop :=
  snd p = [LF] /\ endsWithCR (fst p) = false.

(** A file whose quoted field holds a line feed. *)
Definition fileQuotedLF : blob :=
  str "h" ++ [LF; DQUOTE] ++ str "a" ++ [LF] ++ str "b" ++ [DQUOTE; LF].

(** A file whose one data row is longer than a window of one byte. *)
Definition fileLongRow : blob := str "h" ++ [LF] ++ str "xy" ++ [LF].

(** A file that begins with a blank line. *)
Definition fileBlankFirst : blob := [LF] ++ str "h" ++ [LF] ++ str "a" ++ [LF].

(** A file whose lines end with a carriage return and a line feed. *)
Definition fileCRLF : blob :=
  str "h" ++ [CR; LF] ++ str "a" ++ [CR; LF] ++ str "b" ++ [CR; LF].

(** A file whose data row is the letter e with an acute accent, the two
    bytes C3 A9. *)
Definition fileAccent : blob := str "h" ++ [LF; 195; 169].

(** A file of three rows: the second has a letter of two bytes and a
    quoted field that holds a line feed and that a window of nine bytes
    cuts in two. *)
Definition fileThreeRows : blob :=
  str "h,k" ++ [LF; 195; 169] ++ str "," ++ [DQUOTE] ++ str "b" ++ [LF]
  ++ str "c" ++ [DQUOTE; LF] ++ str "d,e" ++ [LF].

(** The names pushed after the header of the file. *)
Definition extraHeaders (delimiter : char) (parsedLines : list (list jsstring))
    : list jsstring :=
  let numColumns := length (hd [] parsedLines) in
  placeholders (if delimiter =? TAB then extraName else columnName)
    numColumns (maxColumnsOf numColumns parsedLines).

(** A file with twenty rows of one field and then a row of two fields. *)
Definition fileLateWide : blob :=
  str "a" ++ [LF] ++ concat (repeat (str "r" ++ [LF]) 20) ++ str "x,y" ++ [LF].

(** A file whose first two data rows both have one field more than the
    header. *)
Definition fileTwoWide : blob :=
  str "a,b" ++ [LF] ++ str "p,q,r" ++ [LF] ++ str "s,t,u" ++ [LF].

(** The string the encoder writes for a value: [null] and [undefined] are
    written as the empty string. *)
Definition valueOf (value : option jsstring) : jsstring :=
  match value with
  | Some v => v
  | None => []
  end.

(** A value that the tokenizer does not cut: at most [MAX_FIELD_SIZE]
    characters. *)
Definition fitsField (v : jsstring) : Prop := sizeN v <= MAX_FIELD_SIZE.

(** The bound on the fields of a row, of the rows found and of the row and
    field being read. *)
Definition fieldsFit (row : list jsstring) : Prop := Forall fitsField row.

(** The bytes of a requested slice. *)
Definition sliceBytes (file : blob) (bounds : N * N) : blob :=
  sliceN (fst bounds) (snd bounds) file.

(** The byte order mark of UTF-8, the bytes EF BB BF. *)
Definition bomBytes : blob := [239; 187; 191].

(** A file with a quoted field that holds the delimiter, a quote and a
    space at its end. *)
Definition fileQuotedFields : blob :=
  str "a;b" ++ [LF; DQUOTE] ++ str "x;" ++ [DQUOTE; DQUOTE; SPACE; DQUOTE]
  ++ str ";y" ++ [LF].

(** The output parts of the complete lines of the older variant: every line
    is trimmed, a blank line gives nothing, and the first line is skipped
    when [skipFirst] holds. *)
Definition legacyRows (delimiter : char) (selectedColumns : list nat)
    (skipFirst : bool) (completeLines : list jsstring) : list jsstring :=
  flat_map (fun line => Legacy.emitLine delimiter selectedColumns (trim line))
           (fromRow skipFirst completeLines).

(** The output part of the text after the last line feed. *)
Definition legacyTail (delimiter : char) (selectedColumns : list nat)
    (partialLine : jsstring) : list jsstring :=
  if nonEmpty (trim partialLine)
  then [Legacy.formatCSVLine
          (map Some (selectValues selectedColumns
                       (Legacy.parseCSVLine partialLine delimiter)))
        ++ [LF]]
  else [].

(** The slices the older variant requests after [k] windows. *)
Definition legacySlices (chunkSize : N) (k : nat) : list (N * N) :=
  map (fun j => (N.of_nat j * chunkSize, N.of_nat j * chunkSize + chunkSize))
      (seq 0 k).

(** The text read by a run: the texts of the requested slices, each
    decoded on its own, put end to end. *)
Definition textRead (currentFile : blob) (requested : list (N * N))
    : jsstring :=
  concat (map (fun bounds => decodeUTF8 (sliceBytes currentFile bounds))
            requested).

(** What the variables of the loop hold after some windows. *)
Definition legacyInvariant (headers : list jsstring) (delimiter : char)
    (selectedColumns : list nat) (chunkSize : N) (currentFile : blob)
    (st : exportState) : Prop :=
  let read := textRead currentFile (requested st) in
  let first := decodeUTF8 (sliceN 0 chunkSize currentFile) in
  remainder st = last (splitOn LF read) []
  /\ (exists k : nat,
        offset st = N.of_nat k * chunkSize
        /\ requested st = legacySlices chunkSize k)
  /\ if isFirstChunk st
     then offset st = 0
          /\ requested st = []
          /\ outputParts st
             = [Legacy.formatCSVLine (selectedHeaders headers selectedColumns)
                ++ [LF]]
     else (exists rest, read = first ++ rest)
          /\ outputParts st
             = (Legacy.formatCSVLine (selectedHeaders headers selectedColumns)
                ++ [LF])
               :: legacyRows delimiter selectedColumns (includes LF first)
                    (removelast (splitOn LF read)).

(** A file of two lines, the second without a line feed at its end. *)
Definition fileTwoLines : blob := str "h" ++ [LF] ++ str "xy".

(** * Properties *)

#[local] Arguments N.eqb : simpl never.

(** ** Strings *)

Lemma includes_In (c : char) (s : jsstring) : includes c s = true <-> In c s.
Proof.
  unfold includes. rewrite existsb_exists. split.
  - intros (x & Hx & E). apply N.eqb_eq in E. now subst.
  - intros H. exists c. split; [assumption | apply N.eqb_refl].
Qed.

Lemma startsWith_spec (c : char) (s : jsstring) :
  startsWith c s = true <-> exists t, s = c :: t.
Proof.
  destruct s as [|x t]; simpl.
  - split; [discriminate | intros (t & H); discriminate].
  - rewrite N.eqb_eq. split.
    + intros ->. now exists t.
    + intros (t' & H). now inversion H.
Qed.

Lemma endsWith_spec (c : char) (s : jsstring) :
  endsWith c s = true <-> exists t, s = t ++ [c].
Proof.
  unfold endsWith. rewrite startsWith_spec. split.
  - intros (t & H). exists (rev t).
    rewrite <- (rev_involutive s), H. reflexivity.
  - intros (t & ->). exists (rev t). now rewrite rev_app_distr.
Qed.

Lemma doubleQuotes_length (s : jsstring) :
  (length s <= length (doubleQuotes s))%nat.
Proof.
  induction s as [|c s IH]; simpl; [lia|].
  destruct (c =? DQUOTE); simpl; lia.
Qed.

Lemma wrapped_neq (v : jsstring) : DQUOTE :: doubleQuotes v ++ [DQUOTE] <> v.
Proof.
  intros H. apply (f_equal (@length char)) in H.
  simpl in H. rewrite length_app in H. simpl in H.
  pose proof (doubleQuotes_length v). lia.
Qed.

(** ** Trimming *)

Lemma trimEnd_head (c : char) (t : jsstring) :
  isWhiteSpace c = false -> exists t', trimEnd (c :: t) = c :: t'.
Proof.
  intros H. simpl. destruct (trimEnd t) as [|x t'].
  - rewrite H. now exists [].
  - now exists (x :: t').
Qed.

Lemma trimEnd_idem (s : jsstring) : trimEnd (trimEnd s) = trimEnd s.
Proof.
  induction s as [|c t IH]; [reflexivity|].
  simpl. destruct (trimEnd t) as [|x t'] eqn:E.
  - destruct (isWhiteSpace c) eqn:W; [reflexivity|]. simpl. now rewrite W.
  - change (trimEnd (c :: x :: t')) with
      (match trimEnd (x :: t') with
       | [] => if isWhiteSpace c then [] else [c]
       | t'' => c :: t''
       end).
    rewrite IH. reflexivity.
Qed.

Lemma trimStart_head (s : jsstring) :
  match trimStart s with
  | [] => True
  | c :: _ => isWhiteSpace c = false
  end.
Proof.
  induction s as [|c t IH]; simpl; [exact I|].
  destruct (isWhiteSpace c) eqn:W; [exact IH | exact W].
Qed.

Lemma trimStart_fix (s : jsstring) :
  match s with [] => True | c :: _ => isWhiteSpace c = false end ->
  trimStart s = s.
Proof.
  destruct s as [|c t]; simpl; [reflexivity|]. now intros ->.
Qed.

Lemma trim_head (s : jsstring) :
  match trim s with
  | [] => True
  | c :: _ => isWhiteSpace c = false
  end.
Proof.
  unfold trim. pose proof (trimStart_head s) as H.
  destruct (trimStart s) as [|c t]; [exact I|].
  destruct (trimEnd_head c t H) as (t' & ->). exact H.
Qed.

Lemma trim_idem (s : jsstring) : trim (trim s) = trim s.
Proof.
  unfold trim at 1. rewrite (trimStart_fix (trim s) (trim_head s)).
  unfold trim. apply trimEnd_idem.
Qed.

Lemma trimEnd_last (s : jsstring) :
  match rev (trimEnd s) with
  | [] => True
  | c :: _ => isWhiteSpace c = false
  end.
Proof.
  induction s as [|c t IH]; simpl; [exact I|].
  destruct (trimEnd t) as [|x t'].
  - destruct (isWhiteSpace c) eqn:W; simpl; [exact I | exact W].
  - change (rev (c :: x :: t')) with (rev (x :: t') ++ [c]).
    destruct (rev (x :: t')) as [|y r] eqn:E.
    + apply (f_equal (@length char)) in E. rewrite length_rev in E. discriminate.
    + exact IH.
Qed.

Lemma trim_last (s : jsstring) :
  match rev (trim s) with
  | [] => True
  | c :: _ => isWhiteSpace c = false
  end.
Proof. apply trimEnd_last. Qed.

(** ** The encoder and the line parser *)

Lemma formatCSVLine_single (v : option jsstring) :
  formatCSVLine [v] = formatCSVField v.
Proof. reflexivity. Qed.

Lemma legacy_formatCSVLine_single (v : option jsstring) :
  Legacy.formatCSVLine [v] = Legacy.formatCSVField v.
Proof. reflexivity. Qed.

Section LineParser.

Variable delimiter : char.

(** Inside quotes the parser reads an escaped text back, up to the closing
    quote. *)
Lemma parseCSVLine_loop_quoted (v : jsstring) :
  forall result current,
    parseCSVLine_loop delimiter (doubleQuotes v ++ [DQUOTE]) result current true
    = result ++ [trim (current ++ v)].
Proof.
  induction v as [|c v IH]; intros result current.
  - simpl. now rewrite app_nil_r.
  - simpl. destruct (c =? DQUOTE) eqn:E.
    + apply N.eqb_eq in E. subst c. simpl.
      rewrite IH, <- app_assoc. reflexivity.
    + simpl. rewrite E. simpl.
      rewrite andb_false_r, IH, <- app_assoc. reflexivity.
Qed.

Lemma legacy_parseCSVLine_loop_quoted (v : jsstring) :
  forall result current,
    Legacy.parseCSVLine_loop delimiter (doubleQuotes v ++ [DQUOTE]) result current true
    = result ++ [current ++ v].
Proof.
  induction v as [|c v IH]; intros result current.
  - simpl. now rewrite app_nil_r.
  - simpl. destruct (c =? DQUOTE) eqn:E.
    + apply N.eqb_eq in E. subst c. simpl.
      rewrite IH, <- app_assoc. reflexivity.
    + simpl. rewrite E. simpl.
      rewrite andb_false_r, IH, <- app_assoc. reflexivity.
Qed.

(** Outside quotes a text free of quotes and delimiters is one field. *)
Lemma parseCSVLine_loop_plain (v : jsstring) :
  includes DQUOTE v = false -> includes delimiter v = false ->
  forall result current,
    parseCSVLine_loop delimiter v result current false
    = result ++ [trim (current ++ v)].
Proof.
  induction v as [|c v IH]; intros HQ HD result current.
  - simpl. now rewrite app_nil_r.
  - simpl in HQ, HD. apply orb_false_elim in HQ as [HQ1 HQ2].
    apply orb_false_elim in HD as [HD1 HD2].
    simpl. rewrite (N.eqb_sym c DQUOTE), HQ1, (N.eqb_sym c delimiter), HD1.
    simpl. rewrite IH, <- app_assoc by assumption. reflexivity.
Qed.

Lemma legacy_parseCSVLine_loop_plain (v : jsstring) :
  includes DQUOTE v = false -> includes delimiter v = false ->
  forall result current,
    Legacy.parseCSVLine_loop delimiter v result current false
    = result ++ [current ++ v].
Proof.
  induction v as [|c v IH]; intros HQ HD result current.
  - simpl. now rewrite app_nil_r.
  - simpl in HQ, HD. apply orb_false_elim in HQ as [HQ1 HQ2].
    apply orb_false_elim in HD as [HD1 HD2].
    simpl. rewrite (N.eqb_sym c DQUOTE), HQ1, (N.eqb_sym c delimiter), HD1.
    simpl. rewrite IH, <- app_assoc by assumption. reflexivity.
Qed.

(** The main parser is the older one followed by a trim of every field. *)
Lemma parseCSVLine_loop_trims (line : jsstring) :
  forall result current inQuotes,
    parseCSVLine_loop delimiter line (map trim result) current inQuotes
    = map trim (Legacy.parseCSVLine_loop delimiter line result current inQuotes).
Proof.
  induction line as [line IH] using (well_founded_induction
    (Wf_nat.well_founded_ltof _ (@length char))).
  intros result current inQuotes.
  destruct line as [|c rest]; simpl.
  - now rewrite map_app.
  - assert (Hrest : forall r cur q,
      parseCSVLine_loop delimiter rest (map trim r) cur q
      = map trim (Legacy.parseCSVLine_loop delimiter rest r cur q)).
    { intros. apply IH. unfold Wf_nat.ltof. simpl. lia. }
    destruct (c =? DQUOTE).
    + destruct inQuotes; [|apply Hrest].
      destruct rest as [|c' rest']; [apply Hrest|].
      destruct (c' =? DQUOTE); [|apply Hrest].
      apply IH. unfold Wf_nat.ltof. simpl. lia.
    + destruct ((c =? delimiter) && negb inQuotes); [|apply Hrest].
      rewrite <- Hrest, map_app. reflexivity.
Qed.

End LineParser.

Lemma parseCSVLine_wrapped (v : jsstring) :
  parseCSVLine (wrapped v) COMMA = [trim v].
Proof.
  unfold parseCSVLine, wrapped. simpl.
  apply (parseCSVLine_loop_quoted COMMA v [] []).
Qed.

Lemma legacy_parseCSVLine_wrapped (v : jsstring) :
  Legacy.parseCSVLine (wrapped v) COMMA = [v].
Proof.
  unfold Legacy.parseCSVLine, wrapped. simpl.
  apply (legacy_parseCSVLine_loop_quoted COMMA v [] []).
Qed.

(** C3, as stated, fails: a value with a leading tab has leading whitespace,
    yet the encoder of the main variant emits it verbatim and unwrapped. *)
Lemma formatCSVField_leading_tab_verbatim :
  needsQuotes_spec (TAB :: str "x") = true
  /\ formatCSVField (Some (TAB :: str "x")) = TAB :: str "x"
  /\ formatCSVField (Some (TAB :: str "x")) <> wrapped (TAB :: str "x").
Proof.
  repeat split; try reflexivity. discriminate.
Qed.

(** C3, amended: the encoder of the main variant wraps a value in double
    quotes, with the inner quotes doubled, if and only if the value contains
    a comma, a double quote, a line feed or a carriage return, or begins or
    ends with a space character (U+0020); otherwise it emits the value
    verbatim.  Other whitespace at the edges, such as a tab, does not trigger
    quoting.  The older variant wraps if and only if the value contains a
    comma, a double quote or a line feed. *)
Theorem formatCSVField_wraps_iff (v : jsstring) :
  let cond := In COMMA v \/ In DQUOTE v \/ In LF v \/ In CR v
              \/ (exists t, v = SPACE :: t) \/ (exists t, v = t ++ [SPACE]) in
  let legacy := In COMMA v \/ In DQUOTE v \/ In LF v in
  (formatCSVField (Some v) = wrapped v <-> cond)
  /\ (formatCSVField (Some v) = v <-> ~ cond)
  /\ (Legacy.formatCSVField (Some v) = wrapped v <-> legacy)
  /\ (Legacy.formatCSVField (Some v) = v <-> ~ legacy).
Proof.
  intros cond legacy.
  assert (Hc : includes COMMA v || includes DQUOTE v || includes LF v
               || includes CR v || startsWith SPACE v || endsWith SPACE v = true
               <-> cond).
  { unfold cond. rewrite !orb_true_iff, !includes_In, startsWith_spec, endsWith_spec.
    tauto. }
  assert (Hl : includes COMMA v || includes DQUOTE v || includes LF v = true
               <-> legacy).
  { unfold legacy. rewrite !orb_true_iff, !includes_In. tauto. }
  pose proof (wrapped_neq v) as Hneq. unfold wrapped, formatCSVField, Legacy.formatCSVField.
  cbv zeta.
  destruct (includes COMMA v || includes DQUOTE v || includes LF v
            || includes CR v || startsWith SPACE v || endsWith SPACE v);
  destruct (includes COMMA v || includes DQUOTE v || includes LF v);
  repeat split; intros; try tauto; try congruence;
  try (exfalso; apply Hneq; congruence);
  try (apply Hc; assumption); try (apply Hl; assumption);
  try (apply Hc in H; discriminate); try (apply Hl in H; discriminate);
  try (intros K; apply Hc in K; discriminate);
  try (intros K; apply Hl in K; discriminate);
  try (exfalso; apply H; apply Hc; reflexivity);
  try (exfalso; apply H; apply Hl; reflexivity).
Qed.

(** C4, as stated, fails: a field with a leading space is wrapped by the
    encoder, and the line parser of the main variant returns it without the
    space. *)
Lemma parseCSVLine_formatCSVLine_not_identity :
  formatCSVLine [Some (str " a")] = [DQUOTE] ++ str " a" ++ [DQUOTE]
  /\ parseCSVLine (formatCSVLine [Some (str " a")]) COMMA = [str "a"]
  /\ parseCSVLine (formatCSVLine [Some (str " a")]) COMMA <> [str " a"].
Proof.
  repeat split; try reflexivity. discriminate.
Qed.

(** C4, amended: for every field string, decoding the encoder's output with
    the quote-aware line parser of the main variant recovers the original
    string with its leading and trailing whitespace removed, hence the exact
    original string if and only if the string has no leading or trailing
    whitespace; the line parser of the older variant recovers the exact
    original string in every case; and the example field [heSaid] encodes to
    [heSaidEncoded], the field wrapped in quotes with its two inner quotes
    doubled. *)
Theorem parseCSVLine_formatCSVLine (v : jsstring) :
  parseCSVLine (formatCSVLine [Some v]) COMMA = [trim v]
  /\ (parseCSVLine (formatCSVLine [Some v]) COMMA = [v] <-> trim v = v)
  /\ Legacy.parseCSVLine (formatCSVLine [Some v]) COMMA = [v]
  /\ Legacy.parseCSVLine (Legacy.formatCSVLine [Some v]) COMMA = [v]
  /\ formatCSVLine [Some heSaid] = heSaidEncoded
  /\ parseCSVLine heSaidEncoded COMMA = [heSaid].
Proof.
  assert (H1 : parseCSVLine (formatCSVLine [Some v]) COMMA = [trim v]).
  { rewrite formatCSVLine_single. unfold formatCSVField.
    destruct (includes COMMA v) eqn:EC; [apply parseCSVLine_wrapped|].
    destruct (includes DQUOTE v) eqn:EQ; [apply parseCSVLine_wrapped|].
    cbv zeta. simpl orb.
    destruct (includes LF v || includes CR v || startsWith SPACE v || endsWith SPACE v);
      [apply parseCSVLine_wrapped|].
    apply (parseCSVLine_loop_plain COMMA v EQ EC [] []). }
  assert (H2 : Legacy.parseCSVLine (formatCSVLine [Some v]) COMMA = [v]).
  { rewrite formatCSVLine_single. unfold formatCSVField.
    destruct (includes COMMA v) eqn:EC; [apply legacy_parseCSVLine_wrapped|].
    destruct (includes DQUOTE v) eqn:EQ; [apply legacy_parseCSVLine_wrapped|].
    cbv zeta. simpl orb.
    destruct (includes LF v || includes CR v || startsWith SPACE v || endsWith SPACE v);
      [apply legacy_parseCSVLine_wrapped|].
    apply (legacy_parseCSVLine_loop_plain COMMA v EQ EC [] []). }
  assert (H3 : Legacy.parseCSVLine (Legacy.formatCSVLine [Some v]) COMMA = [v]).
  { rewrite legacy_formatCSVLine_single. unfold Legacy.formatCSVField.
    destruct (includes COMMA v) eqn:EC; [apply legacy_parseCSVLine_wrapped|].
    destruct (includes DQUOTE v) eqn:EQ; [apply legacy_parseCSVLine_wrapped|].
    simpl orb.
    destruct (includes LF v); [apply legacy_parseCSVLine_wrapped|].
    apply (legacy_parseCSVLine_loop_plain COMMA v EQ EC [] []). }
  repeat split; try assumption; try reflexivity.
  - rewrite H1. congruence.
  - rewrite H1. congruence.
Qed.

(** C10: the line parser of the main variant returns every field with its
    leading and trailing whitespace removed: its result is the result of the
    older, non-trimming parser with every field trimmed, quote-wrapped fields
    included, so that no returned field begins or ends with whitespace; a
    quoted field with spaces at both ends comes back without them. *)
Theorem parseCSVLine_trims_every_field (line : jsstring) (delimiter : char) :
  parseCSVLine line delimiter = map trim (Legacy.parseCSVLine line delimiter)
  /\ Forall (fun field => trim field = field /\ hasEdgeWhitespace field = false)
       (parseCSVLine line delimiter)
  /\ parseCSVLine ([DQUOTE] ++ str "  a b  " ++ [DQUOTE] ++ str ",c") COMMA
     = [str "a b"; str "c"].
Proof.
  assert (H : parseCSVLine line delimiter
              = map trim (Legacy.parseCSVLine line delimiter)).
  { apply (parseCSVLine_loop_trims delimiter line [] [] false). }
  split; [exact H|]. split; [|reflexivity].
  rewrite H. apply Forall_forall. intros f Hf.
  apply in_map_iff in Hf as (raw & <- & _).
  split; [apply trim_idem|].
  unfold hasEdgeWhitespace.
  pose proof (trim_head raw) as Hh. pose proof (trim_last raw) as Hl.
  destruct (trim raw) as [|c t] eqn:E; [reflexivity|].
  rewrite Hh. simpl orb. change (isWhiteSpace (last (c :: t) c) = false).
  destruct (rev (c :: t)) as [|y r] eqn:R.
  - apply (f_equal (@length char)) in R. rewrite length_rev in R. discriminate.
  - assert (L : last (c :: t) c = y).
    { rewrite <- (rev_involutive (c :: t)), R. simpl. apply last_last. }
    rewrite L. exact Hl.
Qed.

(** ** Rounding to the nearest double *)

Section Rounding.

Local Open Scope Q_scope.

Lemma two_pos (e : Z) : 0 < 2 ^ e.
Proof. apply Qpower_0_lt. reflexivity. Qed.

Lemma two_plus (a b : Z) : 2 ^ (a + b) == 2 ^ a * 2 ^ b.
Proof. apply Qpower_plus. discriminate. Qed.

Lemma two_le (a b : Z) : (a <= b)%Z -> 2 ^ a <= 2 ^ b.
Proof. intros H. apply Qpower_le_compat_l; [exact H | discriminate]. Qed.

Lemma two_lt_inv (a b : Z) : 2 ^ a < 2 ^ b -> (a < b)%Z.
Proof. intros H. apply (Qpower_lt_compat_l_inv 2); [exact H | reflexivity]. Qed.

Lemma log2_bounds (p : positive) :
  2 ^ Z.log2 (Zpos p) <= inject_Z (Zpos p)
  /\ inject_Z (Zpos p) < 2 ^ (Z.log2 (Zpos p) + 1).
Proof.
  pose proof (Z.log2_spec (Zpos p) eq_refl) as (H1 & H2).
  pose proof (Z.log2_nonneg (Zpos p)) as H0.
  split.
  - rewrite <- (Zpower_Qpower 2) by exact H0. now rewrite <- Zle_Qle.
  - rewrite <- (Zpower_Qpower 2) by lia. rewrite <- Zlt_Qlt.
    replace (Z.log2 (Zpos p) + 1)%Z with (Z.succ (Z.log2 (Zpos p))) by lia.
    exact H2.
Qed.

Lemma floorLog2_spec (n d : positive) :
  2 ^ floorLog2 n d <= Zpos n # d /\ Zpos n # d < 2 ^ (floorLog2 n d + 1).
Proof.
  unfold floorLog2. cbv zeta.
  set (k := (Z.log2 (Zpos n) - Z.log2 (Zpos d))%Z).
  destruct (log2_bounds n) as (Hn1 & Hn2).
  destruct (log2_bounds d) as (Hd1 & Hd2).
  assert (Hq : Zpos n # d == inject_Z (Zpos n) / inject_Z (Zpos d)).
  { rewrite Qmake_Qdiv. reflexivity. }
  assert (Hdpos : 0 < inject_Z (Zpos d)) by reflexivity.
  assert (Hup : Zpos n # d < 2 ^ (k + 1)).
  { rewrite Hq. apply Qlt_shift_div_r; [exact Hdpos|].
    apply Qlt_le_trans with (2 ^ (Z.log2 (Zpos n) + 1)); [exact Hn2|].
    apply Qle_trans with (2 ^ (k + 1) * 2 ^ Z.log2 (Zpos d)).
    - rewrite <- two_plus. apply two_le. unfold k. lia.
    - apply Qmult_le_l; [apply two_pos | exact Hd1]. }
  assert (Hlow : 2 ^ (k - 1) <= Zpos n # d).
  { rewrite Hq. apply Qle_shift_div_l; [exact Hdpos|].
    apply Qle_trans with (2 ^ (k - 1) * 2 ^ (Z.log2 (Zpos d) + 1)).
    - apply Qmult_le_l; [apply two_pos | apply Qlt_le_weak, Hd2].
    - rewrite <- two_plus. apply Qle_trans with (2 ^ Z.log2 (Zpos n)); [|exact Hn1].
      apply two_le. unfold k. lia. }
  destruct (Qle_bool (2 ^ k) (Zpos n # d)) eqn:E.
  - apply Qle_bool_iff in E. split; assumption.
  - split; [exact Hlow|]. replace (k - 1 + 1)%Z with k by lia.
    apply Qnot_le_lt. intros H. apply Qle_bool_iff in H. congruence.
Qed.

Lemma floorLog2_mono (n1 d1 n2 d2 : positive) :
  Zpos n1 # d1 <= Zpos n2 # d2 -> (floorLog2 n1 d1 <= floorLog2 n2 d2)%Z.
Proof.
  intros H.
  destruct (floorLog2_spec n1 d1) as (L1 & _).
  destruct (floorLog2_spec n2 d2) as (_ & U2).
  assert (Hlt : 2 ^ floorLog2 n1 d1 < 2 ^ (floorLog2 n2 d2 + 1)).
  { eapply Qle_lt_trans; [exact L1|]. eapply Qle_lt_trans; [exact H | exact U2]. }
  apply two_lt_inv in Hlt. lia.
Qed.

(** rounding to the nearest integer *)
Lemma roundHalfEven_bounds (q : Q) :
  (Qfloor q <= roundHalfEven q <= Qfloor q + 1)%Z.
Proof.
  unfold roundHalfEven. cbv zeta.
  destruct (q - inject_Z (Qfloor q) ?= 1 # 2); [destruct (Z.even (Qfloor q))| |]; lia.
Qed.

Lemma Qcompare_cases (x y : Q) :
  match x ?= y with
  | Lt => x < y
  | Eq => x == y
  | Gt => y < x
  end.
Proof.
  destruct (x ?= y) eqn:C.
  - now apply Qeq_alt.
  - now apply Qlt_alt.
  - now apply Qgt_alt.
Qed.

Lemma roundHalfEven_mono (p q : Q) :
  p <= q -> (roundHalfEven p <= roundHalfEven q)%Z.
Proof.
  intros H. pose proof (Qfloor_resp_le p q H) as Hf.
  pose proof (roundHalfEven_bounds p) as Bp.
  pose proof (roundHalfEven_bounds q) as Bq.
  destruct (Z.eq_dec (Qfloor p) (Qfloor q)) as [E | N]; [|lia].
  unfold roundHalfEven. cbv zeta. rewrite E.
  pose proof (Qcompare_cases (p - inject_Z (Qfloor q)) (1 # 2)) as Cp.
  pose proof (Qcompare_cases (q - inject_Z (Qfloor q)) (1 # 2)) as Cq.
  destruct (p - inject_Z (Qfloor q) ?= 1 # 2);
    destruct (q - inject_Z (Qfloor q) ?= 1 # 2);
    try (destruct (Z.even (Qfloor q))); try lia; exfalso; lra.
Qed.

Lemma roundHalfEven_Z (z : Z) : roundHalfEven (inject_Z z) = z.
Proof.
  unfold roundHalfEven. cbv zeta. rewrite Qfloor_Z.
  assert (H : (inject_Z z - inject_Z z ?= 1 # 2) = Lt).
  { rewrite <- Qlt_alt. lra. }
  now rewrite H.
Qed.

Lemma roundHalfEven_ge (z : Z) (q : Q) :
  inject_Z z <= q -> (z <= roundHalfEven q)%Z.
Proof.
  intros H. rewrite <- (roundHalfEven_Z z). now apply roundHalfEven_mono.
Qed.

Lemma roundHalfEven_le (z : Z) (q : Q) :
  q <= inject_Z z -> (roundHalfEven q <= z)%Z.
Proof.
  intros H. rewrite <- (roundHalfEven_Z z). now apply roundHalfEven_mono.
Qed.

Lemma roundPositive_eq (n d : positive) :
  let e := Z.max (floorLog2 n d - 52) (-1074) in
  roundPositive n d == inject_Z (roundHalfEven ((Zpos n # d) / 2 ^ e)) * 2 ^ e.
Proof. cbv zeta. unfold roundPositive. cbv zeta. apply Qred_correct. Qed.

Lemma roundPositive_nonneg (n d : positive) : 0 <= roundPositive n d.
Proof.
  rewrite roundPositive_eq. cbv zeta.
  apply Qmult_le_0_compat; [|apply Qlt_le_weak, two_pos].
  change 0 with (inject_Z 0). rewrite <- Zle_Qle.
  apply roundHalfEven_ge. simpl.
  apply Qle_shift_div_l; [apply two_pos|]. rewrite Qmult_0_l. discriminate.
Qed.

Lemma roundPositive_mono (n1 d1 n2 d2 : positive) :
  Zpos n1 # d1 <= Zpos n2 # d2 -> roundPositive n1 d1 <= roundPositive n2 d2.
Proof.
  intros H. rewrite !roundPositive_eq. cbv zeta.
  pose proof (floorLog2_mono n1 d1 n2 d2 H) as Hfl.
  set (e1 := Z.max (floorLog2 n1 d1 - 52) (-1074)).
  set (e2 := Z.max (floorLog2 n2 d2 - 52) (-1074)).
  destruct (Z.eq_dec e1 e2) as [E | N].
  - rewrite E. apply Qmult_le_compat_r; [|apply Qlt_le_weak, two_pos].
    rewrite <- Zle_Qle. apply roundHalfEven_mono.
    apply Qmult_le_compat_r; [exact H|].
    apply Qlt_le_weak, Qinv_lt_0_compat, two_pos.
  - assert (He : (e1 + 1 <= e2)%Z) by (unfold e1, e2 in *; lia).
    assert (He2 : e2 = (floorLog2 n2 d2 - 52)%Z) by (unfold e1, e2 in *; lia).
    destruct (floorLog2_spec n1 d1) as (_ & U1).
    destruct (floorLog2_spec n2 d2) as (L2 & _).
    assert (Hm1 : (roundHalfEven ((Zpos n1 # d1) / 2 ^ e1) <= 2 ^ 53)%Z).
    { apply roundHalfEven_le. apply Qle_shift_div_r; [apply two_pos|].
      rewrite (Zpower_Qpower 2) by lia. rewrite <- two_plus.
      apply Qlt_le_weak. eapply Qlt_le_trans; [exact U1|].
      apply two_le. unfold e1. lia. }
    assert (Hm2 : (2 ^ 52 <= roundHalfEven ((Zpos n2 # d2) / 2 ^ e2))%Z).
    { apply roundHalfEven_ge. apply Qle_shift_div_l; [apply two_pos|].
      rewrite (Zpower_Qpower 2) by lia. rewrite <- two_plus.
      eapply Qle_trans; [|exact L2]. apply two_le. lia. }
    apply Qle_trans with (inject_Z (2 ^ 53) * 2 ^ e1).
    { apply Qmult_le_compat_r; [|apply Qlt_le_weak, two_pos].
      now rewrite <- Zle_Qle. }
    apply Qle_trans with (inject_Z (2 ^ 52) * 2 ^ e2).
    { rewrite !(Zpower_Qpower 2) by lia. rewrite <- !two_plus.
      apply two_le. lia. }
    apply Qmult_le_compat_r; [|apply Qlt_le_weak, two_pos].
    now rewrite <- Zle_Qle.
Qed.

Lemma roundDouble_nonneg (q : Q) : 0 <= q -> 0 <= roundDouble q.
Proof.
  intros H. unfold roundDouble. destruct q as [[|n|n] d]; simpl.
  - apply Qle_refl.
  - apply roundPositive_nonneg.
  - exfalso. unfold Qle in H. simpl in H. lia.
Qed.

Lemma roundDouble_mono (p q : Q) : p <= q -> roundDouble p <= roundDouble q.
Proof.
  intros H. unfold roundDouble.
  destruct p as [[|n1|n1] d1], q as [[|n2|n2] d2]; simpl.
  - apply Qle_refl.
  - apply roundPositive_nonneg.
  - exfalso. unfold Qle in H. simpl in H. lia.
  - exfalso. unfold Qle in H. simpl in H. lia.
  - now apply roundPositive_mono.
  - exfalso. unfold Qle in H. simpl in H. lia.
  - pose proof (roundPositive_nonneg n1 d1). lra.
  - pose proof (roundPositive_nonneg n1 d1).
    pose proof (roundPositive_nonneg n2 d2). lra.
  - apply Qopp_le_compat. apply roundPositive_mono.
    unfold Qle in *. simpl in *. lia.
Qed.

Lemma roundDouble_1 : roundDouble 1 == 1.
Proof. reflexivity. Qed.

Lemma roundDouble_100 : roundDouble 100 == 100.
Proof. reflexivity. Qed.

End Rounding.

(** On the quotients and products met below, the rounding agrees with the
    division and the multiplication of the Standard Library's
    specification of binary64. *)
Lemma roundDouble_binary64_samples :
  rationalOf (SpecFloat.SFdiv 53 1024 (binary64Of 115) (binary64Of 200))
  = Some (roundDouble (115 # 200))
  /\ rationalOf (SpecFloat.SFmul 53 1024
                   (SpecFloat.SFdiv 53 1024 (binary64Of 115) (binary64Of 200))
                   (binary64Of 100))
     = Some (roundDouble (roundDouble (115 # 200) * 100))
  /\ rationalOf (SpecFloat.SFdiv 53 1024 (binary64Of 2) (binary64Of 3))
     = Some (roundDouble (2 # 3))
  /\ rationalOf (SpecFloat.SFdiv 53 1024 (binary64Of 1) (binary64Of 10))
     = Some (roundDouble (1 # 10))
  /\ rationalOf (SpecFloat.SFdiv 53 1024 (binary64Of 199) (binary64Of 200))
     = Some (roundDouble (199 # 200)).
Proof. repeat split; vm_compute; reflexivity. Qed.

(** ** The text of ASCII bytes *)

Lemma utf8Decoder_ascii (bytes : blob) :
  isASCII bytes -> utf8Decoder utf8Start bytes = bytes.
Proof.
  induction 1 as [|b bytes Hb _ IH]; [reflexivity|].
  assert (E : (b <=? 127) = true) by (apply N.leb_le; lia).
  cbn [utf8Decoder]. unfold utf8Step. cbn [utf8Start bytesLeft].
  unfold utf8Lead. rewrite E. cbn [fst snd app]. now rewrite IH.
Qed.

Lemma decodeUTF8_ascii (bytes : blob) :
  isASCII bytes -> decodeUTF8 bytes = bytes.
Proof.
  intros H. unfold decodeUTF8.
  destruct bytes as [|b1 [|b2 [|b3 rest]]]; try now apply utf8Decoder_ascii.
  assert (E : (b1 =? 239) = false).
  { apply N.eqb_neq. inversion H; subst. lia. }
  rewrite E. now apply utf8Decoder_ascii.
Qed.

Lemma isASCII_firstn (n : nat) (bytes : blob) :
  isASCII bytes -> isASCII (firstn n bytes).
Proof.
  intros H. apply Forall_forall. intros b Hb.
  rewrite <- (firstn_skipn n bytes) in H. apply Forall_app in H.
  destruct H as [H _]. rewrite Forall_forall in H. now apply H.
Qed.

Lemma isASCII_skipn (n : nat) (bytes : blob) :
  isASCII bytes -> isASCII (skipn n bytes).
Proof.
  intros H. rewrite <- (firstn_skipn n bytes) in H. apply Forall_app in H.
  now destruct H as [_ H].
Qed.

(** ** The delimiter detector *)

Lemma Qsquare_nonneg (x : Q) : (0 <= x * x)%Q.
Proof.
  destruct x as [n d]. unfold Qle, Qmult. simpl. nia.
Qed.

Lemma sumSquares_nonneg (avg : Q) (counts : list Z) :
  forall acc : Q, (0 <= acc)%Q ->
    (0 <= fold_left
            (fun sum count =>
               roundDouble
                 (sum + roundDouble (roundDouble (inject_Z count - avg)
                                     * roundDouble (inject_Z count - avg))))
            counts acc)%Q.
Proof.
  induction counts as [|c counts IH]; intros acc Hacc; simpl; [exact Hacc|].
  apply IH. apply roundDouble_nonneg.
  pose proof (roundDouble_nonneg _
                (Qsquare_nonneg (roundDouble (inject_Z c - avg)))) as Hs.
  lra.
Qed.

Lemma Qdiv_nonneg (a b : Q) : (0 <= a)%Q -> (0 <= b)%Q -> (0 <= a / b)%Q.
Proof.
  intros Ha Hb. unfold Qdiv. apply Qmult_le_0_compat; [exact Ha|].
  apply Qinv_le_0_compat. exact Hb.
Qed.

Lemma variance_nonneg (counts : list Z) : (0 <= variance counts)%Q.
Proof.
  unfold variance. apply roundDouble_nonneg, Qdiv_nonneg.
  - apply sumSquares_nonneg. lra.
  - change 0%Q with (inject_Z 0). rewrite <- Zle_Qle. lia.
Qed.

Lemma consistency_nonneg (counts : list Z) : (0 <= consistency counts)%Q.
Proof.
  unfold consistency. destruct (Qlt_le_dec 0 (avgCount counts)) as [H|H]; [|lra].
  apply roundDouble_nonneg. apply Qmult_le_0_compat; [|lra].
  apply roundDouble_nonneg. apply Qdiv_nonneg; [lra|].
  apply roundDouble_nonneg. pose proof (variance_nonneg counts). lra.
Qed.

Section Scoring.

Variable lines : list jsstring.

Lemma scoreStep_eq (best : char * Q) (delim : char) :
  scoreStep lines best delim
  = if firstCountIsZero lines delim then best
    else if Qlt_le_dec (snd best) (score lines delim)
         then (delim, score lines delim) else best.
Proof.
  unfold scoreStep, firstCountIsZero, score.
  destruct (delimiterCounts lines delim); reflexivity.
Qed.

Lemma scored_step (seen : list char) (best : char * Q) (delim : char) :
  scored lines seen best ->
  scored lines (seen ++ [delim]) (scoreStep lines best delim).
Proof.
  intros H. rewrite scoreStep_eq.
  destruct (firstCountIsZero lines delim) eqn:Z.
  - destruct H as [[-> Hall] | (pre & post & -> & Hb & Hs & Hpre & Hpost)].
    + left. split; [reflexivity|]. apply Forall_app. split; [exact Hall|].
      constructor; [exact Z | constructor].
    + right. exists pre, (post ++ [delim]). rewrite <- app_assoc. simpl.
      repeat split; try assumption.
      apply Forall_app. split; [exact Hpost|]. constructor; [now left | constructor].
  - destruct (Qlt_le_dec (snd best) (score lines delim)) as [Hlt | Hle].
    + right. exists seen, []. simpl. repeat split; try assumption; [|constructor].
      destruct H as [[-> Hall] | (pre & post & -> & Hb & Hs & Hpre & Hpost)].
      * eapply Forall_impl; [|exact Hall]. intros d Hd. now left.
      * rewrite Hs in Hlt. apply Forall_app. split.
        -- eapply Forall_impl; [|exact Hpre]. intros d [Hd|Hd]; [now left|right]. lra.
        -- constructor; [now right|].
           eapply Forall_impl; [|exact Hpost]. intros d [Hd|Hd]; [now left|right]. lra.
    + destruct H as [[-> Hall] | (pre & post & -> & Hb & Hs & Hpre & Hpost)].
      * exfalso. simpl in Hle. pose proof (consistency_nonneg (delimiterCounts lines delim)).
        unfold score in Hle. lra.
      * right. exists pre, (post ++ [delim]). rewrite <- app_assoc. simpl.
        repeat split; try assumption.
        apply Forall_app. split; [exact Hpost|].
        constructor; [right; rewrite <- Hs; exact Hle | constructor].
Qed.

Lemma scored_fold (todo : list char) :
  forall seen best, scored lines seen best ->
    scored lines (seen ++ todo) (fold_left (scoreStep lines) todo best).
Proof.
  induction todo as [|d todo IH]; intros seen best H; simpl.
  - now rewrite app_nil_r.
  - replace (seen ++ d :: todo) with ((seen ++ [d]) ++ todo)
      by (rewrite <- app_assoc; reflexivity).
    apply IH, scored_step, H.
Qed.

End Scoring.

Lemma detectDelimiter_scored (text : jsstring) :
  exists bestScore,
    scored (sampleLines text) candidates (detectDelimiter text, bestScore).
Proof.
  unfold detectDelimiter.
  destruct (sampleLines text) as [|l ls] eqn:E.
  - exists (-1)%Q. left. split; [reflexivity|].
    repeat constructor.
  - pose proof (scored_fold (l :: ls) candidates [] (COMMA, (-1)%Q)) as H.
    simpl app in H.
    destruct (fold_left (scoreStep (l :: ls)) candidates (COMMA, (-1)%Q)) as [b s].
    exists s. apply H. left. split; [reflexivity | constructor].
Qed.

(** C5, as stated, fails: on the second sample the semicolon is the only
    candidate with a score above zero, so it has the highest score, yet the
    detector returns the comma. *)
Lemma detectDelimiter_not_highest_score :
  let lines := sampleLines sampleLateSemicolon in
  delimiterCounts lines SEMICOLON = [0; 1; 1]%Z
  /\ (0 < score lines SEMICOLON)%Q
  /\ (score lines COMMA == 0)%Q
  /\ (score lines TAB == 0)%Q
  /\ (score lines PIPE == 0)%Q
  /\ detectDelimiter sampleLateSemicolon = COMMA.
Proof.
  vm_compute. repeat split; reflexivity.
Qed.

(** C5, amended: the detector only scores the candidates whose count on the
    first sampled line is not zero.  When every candidate has a zero count
    there (or no line is sampled) it returns the comma; otherwise it returns,
    among the scored candidates taken in the order comma, tab, pipe,
    semicolon, the first one with the highest score, the score being the
    mean count weighted down by the variance as the page computes it, in
    double precision.  For the sample with 0, 2, 5 commas and 3, 3, 3 tabs
    it returns the tab; for the sample with 1, 0, 1 commas and 2, 0, 4
    tabs, whose scores are equal in exact arithmetic, the rounded score of
    the tab is the larger and it returns the tab. *)
Theorem detectDelimiter_first_best_scored (text : jsstring) :
  let lines := sampleLines text in
  let best := detectDelimiter text in
  ((Forall (fun d => firstCountIsZero lines d = true) candidates
    /\ best = COMMA)
   \/ (exists pre post,
         candidates = pre ++ best :: post
         /\ firstCountIsZero lines best = false
         /\ Forall (fun d => firstCountIsZero lines d = true
                             \/ (score lines d < score lines best)%Q) pre
         /\ Forall (fun d => firstCountIsZero lines d = true
                             \/ (score lines d <= score lines best)%Q) post))
  /\ map (delimiterCounts (sampleLines sampleTabs)) [COMMA; TAB]
     = [[0; 2; 5]; [3; 3; 3]]%Z
  /\ detectDelimiter sampleTabs = TAB
  /\ map (delimiterCounts (sampleLines sampleTie)) [COMMA; TAB]
     = [[1; 0; 1]; [2; 0; 4]]%Z
  /\ score (sampleLines sampleTie) COMMA = (1228254443828317 # 2251799813685248)%Q
  /\ score (sampleLines sampleTie) TAB = (4913017775313269 # 9007199254740992)%Q
  /\ (score (sampleLines sampleTie) COMMA < score (sampleLines sampleTie) TAB)%Q
  /\ detectDelimiter sampleTie = TAB.
Proof.
  intros lines best.
  split; [|repeat split; vm_compute; reflexivity].
  destruct (detectDelimiter_scored text) as (s & [[E Hall] | H]).
  - left. split; [exact Hall|]. now inversion E.
  - right. destruct H as (pre & post & Hc & Hb & _ & Hpre & Hpost).
    exists pre, post. simpl in *. repeat split; assumption.
Qed.

(** C9, as stated, fails for the comma: its count on the first sampled line
    is zero, and the detector returns it, as the default. *)
Lemma detectDelimiter_returns_zero_count_comma :
  In COMMA candidates
  /\ delimiterCounts (sampleLines sampleLateComma) COMMA = [0; 1; 1]%Z
  /\ firstCountIsZero (sampleLines sampleLateComma) COMMA = true
  /\ detectDelimiter sampleLateComma = COMMA.
Proof.
  repeat split; try reflexivity. now left.
Qed.

(** C9, amended: a candidate whose count on the first sampled non-blank line
    is zero is never picked by the scoring loop, however often it occurs on
    the later lines; the detector returns such a candidate only when it is
    the comma and every candidate has a zero count on that line, the comma
    being the default. *)
Theorem detectDelimiter_skips_zero_first_count (text : jsstring) (delim : char) :
  In delim candidates ->
  firstCountIsZero (sampleLines text) delim = true ->
  detectDelimiter text <> delim
  \/ (delim = COMMA
      /\ Forall (fun d => firstCountIsZero (sampleLines text) d = true) candidates).
Proof.
  intros Hin Hz.
  destruct (N.eq_dec (detectDelimiter text) delim) as [E | NE]; [|now left].
  right. destruct (detectDelimiter_scored text) as (s & [[Eb Hall] | H]).
  - split; [|exact Hall]. inversion Eb. congruence.
  - destruct H as (pre & post & _ & Hb & _). simpl in Hb. congruence.
Qed.

Lemma detectDelimiter_skips_zero_first_count_witness :
  In TAB candidates
  /\ firstCountIsZero (sampleLines sampleLateTab) TAB = true
  /\ delimiterCounts (sampleLines sampleLateTab) TAB = [0; 2; 2]%Z
  /\ detectDelimiter sampleLateTab = SEMICOLON
  /\ (detectDelimiter sampleLateTab <> TAB
      \/ (TAB = COMMA
          /\ Forall (fun d => firstCountIsZero (sampleLines sampleLateTab) d = true)
               candidates)).
Proof.
  split; [right; left; reflexivity|].
  split; [reflexivity|]. split; [reflexivity|]. split; [reflexivity|].
  apply (detectDelimiter_skips_zero_first_count sampleLateTab TAB).
  - right; left; reflexivity.
  - reflexivity.
Defined.

(** ** The chunk loop *)

Section ChunkLoop.

Variables (size chunkSize : N) (body : exportState -> exportState).
Hypothesis chunk_positive : 0 < chunkSize.
Hypothesis body_offset : forall st, offset (body st) = offset st + chunkSize.

(** The loop stops as soon as the fuel covers the windows that are left. *)
Lemma whileChunks_terminates (fuel : nat) :
  forall st, size <= offset st + N.of_nat fuel * chunkSize ->
    exists st', whileChunks fuel size body st = Some st'.
Proof.
  induction fuel as [|fuel IH]; intros st H; simpl.
  - destruct (offset st <? size) eqn:E; [|now exists st].
    apply N.ltb_lt in E. lia.
  - destruct (offset st <? size) eqn:E; [|now exists st].
    apply IH. rewrite body_offset. lia.
Qed.

(** An invariant of the loop body holds, with the exit condition, when the
    loop ends. *)
Lemma whileChunks_invariant (P : exportState -> Prop) :
  (forall st, P st -> offset st < size -> P (body st)) ->
  forall fuel st st', P st -> whileChunks fuel size body st = Some st' ->
    P st' /\ size <= offset st'.
Proof.
  intros Hstep. induction fuel as [|fuel IH]; intros st st' HP H; simpl in H.
  - destruct (offset st <? size) eqn:E; [discriminate|].
    apply N.ltb_ge in E. inversion H; subst. now split.
  - destruct (offset st <? size) eqn:E.
    + apply N.ltb_lt in E. apply (IH (body st)); [now apply Hstep | exact H].
    + apply N.ltb_ge in E. inversion H; subst. now split.
Qed.

End ChunkLoop.

Lemma sizeN_fuel (file : blob) (chunkSize : N) :
  0 < chunkSize -> sizeN file <= 0 + N.of_nat (length file) * chunkSize.
Proof.
  change (sizeN file) with (N.of_nat (length file)).
  generalize (length file). intros n H. rewrite N.add_0_l.
  rewrite <- (N.mul_1_r (N.of_nat n)) at 1.
  apply N.mul_le_mono_l. lia.
Qed.

(** ** Progress values *)

Lemma progressOf_percentOf (off size : N) :
  progressOf off size = N.min 100 (Z.to_N (mathRound (percentOf off size))).
Proof. reflexivity. Qed.

Lemma progressOf_le_100 (off size : N) : progressOf off size <= 100.
Proof. unfold progressOf. lia. Qed.

Lemma percentOf_mono (a b size : N) :
  a <= b -> (percentOf a size <= percentOf b size)%Q.
Proof.
  intros H. unfold percentOf.
  apply roundDouble_mono. apply Qmult_le_compat_r; [|discriminate].
  apply roundDouble_mono. apply Qmult_le_compat_r.
  - rewrite <- Zle_Qle. lia.
  - apply Qinv_le_0_compat. change 0%Q with (inject_Z 0).
    rewrite <- Zle_Qle. lia.
Qed.

Lemma mathRound_mono (x y : Q) :
  (x <= y)%Q -> (mathRound x <= mathRound y)%Z.
Proof.
  intros H. unfold mathRound. apply Qfloor_resp_le. lra.
Qed.

Lemma progressOf_mono (a b size : N) :
  a <= b -> progressOf a size <= progressOf b size.
Proof.
  intros H. rewrite !progressOf_percentOf.
  apply N.min_le_compat_l.
  pose proof (mathRound_mono _ _ (percentOf_mono a b size H)). lia.
Qed.

Lemma Qfloor_ge (z : Z) (x : Q) : (z <= Qfloor x)%Z <-> (inject_Z z <= x)%Q.
Proof.
  split; intros H.
  - apply Qle_trans with (inject_Z (Qfloor x)); [|apply Qfloor_le].
    now rewrite <- Zle_Qle.
  - rewrite <- (Qfloor_Z z). now apply Qfloor_resp_le.
Qed.

(** The value 100 is shown when the percentage in double precision is 99.5
    or more. *)
Lemma progressOf_100 (off size : N) :
  progressOf off size = 100 <-> (199 # 2 <= percentOf off size)%Q.
Proof.
  rewrite progressOf_percentOf. unfold mathRound.
  assert (H : (100 <= Qfloor (percentOf off size + (1 # 2)))%Z
              <-> (199 # 2 <= percentOf off size)%Q).
  { rewrite Qfloor_ge. change (inject_Z 100) with (100 # 1)%Q.
    split; intros H; lra. }
  rewrite <- H. lia.
Qed.

Lemma percentOf_end (off size : N) :
  0 < size -> size <= off -> (100 <= percentOf off size)%Q.
Proof.
  intros Hs H. unfold percentOf.
  rewrite <- roundDouble_100 at 1. apply roundDouble_mono.
  setoid_replace 100%Q with (1 * 100)%Q at 1 by ring.
  apply Qmult_le_compat_r; [|discriminate].
  rewrite <- roundDouble_1 at 1. apply roundDouble_mono.
  apply Qle_shift_div_l.
  - change 0%Q with (inject_Z 0). rewrite <- Zlt_Qlt. lia.
  - rewrite Qmult_1_l, <- Zle_Qle. lia.
Qed.

Lemma progressOf_end (off size : N) :
  0 < size -> size <= off -> progressOf off size = 100.
Proof.
  intros Hs H. apply progressOf_100.
  pose proof (percentOf_end off size Hs H). lra.
Qed.

Lemma progressOf_start (size : N) : 0 < size -> progressOf 0 size = 0.
Proof. intros _. reflexivity. Qed.

Section Pacing.

Variables (size chunkSize : N) (body : exportState -> exportState).
Hypothesis size_positive : 0 < size.
Hypothesis body_offset : forall st, offset (body st) = offset st + chunkSize.
Hypothesis body_progress : forall st,
  progress (body st) = progress st ++ [progressOf (offset st + chunkSize) size].
Hypothesis body_requested : forall st,
  requested (body st)
  = requested st ++ [(offset st, N.min (offset st + chunkSize) size)].

Lemma paced_step (st : exportState) :
  paced size chunkSize st -> offset st < size -> paced size chunkSize (body st).
Proof.
  intros (n & Ho & Hp & Hr & Hn) Hlt. exists (S n).
  rewrite body_offset, body_progress, body_requested, Ho, Hp, Hr.
  repeat split.
  - lia.
  - rewrite (seq_S (S n) 0), map_app. f_equal. cbn [map Nat.add]. do 2 f_equal. lia.
  - rewrite (seq_S n 0), map_app. reflexivity.
  - right. replace (S n - 1)%nat with n by lia. rewrite <- Ho. exact Hlt.
Qed.

Lemma paced_start (st : exportState) :
  offset st = 0 -> progress st = [0] -> requested st = [] ->
  paced size chunkSize st.
Proof.
  intros Ho Hp Hr. exists 0%nat. rewrite Ho, Hp, Hr. simpl.
  rewrite progressOf_start by exact size_positive. repeat split. now left.
Qed.

End Pacing.

Lemma nth_map_seq {A : Type} (f : nat -> A) (n k : nat) (d : A) :
  (k < n)%nat -> nth k (map f (seq 0 n)) d = f k.
Proof.
  intros H. rewrite (nth_indep _ d (f 0%nat))
    by (rewrite length_map, length_seq; lia).
  rewrite (map_nth f), seq_nth by lia. reflexivity.
Qed.

Lemma paced_facts (size chunkSize : N) (st : exportState) :
  0 < size -> paced size chunkSize st -> size <= offset st ->
  length (progress st) = S (length (requested st))
  /\ (forall k, (k <= length (requested st))%nat ->
        nth k (progress st) 0 = progressOf (N.of_nat k * chunkSize) size)
  /\ (forall k, (k < length (requested st))%nat ->
        nth k (requested st) (0, 0)
        = (N.of_nat k * chunkSize,
           N.min (N.of_nat k * chunkSize + chunkSize) size)
        /\ N.of_nat k * chunkSize < size)
  /\ size <= N.of_nat (length (requested st)) * chunkSize
  /\ last (progress st) 0 = 100.
Proof.
  intros Hs (n & Ho & Hp & Hr & Hn) Hend.
  assert (Ln : length (requested st) = n).
  { rewrite Hr, length_map, length_seq. reflexivity. }
  rewrite Ln. repeat split.
  - rewrite Hp, length_map, length_seq. reflexivity.
  - intros k Hk. rewrite Hp, nth_map_seq by lia. reflexivity.
  - rewrite Hr, nth_map_seq by lia. reflexivity.
  - destruct Hn as [-> | Hn]; [lia|]. nia.
  - lia.
  - rewrite Hp, seq_S, map_app. simpl map at 2. rewrite last_last.
    apply progressOf_end; [exact Hs|]. simpl Nat.add. lia.
Qed.

Lemma exportFile_unfold headers delimiter sel chunkSize (file : blob) :
  sel <> [] ->
  exportFile headers delimiter sel chunkSize file
  = match whileChunks (length file) (sizeN file)
            (exportBody headers delimiter sel chunkSize file)
            (exportStart headers sel) with
    | None => None
    | Some st =>
        Some {| errorMessage := None;
                shown := progress st;
                slices := requested st;
                download := Some (outputParts st
                                  ++ exportTail headers delimiter sel (remainder st)) |}
    end.
Proof.
  intros Hsel. unfold exportFile, exportBody, exportTail, exportStart.
  destruct sel as [|i sel]; [congruence|].
  destruct (delimiter =? TAB); reflexivity.
Qed.

Lemma exportBody_offset headers delimiter sel chunkSize (file : blob) st :
  offset (exportBody headers delimiter sel chunkSize file st)
  = offset st + chunkSize.
Proof. unfold exportBody. destruct (delimiter =? TAB); reflexivity. Qed.

Lemma exportBody_progress headers delimiter sel chunkSize (file : blob) st :
  progress (exportBody headers delimiter sel chunkSize file st)
  = progress st ++ [progressOf (offset st + chunkSize) (sizeN file)].
Proof. unfold exportBody. destruct (delimiter =? TAB); reflexivity. Qed.

Lemma exportBody_requested headers delimiter sel chunkSize (file : blob) st :
  requested (exportBody headers delimiter sel chunkSize file st)
  = requested st ++ [(offset st, N.min (offset st + chunkSize) (sizeN file))].
Proof. unfold exportBody. destruct (delimiter =? TAB); reflexivity. Qed.

Lemma exportFile_runs headers delimiter sel chunkSize (file : blob) :
  sel <> [] -> 0 < chunkSize ->
  exists st,
    whileChunks (length file) (sizeN file)
      (exportBody headers delimiter sel chunkSize file) (exportStart headers sel)
    = Some st
    /\ exportFile headers delimiter sel chunkSize file
       = Some {| errorMessage := None;
                 shown := progress st;
                 slices := requested st;
                 download := Some (outputParts st
                                   ++ exportTail headers delimiter sel (remainder st)) |}.
Proof.
  intros Hsel Hc.
  destruct (whileChunks_terminates (sizeN file) chunkSize
              (exportBody headers delimiter sel chunkSize file) Hc
              (exportBody_offset headers delimiter sel chunkSize file)
              (length file) (exportStart headers sel)
              (sizeN_fuel file chunkSize Hc)) as (st & Hst).
  exists st. split; [exact Hst|].
  rewrite exportFile_unfold by exact Hsel. now rewrite Hst.
Qed.

(** C8, as stated, fails: with the window size of the page, a file of
    696 MiB shows 100 after 139 windows, when the last window has not been
    read; and a run over a file of 200 bytes in windows of one byte
    shows 100 before it reads the last window. *)
Lemma progress_100_before_end_of_input :
  (139 * CHUNK_SIZE < 696 * 1024 * 1024
   /\ 696 * 1024 * 1024 <= MAX_FILE_SIZE
   /\ progressOf (139 * CHUNK_SIZE) (696 * 1024 * 1024) = 100)
  /\ exists o,
       exportFile [str "h"] COMMA [0%nat] 1 file200 = Some o
       /\ length (slices o) = 200%nat
       /\ nth 199 (shown o) 0 = 100
       /\ nth 199 (slices o) (0, 0) = (199, 200).
Proof.
  split; [vm_compute; repeat split; congruence|].
  eexists. split; [vm_compute; reflexivity|].
  vm_compute. repeat split.
Qed.

(** C8, amended: for every export of a non-empty file with a non-empty
    selection, sizes being below 2^53, the values shown are whole
    percentages between 0 and 100, the first is 0, the value shown after
    [k] windows is what [Math.min(100, Math.round((offset / size) * 100))]
    gives in double precision for the offset of [k] windows, the values
    never decrease, and the value shown after the last window is 100.  The
    value 100 is shown after [k] windows exactly when the percentage in
    double precision is 99.5 or more, which can be before the end of the
    input. *)
Theorem exportFile_progress headers delimiter sel chunkSize (file : blob) :
  sel <> [] -> 0 < chunkSize -> file <> [] ->
  sizeN file + chunkSize <= 2 ^ 53 ->
  exists o,
    exportFile headers delimiter sel chunkSize file = Some o
    /\ length (shown o) = S (length (slices o))
    /\ sizeN file <= N.of_nat (length (slices o)) * chunkSize
    /\ (forall k, (k < length (slices o))%nat ->
          nth k (slices o) (0, 0)
          = (N.of_nat k * chunkSize,
             N.min (N.of_nat k * chunkSize + chunkSize) (sizeN file))
          /\ N.of_nat k * chunkSize < sizeN file)
    /\ (forall k, (k <= length (slices o))%nat ->
          nth k (shown o) 0 = progressOf (N.of_nat k * chunkSize) (sizeN file))
    /\ Forall (fun p => p <= 100) (shown o)
    /\ nth 0 (shown o) 0 = 0
    /\ (forall i j, (i <= j <= length (slices o))%nat ->
          nth i (shown o) 0 <= nth j (shown o) 0)
    /\ last (shown o) 0 = 100
    /\ (forall k, (k <= length (slices o))%nat ->
          (nth k (shown o) 0 = 100
           <-> (199 # 2 <= percentOf (N.of_nat k * chunkSize) (sizeN file))%Q)).
Proof.
  intros Hsel Hc Hfile _.
  assert (Hs : 0 < sizeN file).
  { unfold sizeN. destruct file; [congruence | simpl; lia]. }
  destruct (exportFile_runs headers delimiter sel chunkSize file Hsel Hc)
    as (st & Hrun & Hexp).
  assert (Hinv : paced (sizeN file) chunkSize st /\ sizeN file <= offset st).
  { eapply whileChunks_invariant; [| |exact Hrun].
    - intros s Hps Hlt. apply paced_step; try assumption.
      + apply exportBody_offset.
      + apply exportBody_progress.
      + apply exportBody_requested.
    - apply paced_start; [exact Hs | reflexivity ..]. }
  destruct Hinv as (Hp & Hend).
  destruct (paced_facts _ _ _ Hs Hp Hend) as (F1 & F2 & F3 & F4 & F5).
  eexists. split; [exact Hexp|]. simpl.
  split; [exact F1|]. split; [exact F4|]. split; [exact F3|]. split; [exact F2|].
  split.
  { destruct Hp as (n & _ & Hpr & _). rewrite Hpr.
    apply Forall_forall. intros p Hin. apply in_map_iff in Hin as (k & <- & _).
    apply progressOf_le_100. }
  split.
  { rewrite F2 by lia. now apply progressOf_start. }
  split.
  { intros i j Hij. rewrite !F2 by lia. apply progressOf_mono. nia. }
  split; [exact F5|].
  intros k Hk. rewrite F2 by exact Hk. apply progressOf_100.
Qed.

Lemma exportFile_progress_witness :
  [0%nat] <> [] /\ 0 < 115 /\ file200 <> [] /\ sizeN file200 + 115 <= 2 ^ 53
  /\ (exists o,
        exportFile [str "h"] COMMA [0%nat] 115 file200 = Some o
        /\ shown o = [0; 57; 100])
  /\ progressOf (23 * CHUNK_SIZE) (200 * 1024 * 1024) = 57.
Proof.
  split; [discriminate|]. split; [reflexivity|]. split; [discriminate|].
  split; [vm_compute; discriminate|].
  split; [|vm_compute; reflexivity].
  destruct (exportFile_progress [str "h"] COMMA [0%nat] 115 file200)
    as (o & Ho & _);
    [discriminate | reflexivity | discriminate | vm_compute; discriminate |].
  exists o. split; [exact Ho|].
  vm_compute in Ho. inversion Ho. reflexivity.
Defined.

(** ** Slices *)

Lemma dropN_0 {A : Type} (l : list A) : dropN 0 l = l.
Proof. destruct l; reflexivity. Qed.

Lemma takeN_all {A : Type} (l : list A) :
  forall n, N.of_nat (length l) <= n -> takeN n l = l.
Proof.
  induction l as [|x l IH]; intros n H; [reflexivity|].
  simpl. destruct (n =? 0) eqn:E.
  - apply N.eqb_eq in E. simpl length in H. lia.
  - f_equal. apply IH. simpl length in H. lia.
Qed.

Lemma sliceN_whole (file : blob) (chunkSize : N) :
  sizeN file <= chunkSize ->
  sliceN 0 (N.min (0 + chunkSize) (sizeN file)) file = file.
Proof.
  intros H. unfold sliceN. rewrite dropN_0. apply takeN_all.
  change (N.of_nat (length file)) with (sizeN file). lia.
Qed.

(** ** The rows of the tokenizer *)

Lemma pushLine_nonempty (lines : list (list jsstring)) (row : list jsstring) :
  Forall (fun r => r <> []) lines ->
  Forall (fun r => r <> []) (pushLine lines row).
Proof.
  intros H. unfold pushLine. destruct (keepLine row) eqn:K; [|exact H].
  apply Forall_app. split; [exact H|]. constructor; [|constructor].
  destruct row; [discriminate | discriminate].
Qed.

Lemma parseCSVData_loop_nonempty (delimiter : char) (isTSV : bool)
    (text : jsstring) :
  forall lines currentLine currentField inQuotes,
    Forall (fun r => r <> []) lines ->
    Forall (fun r => r <> [])
      (parseCSVData_loop delimiter isTSV text lines currentLine currentField inQuotes).
Proof.
  induction text as [text IH] using (well_founded_induction
    (Wf_nat.well_founded_ltof _ (@length char))).
  intros lines cl cf q H.
  destruct text as [|c rest]; simpl.
  - apply pushLine_nonempty, H.
  - assert (Hrest : forall l cl' cf' q', Forall (fun r => r <> []) l ->
      Forall (fun r => r <> [])
        (parseCSVData_loop delimiter isTSV rest l cl' cf' q')).
    { intros. apply IH; [unfold Wf_nat.ltof; simpl; lia | assumption]. }
    assert (Hrest' : forall c' rest', rest = c' :: rest' ->
      forall l cl' cf' q', Forall (fun r => r <> []) l ->
      Forall (fun r => r <> [])
        (parseCSVData_loop delimiter isTSV rest' l cl' cf' q')).
    { intros c' rest' -> l cl' cf' q' Hl.
      apply IH; [unfold Wf_nat.ltof; simpl; lia | assumption]. }
    destruct (negb isTSV && (c =? DQUOTE)).
    { destruct q; [|now apply Hrest].
      destruct rest as [|c' rest'] eqn:R; [now apply Hrest|].
      destruct (c' =? DQUOTE); [|now apply Hrest].
      now apply (Hrest' c' rest' eq_refl). }
    destruct (isTSV && (c =? DQUOTE)).
    { destruct (negb (nonEmpty cf) && negb (nextIs delimiter rest)
                && negb (nextIs LF rest) && negb (nextIs CR rest));
        [now apply Hrest|].
      destruct (q && (nextIs delimiter rest || nextIs LF rest
                      || nextIs CR rest || negb (nonEmpty rest)));
        [now apply Hrest|].
      destruct q; [|now apply Hrest].
      destruct rest as [|c' rest'] eqn:R; [now apply Hrest|].
      destruct (c' =? DQUOTE); [|now apply Hrest].
      now apply (Hrest' c' rest' eq_refl). }
    destruct ((c =? delimiter) && negb q); [now apply Hrest|].
    destruct (((c =? LF) || (c =? CR)) && negb q); [|now apply Hrest].
    destruct rest as [|c' rest'] eqn:R.
    + apply Hrest. now apply pushLine_nonempty.
    + destruct ((c =? CR) && (c' =? LF)).
      * apply (Hrest' c' rest' eq_refl). now apply pushLine_nonempty.
      * apply Hrest. now apply pushLine_nonempty.
Qed.

Lemma parseCSVData_nonempty (text : jsstring) (delimiter : char) :
  Forall (fun r => r <> []) (parseCSVData text delimiter).
Proof. apply parseCSVData_loop_nonempty. constructor. Qed.

(** ** Rows of the export *)

Lemma emitCSVRow_cases headers sel values :
  values <> [] ->
  emitCSVRow headers sel values
  = if someSelected headers sel values then [projectRow headers sel values] else [].
Proof.
  intros H. unfold emitCSVRow, someSelected, projectRow.
  destruct values; [congruence | reflexivity].
Qed.

Lemma emitCSVRows_filter headers sel rows :
  Forall (fun r => r <> []) rows ->
  flat_map (emitCSVRow headers sel) rows
  = map (projectRow headers sel) (filter (someSelected headers sel) rows).
Proof.
  induction 1 as [|r rows Hr _ IH]; [reflexivity|].
  simpl. rewrite emitCSVRow_cases, IH by exact Hr.
  destruct (someSelected headers sel r); reflexivity.
Qed.

Lemma padValuesTSV_padValues headers values :
  padValuesTSV headers values = padValues headers values.
Proof.
  unfold padValuesTSV, padValues. apply map_ext_in. intros j Hj.
  apply in_seq in Hj.
  destruct (j <? Nat.min (length values) (length headers))%nat eqn:E;
    [reflexivity|].
  apply Nat.ltb_ge in E. symmetry. apply nth_overflow. lia.
Qed.

Lemma emitTSVLines_filter headers sel lines :
  flat_map (emitTSVLine headers sel) lines
  = map (projectLine headers sel) (filter nonEmpty lines).
Proof.
  induction lines as [|l lines IH]; [reflexivity|].
  simpl. rewrite IH. unfold emitTSVLine, projectLine, projectRow.
  rewrite padValuesTSV_padValues. destruct (nonEmpty l); reflexivity.
Qed.

Lemma tl_Forall {A : Type} (P : A -> Prop) (l : list A) :
  Forall P l -> Forall P (tl l).
Proof. intros H. destruct H; [constructor | assumption]. Qed.

(** One window that holds the whole file. *)
Lemma whileChunks_single headers delimiter sel chunkSize (file : blob) :
  file <> [] -> sizeN file <= chunkSize ->
  whileChunks (length file) (sizeN file)
    (exportBody headers delimiter sel chunkSize file) (exportStart headers sel)
  = Some (exportBody headers delimiter sel chunkSize file (exportStart headers sel)).
Proof.
  intros Hf Hs. destruct file as [|c file]; [congruence|].
  assert (Hpos : 0 < sizeN (c :: file)) by (unfold sizeN; simpl; lia).
  cbn [length whileChunks].
  change (offset (exportStart headers sel)) with 0.
  destruct (0 <? sizeN (c :: file)) eqn:E; [|apply N.ltb_ge in E; lia].
  destruct (length file); simpl;
    rewrite exportBody_offset; change (offset (exportStart headers sel)) with 0;
    destruct (0 + chunkSize <? sizeN (c :: file)) eqn:E2;
    try reflexivity; apply N.ltb_lt in E2; lia.
Qed.

Lemma exportBody_single_csv headers delimiter sel chunkSize (file : blob) :
  (delimiter =? TAB) = false -> sizeN file <= chunkSize ->
  let st := exportBody headers delimiter sel chunkSize file (exportStart headers sel) in
  outputParts st
  = (formatCSVLine (selectedHeaders headers sel) ++ [LF])
    :: emitCSVRows headers sel true (parseCSVData (removeBOM (decodeUTF8 file)) delimiter)
  /\ remainder st = [].
Proof.
  intros Hd Hs. unfold exportBody. rewrite Hd. unfold csvChunk.
  cbn [offset remainder outputParts isFirstChunk exportStart].
  rewrite sliceN_whole by exact Hs.
  change (0 =? 0) with true. cbn iota.
  destruct (0 + chunkSize <? sizeN file) eqn:E; [apply N.ltb_lt in E; lia|].
  cbn [app]. rewrite firstn_all, skipn_all. split; reflexivity.
Qed.

Lemma exportBody_single_tsv headers delimiter sel chunkSize (file : blob) :
  (delimiter =? TAB) = true -> sizeN file <= chunkSize ->
  let st := exportBody headers delimiter sel chunkSize file (exportStart headers sel) in
  outputParts st
  = (formatCSVLine (selectedHeaders headers sel) ++ [LF])
    :: emitTSVLines headers sel true (splitLines (removeBOM (decodeUTF8 file)))
  /\ remainder st = [].
Proof.
  intros Hd Hs. unfold exportBody. rewrite Hd. unfold tsvChunk.
  cbn [offset remainder outputParts isFirstChunk exportStart].
  rewrite sliceN_whole by exact Hs.
  change (0 =? 0) with true. cbn iota.
  destruct (sizeN file <=? 0 + chunkSize) eqn:E; [|apply N.leb_gt in E; lia].
  cbn [app]. rewrite firstn_all, Nat.ltb_irrefl. split; reflexivity.
Qed.

(** The output of a run whose single window holds the whole file. *)
Lemma exportFile_single_window headers delimiter sel chunkSize (file : blob) :
  sel <> [] -> file <> [] -> sizeN file <= chunkSize ->
  exists o,
    exportFile headers delimiter sel chunkSize file = Some o
    /\ errorMessage o = None
    /\ download o
       = Some ((formatCSVLine (selectedHeaders headers sel) ++ [LF])
               :: (if delimiter =? TAB
                   then emitTSVLines headers sel true (splitLines (removeBOM (decodeUTF8 file)))
                   else emitCSVRows headers sel true
                          (parseCSVData (removeBOM (decodeUTF8 file)) delimiter))).
Proof.
  intros Hsel Hf Hs. rewrite exportFile_unfold by exact Hsel.
  rewrite whileChunks_single by assumption.
  eexists. split; [reflexivity|]. split; [reflexivity|]. cbn [download].
  destruct (delimiter =? TAB) eqn:Hd.
  - destruct (exportBody_single_tsv headers delimiter sel chunkSize file Hd Hs)
      as (Ho & Hr). rewrite Ho, Hr. unfold exportTail. rewrite Hd.
    unfold tsvTail. cbn. now rewrite app_nil_r.
  - destruct (exportBody_single_csv headers delimiter sel chunkSize file Hd Hs)
      as (Ho & Hr). rewrite Ho, Hr. unfold exportTail. rewrite Hd.
    unfold csvTail. cbn. now rewrite app_nil_r.
Qed.

(** C2 holds of the tab path and fails on the comma path, which drops a
    row whose selected values are all empty.  The file a,b / ,x loads with
    header a, b; its one data row has two fields, the first of them empty;
    exported with the first column alone ticked, the output holds the
    header line and no data row.  The same rows separated by tabs load with
    the same header, and the export holds the header line and one line for
    the data row. *)
Lemma exportFile_drops_row_with_empty_selection :
  handleFile fileEmptyFirst = Loaded COMMA [str "a"; str "b"]
  /\ parseCSVData (removeBOM (decodeUTF8 fileEmptyFirst)) COMMA
     = [[str "a"; str "b"]; [[]; str "x"]]
  /\ exportFile [str "a"; str "b"] COMMA [0%nat] CHUNK_SIZE fileEmptyFirst
     = Some {| errorMessage := None;
               shown := [0; 100];
               slices := [(0, 7)];
               download := Some [str "a" ++ [LF]] |}
  /\ handleFile fileEmptyFirstTab = Loaded TAB [str "a"; str "b"]
  /\ parseTSVData (removeBOM (decodeUTF8 fileEmptyFirstTab))
     = [[str "a"; str "b"]; [[]; str "x"]]
  /\ exportFile [str "a"; str "b"] TAB [0%nat] CHUNK_SIZE fileEmptyFirstTab
     = Some {| errorMessage := None;
               shown := [0; 100];
               slices := [(0, 7)];
               download := Some [str "a" ++ [LF]; [LF]] |}.
Proof. repeat split; vm_compute; reflexivity. Qed.

(** C7: with no column ticked the export shows the selection error and
    stops: no progress is shown, no slice of the file is read, no output part
    is made and nothing is downloaded, whatever the file; the older variant
    does the same. *)
Theorem exportFile_empty_selection headers delimiter chunkSize file :
  exportFile headers delimiter [] chunkSize file
  = Some {| errorMessage := Some (str "Please select at least one column");
            shown := []; slices := []; download := None |}
  /\ Legacy.exportFile headers delimiter [] chunkSize file
     = Some {| errorMessage := Some (str "Please select at least one column");
               shown := []; slices := []; download := None |}.
Proof. split; reflexivity. Qed.

(** ** The tokenizer over a text cut at a row terminator *)

Ltac wf_text_induction text IH :=
  induction text as [text IH] using (well_founded_induction
    (Wf_nat.well_founded_ltof _ (@length char))).

Ltac shorter := unfold Wf_nat.ltof; simpl; lia.

Lemma pushLine_app (lines : list (list jsstring)) (row : list jsstring) :
  pushLine lines row = lines ++ pushLine [] row.
Proof.
  unfold pushLine. destruct (keepLine row); [reflexivity | now rewrite app_nil_r].
Qed.

Lemma pushLine_blank (lines : list (list jsstring)) :
  pushLine lines [[]] = lines.
Proof. reflexivity. Qed.

(** The rows found so far are a prefix of the result. *)
Lemma parseCSVData_loop_acc (delimiter : char) (isTSV : bool) (text : jsstring) :
  forall lines currentLine currentField inQuotes,
    parseCSVData_loop delimiter isTSV text lines currentLine currentField inQuotes
    = lines ++ parseCSVData_loop delimiter isTSV text [] currentLine currentField inQuotes.
Proof.
  wf_text_induction text IH.
  intros lines cl cf q.
  destruct text as [|c rest]; simpl.
  - apply pushLine_app.
  - assert (Hrest : forall l cl' cf' q',
      parseCSVData_loop delimiter isTSV rest l cl' cf' q'
      = l ++ parseCSVData_loop delimiter isTSV rest [] cl' cf' q').
    { intros. apply IH. shorter. }
    assert (Hrest' : forall c' rest', rest = c' :: rest' ->
      forall l cl' cf' q',
      parseCSVData_loop delimiter isTSV rest' l cl' cf' q'
      = l ++ parseCSVData_loop delimiter isTSV rest' [] cl' cf' q').
    { intros c' rest' -> l cl' cf' q'. apply IH. shorter. }
    destruct (negb isTSV && (c =? DQUOTE)).
    { destruct q; [|now apply Hrest].
      destruct rest as [|c' rest'] eqn:R; [now apply Hrest|].
      destruct (c' =? DQUOTE); [|now apply Hrest].
      now apply (Hrest' c' rest' eq_refl). }
    destruct (isTSV && (c =? DQUOTE)).
    { destruct (negb (nonEmpty cf) && negb (nextIs delimiter rest)
                && negb (nextIs LF rest) && negb (nextIs CR rest));
        [now apply Hrest|].
      destruct (q && (nextIs delimiter rest || nextIs LF rest
                      || nextIs CR rest || negb (nonEmpty rest)));
        [now apply Hrest|].
      destruct q; [|now apply Hrest].
      destruct rest as [|c' rest'] eqn:R; [now apply Hrest|].
      destruct (c' =? DQUOTE); [|now apply Hrest].
      now apply (Hrest' c' rest' eq_refl). }
    destruct ((c =? delimiter) && negb q); [now apply Hrest|].
    destruct (((c =? LF) || (c =? CR)) && negb q); [|now apply Hrest].
    assert (Hpush : forall t, (forall l cl' cf' q',
        parseCSVData_loop delimiter isTSV t l cl' cf' q'
        = l ++ parseCSVData_loop delimiter isTSV t [] cl' cf' q') ->
      parseCSVData_loop delimiter isTSV t (pushLine lines (cl ++ [cf])) [] [] q
      = lines ++ parseCSVData_loop delimiter isTSV t (pushLine [] (cl ++ [cf])) [] [] q).
    { intros t Ht. rewrite Ht, (Ht (pushLine [] (cl ++ [cf]))).
      rewrite (pushLine_app lines), <- app_assoc. reflexivity. }
    destruct rest as [|c' rest'] eqn:R.
    + apply Hpush, Hrest.
    + destruct ((c =? CR) && (c' =? LF)).
      * apply Hpush, (Hrest' c' rest' eq_refl).
      * apply Hpush, Hrest.
Qed.

Lemma endsWithTerminator_cons (c : char) (rest : jsstring) :
  endsWithTerminator (c :: rest) = true ->
  (rest = [] /\ isTerminator c = true) \/ endsWithTerminator rest = true.
Proof.
  destruct rest as [|c' rest']; simpl; [now left | now right].
Qed.

Lemma terminator_not_quote_char (c : char) :
  isTerminator c = true -> (c =? DQUOTE) = false.
Proof.
  unfold isTerminator. intros H. apply orb_true_iff in H as [H | H];
    apply N.eqb_eq in H; subst c; reflexivity.
Qed.

Lemma endsWithTerminator_snoc (u : jsstring) (c : char) :
  endsWithTerminator (u ++ [c]) = isTerminator c.
Proof.
  induction u as [|x u IH]; [reflexivity|].
  simpl app. destruct (u ++ [c]) as [|y r] eqn:E.
  - destruct u; discriminate.
  - exact IH.
Qed.

(** ** Quote parity *)

Lemma quotesIn_app (x y : jsstring) :
  quotesIn (x ++ y) = (quotesIn x + quotesIn y)%nat.
Proof. unfold quotesIn. now rewrite filter_app, length_app. Qed.

Lemma odd_S (n : nat) : Nat.odd (S n) = negb (Nat.odd n).
Proof. rewrite Nat.odd_succ, <- Nat.negb_odd. reflexivity. Qed.

Lemma quotesIn_cons (c : char) (u : jsstring) :
  quotesIn (c :: u) = if c =? DQUOTE then S (quotesIn u) else quotesIn u.
Proof. unfold quotesIn. simpl. destruct (c =? DQUOTE); reflexivity. Qed.

Section CommaPath.

Variable delimiter : char.
Hypothesis delimiter_csv : In delimiter csvDelimiters.

Lemma delimiter_not_tab : (delimiter =? TAB) = false.
Proof.
  destruct delimiter_csv as [<- | [<- | [<- | []]]]; reflexivity.
Qed.

Lemma delimiter_not_terminator : isTerminator delimiter = false.
Proof.
  destruct delimiter_csv as [<- | [<- | [<- | []]]]; reflexivity.
Qed.

Lemma terminator_not_delimiter (c : char) :
  isTerminator c = true -> (c =? delimiter) = false.
Proof.
  intros H. destruct (c =? delimiter) eqn:E; [|reflexivity].
  apply N.eqb_eq in E. subst c. rewrite delimiter_not_terminator in H.
  discriminate.
Qed.

(** One step of the loop outside quotes, at a row terminator. *)
Lemma parseCSVData_loop_terminator (c : char) (rest : jsstring) lines cl cf :
  isTerminator c = true -> (c =? DQUOTE) = false ->
  parseCSVData_loop delimiter false (c :: rest) lines cl cf false
  = match rest with
    | c' :: rest' =>
        if (c =? CR) && (c' =? LF)
        then parseCSVData_loop delimiter false rest'
               (pushLine lines (cl ++ [cf])) [] [] false
        else parseCSVData_loop delimiter false rest
               (pushLine lines (cl ++ [cf])) [] [] false
    | [] => pushLine lines (cl ++ [cf])
    end.
Proof.
  intros Ht Hq. simpl. rewrite Hq, (terminator_not_delimiter c Ht). simpl.
  unfold isTerminator in Ht. rewrite Ht. simpl.
  destruct rest; reflexivity.
Qed.

(** One step of the loop at a double quote. *)
Lemma parseCSVData_loop_quote (rest : jsstring) lines cl cf q :
  parseCSVData_loop delimiter false (DQUOTE :: rest) lines cl cf q
  = match q, rest with
    | true, c' :: rest' =>
        if c' =? DQUOTE
        then parseCSVData_loop delimiter false rest' lines cl (cf ++ [DQUOTE]) q
        else parseCSVData_loop delimiter false rest lines cl cf (negb q)
    | _, _ => parseCSVData_loop delimiter false rest lines cl cf (negb q)
    end.
Proof. reflexivity. Qed.

(** One step of the loop inside quotes, at any other character. *)
Lemma parseCSVData_loop_inside (c : char) (rest : jsstring) lines cl cf :
  (c =? DQUOTE) = false ->
  parseCSVData_loop delimiter false (c :: rest) lines cl cf true
  = parseCSVData_loop delimiter false rest lines cl (grow cf c) true.
Proof.
  intros Hq. simpl. rewrite Hq. simpl. rewrite !andb_false_r. reflexivity.
Qed.

(** One step of the loop outside quotes, at a character that is neither a
    quote nor a row terminator. *)
Lemma parseCSVData_loop_outside (c : char) (rest : jsstring) lines cl cf :
  (c =? DQUOTE) = false -> isTerminator c = false ->
  parseCSVData_loop delimiter false (c :: rest) lines cl cf false
  = if c =? delimiter
    then parseCSVData_loop delimiter false rest lines (cl ++ [cf]) [] false
    else parseCSVData_loop delimiter false rest lines cl (grow cf c) false.
Proof.
  intros Hq Ht. simpl. rewrite Hq. simpl.
  destruct (c =? delimiter); simpl; [reflexivity|].
  unfold isTerminator in Ht. rewrite Ht. reflexivity.
Qed.

(** A text that ends with a row terminator and holds an even number of
    quotes, counted from the state it is read in, leaves the tokenizer at
    the start of a row: the text after it is tokenized on its own. *)
Lemma parseCSVData_loop_app (u : jsstring) :
  forall q, endsWithTerminator u = true ->
    xorb q (Nat.odd (quotesIn u)) = false ->
  forall v lines cl cf,
    parseCSVData_loop delimiter false (u ++ v) lines cl cf q
    = parseCSVData_loop delimiter false v
        (parseCSVData_loop delimiter false u lines cl cf q) [] [] false.
Proof.
  wf_text_induction u IH.
  intros q Hend Hn v lines cl cf.
  destruct u as [|c rest]; [discriminate|].
  change ((c :: rest) ++ v) with (c :: (rest ++ v)).
  rewrite quotesIn_cons in Hn.
  destruct (c =? DQUOTE) eqn:Hc.
  - apply N.eqb_eq in Hc. subst c. rewrite odd_S in Hn.
    rewrite !parseCSVData_loop_quote.
    destruct rest as [|c' rest']; [discriminate Hend|].
    destruct q.
    + cbn [app]. destruct (c' =? DQUOTE) eqn:Hc'.
      * apply N.eqb_eq in Hc'. subst c'.
        destruct rest' as [|c'' rest'']; [discriminate Hend|].
        apply (IH (c'' :: rest'')); [shorter | exact Hend |].
        rewrite quotesIn_cons in Hn. change (DQUOTE =? DQUOTE) with true in Hn.
        cbv iota in Hn. rewrite odd_S, negb_involutive in Hn. exact Hn.
      * apply (IH (c' :: rest')); [shorter | exact Hend |].
        cbn [negb xorb] in *. now destruct (Nat.odd (quotesIn (c' :: rest'))).
    + apply (IH (c' :: rest')); [shorter | exact Hend |].
      cbn [negb xorb] in *. now destruct (Nat.odd (quotesIn (c' :: rest'))).
  - destruct q.
    + rewrite !parseCSVData_loop_inside by exact Hc.
      destruct rest as [|c' rest']; [discriminate Hn|].
      apply (IH (c' :: rest')); [shorter | exact Hend | exact Hn].
    + destruct (isTerminator c) eqn:Ht.
      * rewrite !parseCSVData_loop_terminator by assumption.
        destruct rest as [|c' rest'].
        -- cbn [app].
           destruct v as [|c' v']; [reflexivity|].
           destruct ((c =? CR) && (c' =? LF)) eqn:E; [|reflexivity].
           apply andb_true_iff in E as [_ E]. apply N.eqb_eq in E. subst c'.
           rewrite parseCSVData_loop_terminator by reflexivity.
           rewrite pushLine_blank. destruct v'; reflexivity.
        -- cbn [app]. destruct ((c =? CR) && (c' =? LF)) eqn:E.
           ++ apply andb_true_iff in E as [_ E]. apply N.eqb_eq in E. subst c'.
              destruct rest' as [|c'' rest'']; [reflexivity|].
              apply (IH (c'' :: rest'')); [shorter | exact Hend | exact Hn].
           ++ apply (IH (c' :: rest')); [shorter | exact Hend | exact Hn].
      * rewrite !parseCSVData_loop_outside by assumption.
        destruct rest as [|c' rest']; [simpl in Hend; congruence|].
        destruct (c =? delimiter);
          apply (IH (c' :: rest')); try shorter; assumption.
Qed.

Lemma parseCSVData_app (u v : jsstring) :
  endsWithTerminator u = true -> Nat.odd (quotesIn u) = false ->
  parseCSVData (u ++ v) delimiter
  = parseCSVData u delimiter ++ parseCSVData v delimiter.
Proof.
  intros Hend Hn. unfold parseCSVData. rewrite delimiter_not_tab.
  rewrite parseCSVData_loop_app by (try rewrite Hn; trivial).
  apply parseCSVData_loop_acc.
Qed.

End CommaPath.

(** ** The backward scan for a safe break *)

Lemma charAt_nth_error (s : jsstring) (i : nat) (c : char) :
  charAt s i c = true <-> nth_error s i = Some c.
Proof.
  unfold charAt. destruct (nth_error s i) as [x|].
  - rewrite N.eqb_eq. split; congruence.
  - split; discriminate.
Qed.

Lemma charAt_includes (s : jsstring) (i : nat) (c : char) :
  includes c s = false -> charAt s i c = false.
Proof.
  intros H. destruct (charAt s i c) eqn:E; [|reflexivity].
  apply charAt_nth_error, nth_error_In in E.
  apply includes_In in E. congruence.
Qed.

Lemma firstn_S_nth_error {A : Type} (l : list A) :
  forall i x, nth_error l i = Some x -> firstn (S i) l = firstn i l ++ [x].
Proof.
  induction l as [|y l IH]; intros [|i] x H; try discriminate.
  - simpl in H. inversion H. reflexivity.
  - simpl in H. change (firstn (S (S i)) (y :: l)) with (y :: firstn (S i) l).
    rewrite (IH i x H). reflexivity.
Qed.

Lemma firstn_ends_with_terminator (s : jsstring) (i : nat) :
  charAt s i LF || charAt s i CR = true ->
  endsWithTerminator (firstn (S i) s) = true.
Proof.
  intros H. apply orb_true_iff in H as [H | H];
    apply charAt_nth_error in H;
    rewrite (firstn_S_nth_error s i _ H), endsWithTerminator_snoc; reflexivity.
Qed.

Lemma scanBack_eq (fullText : jsstring) (i : nat) (inQuotes : bool) :
  scanBack fullText i inQuotes
  = if (Z.of_nat (length fullText) - 1000 <=? Z.of_nat i)%Z then
      let inQuotes :=
        if charAt fullText i DQUOTE then Nat.odd (quoteCount fullText i)
        else inQuotes in
      if (charAt fullText i LF || charAt fullText i CR) && negb inQuotes then
        if charAt fullText i CR && charAt fullText (i + 1) LF
        then (i + 2)%nat else (i + 1)%nat
      else
        match i with
        | O => length fullText
        | S i' => scanBack fullText i' inQuotes
        end
    else length fullText.
Proof. destruct i; reflexivity. Qed.

(** ** Windows of the file *)

Lemma takeN_firstn {A : Type} (l : list A) :
  forall n, takeN n l = firstn (N.to_nat n) l.
Proof.
  induction l as [|x l IH]; intros n; simpl.
  - now rewrite firstn_nil.
  - destruct (n =? 0) eqn:E.
    + apply N.eqb_eq in E. now subst.
    + apply N.eqb_neq in E.
      replace (N.to_nat n) with (S (N.to_nat (N.pred n))) by lia.
      simpl. now rewrite IH.
Qed.

Lemma dropN_skipn {A : Type} (l : list A) :
  forall n, dropN n l = skipn (N.to_nat n) l.
Proof.
  induction l as [|x l IH]; intros n; simpl.
  - now rewrite skipn_nil.
  - destruct (n =? 0) eqn:E.
    + apply N.eqb_eq in E. now subst.
    + apply N.eqb_neq in E.
      replace (N.to_nat n) with (S (N.to_nat (N.pred n))) by lia.
      simpl. now rewrite IH.
Qed.

Lemma removeBOM_app (x y : jsstring) :
  x <> [] -> removeBOM (x ++ y) = removeBOM x ++ y.
Proof.
  destruct x as [|c x]; [congruence|]. intros _. simpl.
  destruct (c =? BOM); reflexivity.
Qed.

Lemma firstn_add_split {A : Type} (a b : nat) (l : list A) :
  firstn (a + b) l = firstn a l ++ firstn b (skipn a l).
Proof.
  rewrite <- (firstn_skipn a (firstn (a + b) l)).
  rewrite firstn_firstn, Nat.min_l by lia.
  rewrite <- firstn_skipn_comm. reflexivity.
Qed.

Lemma firstn_min_length {A : Type} (n : nat) (l : list A) :
  firstn n l = firstn (Nat.min n (length l)) l.
Proof.
  destruct (Nat.le_ge_cases n (length l)).
  - now rewrite Nat.min_l.
  - rewrite Nat.min_r by assumption. rewrite firstn_all. now apply firstn_all2.
Qed.

(** ** The pieces a run cuts the text into *)

Lemma emitFrom_false emit (pieces : list piece) :
  emitFrom emit false pieces = flat_map (fun q => emit false (fst q)) pieces.
Proof. destruct pieces; reflexivity. Qed.

Lemma whileChunks_done (fuel : nat) (size : N) body (st : exportState) :
  size <= offset st -> whileChunks fuel size body st = Some st.
Proof.
  intros H. apply N.ltb_ge in H. destruct fuel; simpl; now rewrite H.
Qed.

Lemma cutsFrom_done cut chunkSize file (fuel : nat) (off : N) rem :
  sizeN file <= off -> cutsFrom cut chunkSize file fuel off rem = [].
Proof.
  intros H. apply N.ltb_ge in H. destruct fuel; simpl; [|rewrite H]; reflexivity.
Qed.

Lemma textsFrom_done chunkSize file (fuel : nat) (off : N) :
  sizeN file <= off -> textsFrom chunkSize file fuel off = [].
Proof.
  intros H. apply N.ltb_ge in H. destruct fuel; simpl; [|rewrite H]; reflexivity.
Qed.

Section PieceRun.

Variables (chunkSize : N) (file : blob).
Variable cut : bool -> jsstring -> piece * jsstring.
Variable emit : bool -> jsstring -> list jsstring.
Variable body : exportState -> exportState.

Hypothesis chunk_positive : 0 < chunkSize.
Hypothesis body_offset : forall st, offset (body st) = offset st + chunkSize.
Hypothesis body_output : forall st,
  outputParts (body st)
  = outputParts st
    ++ emit (isFirstChunk st)
         (fst (fst (cut (isFinal chunkSize file st) (fullTextOf chunkSize file st)))).
Hypothesis body_remainder : forall st,
  remainder (body st)
  = snd (cut (isFinal chunkSize file st) (fullTextOf chunkSize file st)).
Hypothesis body_first : forall st, isFirstChunk (body st) = false.
Hypothesis cut_join : forall final full,
  glue (fst (cut final full)) ++ snd (cut final full) = full.
Hypothesis cut_final : forall full, cut true full = ((full, []), []).

(** The output parts of a run are those of its pieces, and the remainder
    is empty once a window has been read. *)
Lemma whileChunks_pieces (fuel : nat) :
  forall st st',
    whileChunks fuel (sizeN file) body st = Some st' ->
    outputParts st'
    = outputParts st
      ++ emitFrom emit (isFirstChunk st)
           (cutsFrom cut chunkSize file fuel (offset st) (remainder st))
    /\ (offset st < sizeN file -> remainder st' = []).
Proof.
  induction fuel as [|fuel IH]; intros st st' H; simpl in H.
  - destruct (offset st <? sizeN file) eqn:E; [discriminate|].
    inversion H; subst st'. apply N.ltb_ge in E. simpl.
    split; [now rewrite app_nil_r | lia].
  - cbn [cutsFrom]. destruct (offset st <? sizeN file) eqn:E.
    + destruct (IH (body st) st' H) as (Hout & Hrem).
      rewrite body_offset, body_first, body_remainder, body_output in Hout.
      split.
      * rewrite Hout, emitFrom_false, <- app_assoc. reflexivity.
      * intros _. rewrite body_offset in Hrem.
        destruct (offset st + chunkSize <? sizeN file) eqn:E2.
        -- apply Hrem. now apply N.ltb_lt.
        -- apply N.ltb_ge in E2.
           rewrite whileChunks_done in H by (rewrite body_offset; exact E2).
           inversion H; subst st'. rewrite body_remainder.
           unfold isFinal. apply N.ltb_ge in E2. rewrite E2. cbn [negb].
           now rewrite cut_final.
    + inversion H; subst st'. apply N.ltb_ge in E. simpl.
      split; [now rewrite app_nil_r | lia].
Qed.

(** The pieces, with their separators, make up the texts of the windows
    read. *)
Lemma cutsFrom_glue (fuel : nat) :
  forall off rem,
    off < sizeN file -> sizeN file <= off + N.of_nat fuel * chunkSize ->
    concat (map glue (cutsFrom cut chunkSize file fuel off rem))
    = rem ++ concat (textsFrom chunkSize file fuel off).
Proof.
  induction fuel as [|fuel IH]; intros off rem Hlt Hfuel; [lia|].
  cbn [cutsFrom textsFrom]. apply N.ltb_lt in Hlt. rewrite Hlt.
  cbn [map concat].
  destruct (off + chunkSize <? sizeN file) eqn:E.
  - apply N.ltb_lt in E. rewrite IH by lia.
    cbn [negb]. rewrite (app_assoc (glue _)), cut_join, <- app_assoc.
    reflexivity.
  - apply N.ltb_ge in E.
    rewrite cutsFrom_done, textsFrom_done by exact E.
    cbn [negb map concat]. rewrite cut_final. unfold glue. cbn [fst snd].
    now rewrite !app_nil_r.
Qed.

(** The last piece is the whole of what is left. *)
Lemma cutsFrom_last (fuel : nat) :
  forall off rem,
    off < sizeN file -> sizeN file <= off + N.of_nat fuel * chunkSize ->
    exists init l,
      cutsFrom cut chunkSize file fuel off rem = init ++ [(l, [])].
Proof.
  induction fuel as [|fuel IH]; intros off rem Hlt Hfuel; [lia|].
  cbn [cutsFrom]. apply N.ltb_lt in Hlt. rewrite Hlt.
  destruct (off + chunkSize <? sizeN file) eqn:E.
  - apply N.ltb_lt in E.
    destruct (IH (off + chunkSize)
                (snd (cut (negb true) (rem ++ chunkText chunkSize file off))))
      as (init & l & Hcuts); [exact E | lia |].
    rewrite Hcuts. eexists (_ :: init), l. reflexivity.
  - apply N.ltb_ge in E. rewrite cutsFrom_done by exact E.
    cbn [negb]. rewrite cut_final. now exists [], (rem ++ chunkText chunkSize file off).
Qed.

End PieceRun.

(** ** The two paths as cuts *)

Lemma lastIndexOf_from_spec (c : char) (s : jsstring) :
  forall i,
    match lastIndexOf_from c i s with
    | Some k => (i <= k)%nat /\ nth_error s (k - i) = Some c
                /\ includes c (skipn (k - i + 1) s) = false
    | None => includes c s = false
    end.
Proof.
  induction s as [|x s IH]; intros i; simpl; [reflexivity|].
  specialize (IH (S i)).
  destruct (lastIndexOf_from c (S i) s) as [k|].
  - destruct IH as (Hk & Hn & Hs). split; [lia|].
    replace (k - i)%nat with (S (k - S i)) by lia. simpl. split; assumption.
  - rewrite (N.eqb_sym c x). destruct (x =? c) eqn:E.
    + apply N.eqb_eq in E. subst x. rewrite Nat.sub_diag. simpl.
      repeat split; [lia | exact IH].
    + simpl. exact IH.
Qed.

Lemma lastIndexOf_spec (c : char) (s : jsstring) :
  match lastIndexOf c s with
  | Some k => nth_error s k = Some c /\ includes c (skipn (k + 1) s) = false
  | None => includes c s = false
  end.
Proof.
  unfold lastIndexOf. pose proof (lastIndexOf_from_spec c s 0%nat) as H.
  destruct (lastIndexOf_from c 0 s) as [k|]; [|exact H].
  rewrite Nat.sub_0_r in H. tauto.
Qed.

Lemma nth_error_split_at {A : Type} (l : list A) (k : nat) (x : A) :
  nth_error l k = Some x -> firstn k l ++ x :: skipn (k + 1) l = l.
Proof.
  intros H. rewrite <- (firstn_skipn k l) at 3. f_equal.
  rewrite Nat.add_1_r. revert l H. induction k as [|k IH]; intros [|y l] H;
    try discriminate.
  - simpl in H. inversion H. reflexivity.
  - simpl in H. simpl. apply IH, H.
Qed.

Lemma csvCut_join final full :
  glue (fst (csvCut final full)) ++ snd (csvCut final full) = full.
Proof.
  unfold csvCut, glue. destruct final; simpl.
  - now rewrite !app_nil_r.
  - rewrite app_nil_r. apply firstn_skipn.
Qed.

Lemma tsvCut_join final full :
  glue (fst (tsvCut final full)) ++ snd (tsvCut final full) = full.
Proof.
  unfold tsvCut, glue. destruct final; simpl.
  - now rewrite !app_nil_r.
  - pose proof (lastIndexOf_spec LF full) as H.
    destruct (lastIndexOf LF full) as [k|]; simpl.
    + rewrite <- app_assoc. simpl. apply nth_error_split_at, H.
    + now rewrite !app_nil_r.
Qed.

Lemma csvChunk_cut headers delimiter sel chunkSize (file : blob) st :
  let c := csvCut (isFinal chunkSize file st) (fullTextOf chunkSize file st) in
  outputParts (csvChunk headers delimiter sel chunkSize file st)
  = outputParts st ++ csvEmit headers delimiter sel (isFirstChunk st) (fst (fst c))
  /\ remainder (csvChunk headers delimiter sel chunkSize file st) = snd c.
Proof.
  unfold csvChunk, csvCut, csvEmit, isFinal, fullTextOf, chunkText.
  cbn [outputParts remainder].
  destruct (offset st + chunkSize <? sizeN file); cbn [negb fst snd].
  - split; reflexivity.
  - rewrite firstn_all, skipn_all. split; reflexivity.
Qed.

Lemma tsvChunk_cut headers sel chunkSize (file : blob) st :
  let c := tsvCut (isFinal chunkSize file st) (fullTextOf chunkSize file st) in
  outputParts (tsvChunk headers sel chunkSize file st)
  = outputParts st ++ tsvEmit headers sel (isFirstChunk st) (fst (fst c))
  /\ remainder (tsvChunk headers sel chunkSize file st) = snd c.
Proof.
  unfold tsvChunk, tsvCut, tsvEmit, isFinal, fullTextOf, chunkText.
  cbn [outputParts remainder].
  rewrite (N.ltb_antisym (sizeN file) (offset st + chunkSize)), negb_involutive.
  destruct (sizeN file <=? offset st + chunkSize); cbn [fst snd].
  - rewrite firstn_all, Nat.ltb_irrefl. split; reflexivity.
  - match goal with
    | |- context [lastIndexOf LF ?full] =>
        pose proof (lastIndexOf_spec LF full) as H;
        destruct (lastIndexOf LF full) as [k|]
    end; cbn [fst snd].
    + destruct H as (H & _).
      match type of H with
      | nth_error ?l k = _ =>
          assert (Hk : (k < length l)%nat) by (apply nth_error_Some; congruence)
      end.
      apply Nat.ltb_lt in Hk. rewrite Hk. split; reflexivity.
    + rewrite firstn_all, Nat.ltb_irrefl. split; reflexivity.
Qed.

(** ** A run in terms of its pieces *)

Lemma exportTail_nil headers delimiter sel :
  exportTail headers delimiter sel [] = [].
Proof. unfold exportTail. destruct (delimiter =? TAB); reflexivity. Qed.

Lemma sizeN_positive (file : blob) : file <> [] -> 0 < sizeN file.
Proof. destruct file; [congruence|]. intros _. unfold sizeN. simpl. lia. Qed.

Lemma pathCut_join delimiter final full :
  glue (fst (pathCut delimiter final full)) ++ snd (pathCut delimiter final full)
  = full.
Proof.
  unfold pathCut. destruct (delimiter =? TAB).
  - apply tsvCut_join.
  - apply csvCut_join.
Qed.

Lemma pathCut_final delimiter full :
  pathCut delimiter true full = ((full, []), []).
Proof. unfold pathCut. destruct (delimiter =? TAB); reflexivity. Qed.

(** The download of a run is the header line followed by the output parts
    of its pieces. *)
Lemma exportFile_pieces headers delimiter sel chunkSize (file : blob) :
  sel <> [] -> 0 < chunkSize ->
  exists o,
    exportFile headers delimiter sel chunkSize file = Some o
    /\ errorMessage o = None
    /\ download o
       = Some (headerLine headers sel
               :: emitAll (pathEmit headers delimiter sel)
                    (piecesOf delimiter chunkSize file)).
Proof.
  intros Hsel Hc.
  destruct (exportFile_runs headers delimiter sel chunkSize file Hsel Hc)
    as (st & Hrun & Hexp).
  destruct (whileChunks_pieces chunkSize file (pathCut delimiter)
              (pathEmit headers delimiter sel)
              (exportBody headers delimiter sel chunkSize file))
    with (fuel := length file) (st := exportStart headers sel) (st' := st)
    as (Hout & Hrem).
  - exact Hc.
  - apply exportBody_offset.
  - intros s. unfold exportBody, pathCut, pathEmit.
    destruct (delimiter =? TAB).
    + apply tsvChunk_cut.
    + apply csvChunk_cut.
  - intros s. unfold exportBody, pathCut.
    destruct (delimiter =? TAB).
    + apply tsvChunk_cut.
    + apply csvChunk_cut.
  - intros s. unfold exportBody. destruct (delimiter =? TAB); reflexivity.
  - apply pathCut_final.
  - exact Hrun.
  - eexists. split; [exact Hexp|]. split; [reflexivity|].
    cbn [download]. rewrite Hout.
    assert (Hr : remainder st = []).
    { destruct file as [|b file'].
      - simpl in Hrun. inversion Hrun. reflexivity.
      - apply Hrem. change (offset (exportStart headers sel)) with 0.
        apply sizeN_positive. discriminate. }
    rewrite Hr, exportTail_nil, app_nil_r. reflexivity.
Qed.

(** The pieces of a run over a non-empty file: the last one is the whole
    of what is left, and with their separators they make up the texts of
    the windows. *)
Lemma piecesOf_text delimiter chunkSize (file : blob) :
  0 < chunkSize -> file <> [] ->
  concat (map glue (piecesOf delimiter chunkSize file))
  = concat (windowTexts chunkSize file)
  /\ exists init l, piecesOf delimiter chunkSize file = init ++ [(l, [])].
Proof.
  intros Hc Hf. unfold piecesOf, windowTexts. split.
  - rewrite (cutsFrom_glue chunkSize file (pathCut delimiter)).
    + reflexivity.
    + exact Hc.
    + apply pathCut_join.
    + apply pathCut_final.
    + apply sizeN_positive, Hf.
    + apply sizeN_fuel, Hc.
  - apply (cutsFrom_last chunkSize file (pathCut delimiter)).
    + exact Hc.
    + apply pathCut_final.
    + apply sizeN_positive, Hf.
    + apply sizeN_fuel, Hc.
Qed.

(** The comma path leaves no separator out. *)
Lemma cutsFrom_csvCut chunkSize (file : blob) (fuel : nat) :
  forall off rem,
    Forall (fun p => snd p = []) (cutsFrom csvCut chunkSize file fuel off rem).
Proof.
  induction fuel as [|fuel IH]; intros off rem; cbn [cutsFrom]; [constructor|].
  destruct (off <? sizeN file); [|constructor].
  constructor; [|apply IH].
  unfold csvCut. destruct (negb (off + chunkSize <? sizeN file)); reflexivity.
Qed.

(** ** Tokenizing the pieces *)

Lemma includes_app (c : char) (x y : jsstring) :
  includes c (x ++ y) = includes c x || includes c y.
Proof. unfold includes. apply existsb_app. Qed.

Lemma includes_removeBOM (c : char) (s : jsstring) :
  includes c s = false -> includes c (removeBOM s) = false.
Proof.
  destruct s as [|x s]; [trivial|]. simpl. intros H.
  apply orb_false_elim in H as [H1 H2].
  destruct (x =? BOM); [exact H2|]. simpl. now rewrite H1, H2.
Qed.

Lemma includes_firstn (c : char) (n : nat) (s : jsstring) :
  includes c s = false -> includes c (firstn n s) = false.
Proof.
  intros H. rewrite <- (firstn_skipn n s), includes_app in H.
  now apply orb_false_elim in H.
Qed.

Lemma flat_map_flat_map {A B C : Type} (f : A -> list B) (g : B -> list C)
    (l : list A) :
  flat_map g (flat_map f l) = flat_map (fun x => flat_map g (f x)) l.
Proof.
  induction l as [|x l IH]; [reflexivity|].
  simpl. now rewrite flat_map_app, IH.
Qed.

Lemma tl_app_nonempty {A : Type} (x y : list A) :
  x <> [] -> tl (x ++ y) = tl x ++ y.
Proof. destruct x; [congruence | reflexivity]. Qed.

(** The output of the pieces is the output of the whole text when the
    tokens of the whole text are the tokens of the pieces in a row. *)
Lemma emitAll_whole {R : Type} (tokens : jsstring -> list R)
    (row : R -> list jsstring) (whole : jsstring) (pieces : list piece) :
  pieces <> [] ->
  tokens whole = flat_map (fun q => tokens (fst q)) pieces ->
  (forall p ps, pieces = p :: ps -> ps <> [] -> tokens (fst p) <> []) ->
  emitAll (fun first text => flat_map row (fromRow first (tokens text))) pieces
  = flat_map row (fromRow true (tokens whole)).
Proof.
  intros Hne Htok Hfirst. destruct pieces as [|p ps]; [congruence|].
  rewrite Htok. unfold emitAll. cbn [emitFrom fromRow flat_map].
  destruct ps as [|q qs].
  - simpl. now rewrite !app_nil_r.
  - rewrite tl_app_nonempty by (apply (Hfirst p (q :: qs)); [reflexivity | discriminate]).
    rewrite flat_map_app. f_equal. symmetry. apply flat_map_flat_map.
Qed.

Lemma even_odd_false (n : nat) : Nat.even n = true -> Nat.odd n = false.
Proof. rewrite <- Nat.negb_odd. now destruct (Nat.odd n). Qed.

Lemma parseCSVData_pieces (delimiter : char) (init : list piece) (l : jsstring) :
  In delimiter csvDelimiters ->
  Forall rowsClosed init ->
  parseCSVData (concat (map glue init) ++ l) delimiter
  = flat_map (fun q => parseCSVData (fst q) delimiter) (init ++ [(l, [])]).
Proof.
  intros Hd Hinit. induction Hinit as [|p init (Hs & He & Hn) _ IH].
  - simpl. now rewrite app_nil_r.
  - destruct p as [t s]. simpl in Hs, He, Hn. subst s.
    cbn [map concat app flat_map fst]. unfold glue at 1. cbn [fst snd].
    rewrite app_nil_r, <- app_assoc, parseCSVData_app by assumption.
    f_equal. exact IH.
Qed.

Lemma endsWithCR_tail (c : char) (rest : jsstring) :
  endsWithCR (c :: rest) = false -> endsWithCR rest = false.
Proof. destruct rest; [reflexivity | trivial]. Qed.

(** A line feed after a text that does not end with a carriage return
    separates the lines before it from the lines after it. *)
Lemma splitLines_from_LF (p q : jsstring) :
  endsWithCR p = false ->
  forall cur,
    splitLines_from cur (p ++ LF :: q)
    = splitLines_from cur p ++ splitLines_from [] q.
Proof.
  wf_text_induction p IH. intros Hp cur.
  destruct p as [|c rest]; [reflexivity|].
  pose proof (endsWithCR_tail c rest Hp) as Hrest.
  cbn [app splitLines_from].
  destruct (c =? LF).
  { cbn [app]. f_equal. apply IH; [shorter | exact Hrest]. }
  destruct (c =? CR) eqn:Hc.
  - destruct rest as [|c' rest'].
    { simpl in Hp. congruence. }
    cbn [app]. destruct (c' =? LF).
    + cbn [app]. f_equal.
      apply IH; [shorter | now apply (endsWithCR_tail c' rest')].
    + apply (IH (c' :: rest')); [shorter | exact Hrest].
  - apply IH; [shorter | exact Hrest].
Qed.

Lemma splitLines_from_nonempty (s : jsstring) :
  forall cur, splitLines_from cur s <> [].
Proof.
  wf_text_induction s IH. intros cur.
  destruct s as [|c rest]; simpl; [discriminate|].
  destruct (c =? LF); [discriminate|].
  destruct (c =? CR); [|apply IH; shorter].
  destruct rest as [|c' rest']; [apply IH; shorter|].
  destruct (c' =? LF); [discriminate | apply IH; shorter].
Qed.

Lemma splitLines_pieces (init : list piece) (l : jsstring) :
  Forall cutAtLF init ->
  splitLines (concat (map glue init) ++ l)
  = flat_map (fun q => splitLines (fst q)) (init ++ [(l, [])]).
Proof.
  intros Hinit. induction Hinit as [|p init (Hs & Hcr) _ IH].
  - simpl. now rewrite app_nil_r.
  - destruct p as [t s]. simpl in Hs, Hcr. subst s.
    cbn [map concat app flat_map fst]. unfold glue at 1. cbn [fst snd].
    rewrite <- !app_assoc. cbn [app].
    unfold splitLines at 1. rewrite splitLines_from_LF by exact Hcr.
    f_equal. exact IH.
Qed.

Lemma candidates_split (delimiter : char) :
  In delimiter candidates ->
  delimiter = TAB \/ ((delimiter =? TAB) = false /\ In delimiter csvDelimiters).
Proof.
  intros [<- | [<- | [<- | [<- | []]]]].
  - right. split; [reflexivity | now left].
  - now left.
  - right. split; [reflexivity | right; now left].
  - right. split; [reflexivity | right; right; now left].
Qed.

(** With safe cuts the output parts of the pieces are the output parts of
    their text in one piece. *)
Lemma emitAll_safe headers delimiter sel (init : list piece) (l : jsstring) :
  In delimiter candidates ->
  Forall (fun p => (delimiter =? TAB) = false -> snd p = []) init ->
  forallb (safeCut delimiter) init = true ->
  firstPieceHasRow delimiter (init ++ [(l, [])]) = true ->
  emitAll (pathEmit headers delimiter sel) (init ++ [(l, [])])
  = if delimiter =? TAB
    then emitTSVLines headers sel true
           (splitLines (concat (map glue init) ++ l))
    else emitCSVRows headers sel true
           (parseCSVData (concat (map glue init) ++ l) delimiter).
Proof.
  intros Hd Hsnd Hsafe Hfirst.
  rewrite forallb_forall in Hsafe. rewrite Forall_forall in Hsnd.
  unfold pathEmit.
  destruct (candidates_split delimiter Hd) as [-> | (E & Hcsv)].
  - change (TAB =? TAB) with true. cbv iota.
    apply (emitAll_whole splitLines (emitTSVLine headers sel)).
    + destruct init; discriminate.
    + apply splitLines_pieces. apply Forall_forall. intros p Hp.
      specialize (Hsafe p Hp). unfold safeCut in Hsafe.
      change (TAB =? TAB) with true in Hsafe. cbv iota in Hsafe.
      destruct p as [t [|c [|c' s]]]; try discriminate. cbn [fst snd] in *.
      apply andb_true_iff in Hsafe as [Hlf Hcr]. apply N.eqb_eq in Hlf.
      subst c. split; [reflexivity|]. cbn [fst].
      now destruct (endsWithCR t).
    + intros p ps _ _. apply splitLines_from_nonempty.
  - rewrite E.
    apply (emitAll_whole (fun t => parseCSVData t delimiter)
             (emitCSVRow headers sel)).
    + destruct init; discriminate.
    + apply parseCSVData_pieces; [exact Hcsv|].
      apply Forall_forall. intros p Hp.
      specialize (Hsafe p Hp). unfold safeCut in Hsafe. rewrite E in Hsafe.
      apply andb_true_iff in Hsafe as [He Hq].
      split; [now apply Hsnd|]. split; [exact He | now apply even_odd_false].
    + intros p ps Hp Hps. unfold firstPieceHasRow in Hfirst.
      rewrite Hp in Hfirst. destruct ps as [|p2 ps]; [congruence|].
      rewrite E in Hfirst. cbn [orb] in Hfirst.
      intros Hnil. rewrite Hnil in Hfirst. discriminate.
Qed.

(** ** Window invariance *)

Lemma removeBOM_ascii (text : blob) : isASCII text -> removeBOM text = text.
Proof.
  intros H. destruct text as [|c t]; [reflexivity|].
  inversion H as [|? ? Hc _]; subst. simpl.
  destruct (c =? BOM) eqn:E; [|reflexivity].
  apply N.eqb_eq in E. subst c. discriminate Hc.
Qed.

Lemma chunkText_ascii (chunkSize : N) (file : blob) (off : N) :
  isASCII file ->
  chunkText chunkSize file off
  = firstn (N.to_nat chunkSize) (skipn (N.to_nat off) file).
Proof.
  intros H. unfold chunkText, sliceN.
  rewrite takeN_firstn, dropN_skipn.
  assert (Hs : isASCII (firstn
                 (N.to_nat (N.min (off + chunkSize) (sizeN file) - off))
                 (skipn (N.to_nat off) file)))
    by now apply isASCII_firstn, isASCII_skipn.
  rewrite (decodeUTF8_ascii _ Hs).
  replace (if off =? 0 then removeBOM _ else _)
    with (firstn (N.to_nat (N.min (off + chunkSize) (sizeN file) - off))
            (skipn (N.to_nat off) file))
    by (destruct (off =? 0); [now rewrite removeBOM_ascii | reflexivity]).
  rewrite (firstn_min_length (N.to_nat chunkSize)). f_equal.
  rewrite length_skipn. unfold sizeN, blob, byte, char in *. lia.
Qed.

Lemma textsFrom_ascii (chunkSize : N) (file : blob) :
  isASCII file ->
  forall (fuel : nat) (off : N),
    sizeN file <= off + N.of_nat fuel * chunkSize ->
    concat (textsFrom chunkSize file fuel off) = skipn (N.to_nat off) file.
Proof.
  intros H. induction fuel as [|fuel IH]; intros off Hfuel.
  - simpl. symmetry. apply skipn_all2. unfold sizeN, blob, byte, char in *. lia.
  - cbn [textsFrom]. destruct (off <? sizeN file) eqn:E.
    + cbn [concat]. rewrite IH by lia. rewrite chunkText_ascii by exact H.
      replace (N.to_nat (off + chunkSize))
        with (N.to_nat chunkSize + N.to_nat off)%nat by lia.
      rewrite <- skipn_skipn. apply firstn_skipn.
    + apply N.ltb_ge in E. simpl. symmetry. apply skipn_all2.
      unfold sizeN, blob, byte, char in *. lia.
Qed.

(** The windows of a file of ASCII bytes decode alone, whatever the
    window size. *)
Lemma windowsDecodeAlone_ascii (chunkSize : N) (file : blob) :
  0 < chunkSize -> isASCII file -> windowsDecodeAlone chunkSize file.
Proof.
  intros Hc H. unfold windowsDecodeAlone, windowTexts.
  rewrite textsFrom_ascii; [|exact H | apply sizeN_fuel, Hc].
  simpl. now rewrite decodeUTF8_ascii, removeBOM_ascii.
Qed.

(** C1, as stated, fails, in six ways.  On the comma path: the row xy read
    in windows of one byte, none of which holds the whole row, is exported
    as the rows x and y; a quoted field that holds a line feed, read in
    windows of six bytes, the first of which ends inside the quotes, is
    exported as two rows; a file that begins with a blank line, read in
    windows of one byte, has its header exported as a data row.  On the tab
    path: the row xy read in windows of one byte is exported as the rows x
    and y; lines that end with a carriage return and a line feed, read in
    windows of seven bytes, give a row that keeps its carriage return.  On
    both paths a character of two bytes cut by a window boundary is exported
    as two replacement characters.  In each case one of [windowsDecodeAlone]
    and [safeCuts] fails. *)
Lemma exportFile_windows_split_quoted_row :
  (option_map blobText (exportFile [str "h"] COMMA [0%nat] 5 fileLongRow)
   = Some (Some (str "h" ++ [LF] ++ str "xy" ++ [LF]))
   /\ option_map blobText (exportFile [str "h"] COMMA [0%nat] 1 fileLongRow)
      = Some (Some (str "h" ++ [LF] ++ str "x" ++ [LF] ++ str "y" ++ [LF]))
   /\ safeCuts COMMA 1 fileLongRow = false)
  /\ (option_map blobText (exportFile [str "h"] COMMA [0%nat] 8 fileQuotedLF)
      = Some (Some (str "h" ++ [LF; DQUOTE] ++ str "a" ++ [LF] ++ str "b"
                    ++ [DQUOTE; LF]))
      /\ option_map blobText (exportFile [str "h"] COMMA [0%nat] 6 fileQuotedLF)
         = Some (Some (str "h" ++ [LF; DQUOTE] ++ str "a" ++ [LF; DQUOTE; LF; DQUOTE]
                       ++ str "b" ++ [LF; DQUOTE; LF]))
      /\ safeCuts COMMA 6 fileQuotedLF = false)
  /\ (option_map blobText (exportFile [str "h"] COMMA [0%nat] 6 fileBlankFirst)
      = Some (Some (str "h" ++ [LF] ++ str "a" ++ [LF]))
      /\ option_map blobText (exportFile [str "h"] COMMA [0%nat] 1 fileBlankFirst)
         = Some (Some (str "h" ++ [LF] ++ str "h" ++ [LF] ++ str "a" ++ [LF]))
      /\ safeCuts COMMA 1 fileBlankFirst = false)
  /\ (option_map blobText (exportFile [str "h"] TAB [0%nat] 5 fileLongRow)
      = Some (Some (str "h" ++ [LF] ++ str "xy" ++ [LF]))
      /\ option_map blobText (exportFile [str "h"] TAB [0%nat] 1 fileLongRow)
         = Some (Some (str "h" ++ [LF] ++ str "x" ++ [LF] ++ str "y" ++ [LF]))
      /\ safeCuts TAB 1 fileLongRow = false)
  /\ (option_map blobText (exportFile [str "h"] TAB [0%nat] 9 fileCRLF)
      = Some (Some (str "h" ++ [LF] ++ str "a" ++ [LF] ++ str "b" ++ [LF]))
      /\ option_map blobText (exportFile [str "h"] TAB [0%nat] 7 fileCRLF)
         = Some (Some (str "h" ++ [LF; DQUOTE] ++ str "a" ++ [CR; DQUOTE; LF]
                       ++ str "b" ++ [LF]))
      /\ safeCuts TAB 7 fileCRLF = false)
  /\ (option_map blobText (exportFile [str "h"] COMMA [0%nat] 4 fileAccent)
      = Some (Some (str "h" ++ [LF; 233; LF]))
      /\ option_map blobText (exportFile [str "h"] COMMA [0%nat] 3 fileAccent)
         = Some (Some (str "h" ++ [LF; REPLACEMENT; REPLACEMENT; LF]))
      /\ option_map blobText (exportFile [str "h"] TAB [0%nat] 4 fileAccent)
         = Some (Some (str "h" ++ [LF; 233; LF]))
      /\ option_map blobText (exportFile [str "h"] TAB [0%nat] 3 fileAccent)
         = Some (Some (str "h" ++ [LF; REPLACEMENT; REPLACEMENT; LF]))
      /\ concat (windowTexts 3 fileAccent) <> removeBOM (decodeUTF8 fileAccent)).
Proof.
  repeat split; try (vm_compute; reflexivity).
  vm_compute. discriminate.
Qed.

(** C1, amended: for every window size and every input, on either path,
    when the windows decode alone (the texts of the windows, each decoded
    on its own, make up the text of the file: no character is cut by a
    window boundary, as in every file of ASCII bytes) and every cut of the
    run is safe (on the comma, pipe and semicolon path each piece but the
    last ends with a row terminator and holds an even number of double
    quotes, and the first of several pieces holds a row; on the tab path
    each piece but the last is cut at a line feed and does not end with a
    carriage return), the export over the windows downloads the header
    line and the output parts of the pieces, and these are the same output
    parts, hence the same bytes, as the export over the whole input in one
    window, also when a row or a quoted span straddles a window
    boundary. *)
Theorem exportFile_window_invariant headers delimiter sel chunkSize whole
    (file : blob) :
  In delimiter candidates ->
  0 < chunkSize ->
  sizeN file <= whole ->
  windowsDecodeAlone chunkSize file ->
  safeCuts delimiter chunkSize file = true ->
  exists o o',
    exportFile headers delimiter sel chunkSize file = Some o
    /\ exportFile headers delimiter sel whole file = Some o'
    /\ (sel <> [] ->
        download o
        = Some (headerLine headers sel
                :: emitAll (pathEmit headers delimiter sel)
                     (piecesOf delimiter chunkSize file)))
    /\ download o = download o'
    /\ blobText o = blobText o'.
Proof.
  intros Hd Hc Hwhole Hdec Hsafe.
  destruct sel as [|i sel].
  { do 2 eexists. repeat split; try reflexivity. intros H. congruence. }
  assert (Hsel : i :: sel <> []) by discriminate.
  destruct (exportFile_pieces headers delimiter (i :: sel) chunkSize file
              Hsel Hc) as (o & Ho & _ & Hdl).
  exists o.
  destruct file as [|c file].
  { eexists. split; [exact Ho|]. split; [reflexivity|].
    split; [intros _; exact Hdl|].
    assert (E : download o
                = Some (outputParts (exportStart headers (i :: sel))
                        ++ exportTail headers delimiter (i :: sel) [])).
    { rewrite Hdl, exportTail_nil. reflexivity. }
    split; [exact E|]. unfold blobText. now rewrite E. }
  assert (Hf : c :: file <> []) by discriminate.
  destruct (exportFile_single_window headers delimiter (i :: sel) whole (c :: file)
              Hsel Hf Hwhole) as (o' & Ho' & _ & Hd').
  exists o'. split; [exact Ho|]. split; [exact Ho'|].
  split; [intros _; exact Hdl|].
  assert (E : download o = download o').
  { rewrite Hdl, Hd'. unfold headerLine. do 2 f_equal.
    destruct (piecesOf_text delimiter chunkSize (c :: file) Hc Hf)
      as (Hglue & init & l & Hpieces).
    unfold safeCuts in Hsafe. apply andb_true_iff in Hsafe as [Hcuts Hfirst].
    rewrite Hpieces in *. rewrite removelast_last in Hcuts.
    unfold windowsDecodeAlone in Hdec.
    rewrite <- Hglue, map_app, concat_app in Hdec. cbn [map concat] in Hdec.
    change (glue (l, [])) with (l ++ []) in Hdec. rewrite !app_nil_r in Hdec.
    rewrite <- !Hdec.
    apply emitAll_safe; try assumption.
    apply Forall_forall. intros p Hp E.
    assert (Hall : Forall (fun p => snd p = []) (init ++ [(l, [])])).
    { rewrite <- Hpieces. unfold piecesOf, pathCut. rewrite E.
      apply cutsFrom_csvCut. }
    rewrite Forall_forall in Hall. apply Hall, in_or_app. now left. }
  split; [exact E|]. unfold blobText. now rewrite E.
Qed.

Lemma exportFile_window_invariant_witness :
  In COMMA candidates /\ 0 < 9 /\ sizeN fileThreeRows <= 17
  /\ windowsDecodeAlone 9 fileThreeRows
  /\ safeCuts COMMA 9 fileThreeRows = true
  /\ exists o o',
       exportFile [str "h"; str "k"] COMMA [1%nat] 9 fileThreeRows = Some o
       /\ exportFile [str "h"; str "k"] COMMA [1%nat] 17 fileThreeRows = Some o'
       /\ ([1%nat] <> [] ->
           download o
           = Some (headerLine [str "h"; str "k"] [1%nat]
                   :: emitAll (pathEmit [str "h"; str "k"] COMMA [1%nat])
                        (piecesOf COMMA 9 fileThreeRows)))
       /\ download o = download o'
       /\ blobText o = blobText o'.
Proof.
  assert (Hd : In COMMA candidates) by (left; reflexivity).
  assert (Hc : 0 < 9) by reflexivity.
  assert (Hs : sizeN fileThreeRows <= 17) by (vm_compute; congruence).
  assert (Hw : windowsDecodeAlone 9 fileThreeRows) by (vm_compute; reflexivity).
  assert (Hp : safeCuts COMMA 9 fileThreeRows = true) by (vm_compute; reflexivity).
  repeat (split; [assumption|]).
  apply (exportFile_window_invariant [str "h"; str "k"] COMMA [1%nat] 9 17
           fileThreeRows Hd Hc Hs Hw Hp).
Defined.

(** ** The header row *)

Lemma maxColumnsOf_fold (numColumns : nat) (rows : list (list jsstring)) :
  forall acc, (numColumns <= acc)%nat ->
    fold_left (fun maxColumns row =>
                 if (length row =? numColumns)%nat then maxColumns
                 else Nat.max maxColumns (length row))
              rows acc
    = Nat.max acc (list_max (map (@length jsstring) rows)).
Proof.
  induction rows as [|row rows IH]; intros acc Hacc; simpl.
  - lia.
  - destruct (length row =? numColumns)%nat eqn:E.
    + apply Nat.eqb_eq in E. rewrite IH by exact Hacc. lia.
    + rewrite IH by lia. lia.
Qed.

Lemma maxColumnsOf_max (numColumns : nat) (parsedLines : list (list jsstring)) :
  maxColumnsOf numColumns parsedLines
  = Nat.max numColumns
      (list_max (map (@length jsstring) (firstn 19 (tl parsedLines)))).
Proof. unfold maxColumnsOf. apply maxColumnsOf_fold. lia. Qed.

Lemma placeholders_length name (numColumns maxColumns : nat) :
  length (placeholders name numColumns maxColumns)
  = (maxColumns - numColumns)%nat.
Proof. unfold placeholders. now rewrite length_map, length_seq. Qed.

Lemma extendHeaders_app delimiter parsedLines :
  extendHeaders delimiter parsedLines
  = hd [] parsedLines ++ extraHeaders delimiter parsedLines.
Proof.
  unfold extendHeaders, extraHeaders. cbv zeta.
  destruct (length (hd [] parsedLines)
            <? maxColumnsOf (length (hd [] parsedLines)) parsedLines)%nat eqn:E.
  - destruct (delimiter =? TAB); reflexivity.
  - apply Nat.ltb_ge in E. unfold placeholders.
    replace (_ - _)%nat with 0%nat by lia.
    simpl. now rewrite app_nil_r.
Qed.

Lemma extendHeaders_length delimiter parsedLines :
  length (extendHeaders delimiter parsedLines)
  = Nat.max (length (hd [] parsedLines))
      (list_max (map (@length jsstring) (firstn 19 (tl parsedLines)))).
Proof.
  rewrite extendHeaders_app, length_app. unfold extraHeaders.
  rewrite placeholders_length, maxColumnsOf_max. lia.
Qed.

Lemma extendHeaders_idem delimiter parsedLines :
  extendHeaders delimiter (extendHeaders delimiter parsedLines :: tl parsedLines)
  = extendHeaders delimiter parsedLines.
Proof.
  rewrite (extendHeaders_app delimiter (_ :: _)).
  unfold extraHeaders, placeholders. cbn [hd].
  rewrite maxColumnsOf_max. cbn [tl].
  pose proof (extendHeaders_length delimiter parsedLines) as Hlen.
  replace (Nat.max _ _ - _)%nat with 0%nat by lia.
  simpl. apply app_nil_r.
Qed.

Lemma padValues_fits (headers values : list jsstring) :
  (length values <= length headers)%nat ->
  padValues headers values
  = values ++ repeat [] (length headers - length values).
Proof.
  intros H. unfold padValues.
  apply (nth_ext _ _ [] []).
  - rewrite length_map, length_seq, length_app, repeat_length. lia.
  - intros i Hi. rewrite length_map, length_seq in Hi.
    rewrite nth_map_seq by exact Hi.
    destruct (Nat.lt_ge_cases i (length values)) as [L | G].
    + now rewrite app_nth1.
    + rewrite app_nth2, nth_repeat by exact G. now apply nth_overflow.
Qed.

Lemma padValues_length (headers values : list jsstring) :
  length (padValues headers values) = length headers.
Proof. unfold padValues. now rewrite length_map, length_seq. Qed.

Lemma maxFields_bound (rawLines : list jsstring) :
  forall acc,
    let maxFields :=
      fold_left (fun m line =>
                   if nonEmpty line then Nat.max m (length (splitOn TAB line))
                   else m)
                rawLines acc in
    (acc <= maxFields)%nat
    /\ Forall (fun line =>
                 nonEmpty line = true ->
                 (length (splitOn TAB line) <= maxFields)%nat)
         rawLines.
Proof.
  induction rawLines as [|line rawLines IH]; intros acc; cbn [fold_left].
  - split; [lia | constructor].
  - cbv zeta in IH.
    destruct (IH (if nonEmpty line
                  then Nat.max acc (length (splitOn TAB line)) else acc))
      as (Hacc & Hall).
    split.
    + destruct (nonEmpty line); lia.
    + constructor; [|exact Hall].
      intros Hne. rewrite Hne in Hacc |- *. lia.
Qed.

(** The preview tokenizer of the tab path returns rows of one length. *)
Lemma parseTSVData_rectangular (text : jsstring) :
  exists maxFields,
    Forall (fun row => length row = maxFields) (parseTSVData text).
Proof.
  unfold parseTSVData. cbv zeta.
  destruct (maxFields_bound (splitLines text) 0%nat) as (_ & Hall).
  cbv zeta in Hall.
  exists (fold_left (fun m line =>
                       if nonEmpty line
                       then Nat.max m (length (splitOn TAB line)) else m)
                    (splitLines text) 0%nat).
  apply Forall_flat_map.
  eapply Forall_impl; [|exact Hall].
  intros line Hline. cbv beta in Hline.
  destruct (nonEmpty line); [|constructor].
  constructor; [|constructor].
  unfold padTo. rewrite length_app, repeat_length, length_map.
  specialize (Hline eq_refl). lia.
Qed.

Lemma firstn_subset {A : Type} (n : nat) (l : list A) (x : A) :
  In x (firstn n l) -> In x l.
Proof.
  intros H. rewrite <- (firstn_skipn n l). apply in_or_app. now left.
Qed.

Lemma extendHeaders_rectangular delimiter (parsedLines : list (list jsstring))
    (m : nat) :
  Forall (fun row => length row = m) parsedLines ->
  extendHeaders delimiter parsedLines = hd [] parsedLines.
Proof.
  intros Hall. rewrite extendHeaders_app. unfold extraHeaders, placeholders.
  rewrite maxColumnsOf_max.
  assert (Hmax : (list_max (map (@length jsstring) (firstn 19 (tl parsedLines)))
                  <= length (hd [] parsedLines))%nat).
  { destruct parsedLines as [|headers rows]; [simpl; lia|].
    inversion Hall as [|? ? Hh Hrows]. subst. cbn [hd tl].
    apply list_max_le, Forall_forall. intros n Hn.
    apply in_map_iff in Hn as (row & <- & Hrow).
    apply firstn_subset in Hrow.
    rewrite Forall_forall in Hrows. rewrite (Hrows row Hrow). lia. }
  replace (Nat.max _ _ - _)%nat with 0%nat by lia.
  simpl. apply app_nil_r.
Qed.

(** C6, as stated, fails: the file loads with the header a alone, its row
    x, y having two fields; the header is not extended, the padded row has
    one slot, and the export of every column writes x without y. *)
Lemma surplus_field_discarded_after_sample :
  handleFile fileLateWide = Loaded COMMA [str "a"]
  /\ last (parseCSVData (removeBOM (decodeUTF8 fileLateWide)) COMMA) [] = [str "x"; str "y"]
  /\ padValues [str "a"] [str "x"; str "y"] = [str "x"]
  /\ option_map (fun o => option_map (fun parts => last parts []) (download o))
       (exportFile [str "a"] COMMA [0%nat] CHUNK_SIZE fileLateWide)
     = Some (Some (str "x" ++ [LF])).
Proof. repeat split; vm_compute; reflexivity. Qed.

(** C6, amended: when a file is loaded the header is extended once, from
    the first 19 data rows of the preview: placeholder names are appended
    after the names of the file, which keep their positions, up to the
    largest field count among the header and those rows, however many of
    those rows are longer than the header; loading again with the extended
    header appends nothing.  Every field of a sampled row is then in reach
    of an index of the header and is kept when the row is padded for
    export.  The export pads every row to the length of the header and so
    drops the surplus fields of later, longer rows.  On the tab path the
    preview tokenizer has already padded every row, the header included, to
    the longest row of the preview, so that no name is appended there.  A
    comma file whose first two data rows each have one field more than its
    two-name header gets the one name Column_3. *)
Theorem extendHeaders_once delimiter parsedLines :
  let headers := hd [] parsedLines in
  let sampled := firstn 19 (tl parsedLines) in
  let extended := extendHeaders delimiter parsedLines in
  extended = headers ++ extraHeaders delimiter parsedLines
  /\ length extended
     = Nat.max (length headers) (list_max (map (@length jsstring) sampled))
  /\ extendHeaders delimiter (extended :: tl parsedLines) = extended
  /\ Forall (fun row =>
               (length row <= length extended)%nat
               /\ padValues extended row
                  = row ++ repeat [] (length extended - length row))
       sampled
  /\ (forall values, length (padValues extended values) = length extended)
  /\ (forall text,
        extendHeaders TAB (parseTSVData text) = hd [] (parseTSVData text))
  /\ handleFile fileTwoWide = Loaded COMMA [str "a"; str "b"; str "Column_3"].
Proof.
  intros headers sampled extended.
  assert (Hlen : length extended
                 = Nat.max (length headers)
                     (list_max (map (@length jsstring) sampled)))
    by apply extendHeaders_length.
  split; [apply extendHeaders_app|]. split; [exact Hlen|].
  split.
  { apply extendHeaders_idem. }
  split.
  { apply Forall_forall. intros row Hrow.
    assert (Hle : (length row <= length extended)%nat).
    { rewrite Hlen.
      assert (H : (length row <= list_max (map (@length jsstring) sampled))%nat).
      { pose proof (proj1 (list_max_le (map (@length jsstring) sampled)
                             (list_max (map (@length jsstring) sampled)))
                      (Nat.le_refl _)) as Hall.
        rewrite Forall_forall in Hall. apply Hall, in_map, Hrow. }
      lia. }
    split; [exact Hle | now apply padValues_fits]. }
  split; [intros; apply padValues_length|].
  split.
  { intros text. destruct (parseTSVData_rectangular text) as (m & Hm).
    apply (extendHeaders_rectangular TAB _ m Hm). }
  vm_compute. reflexivity.
Qed.

(** ** The tokenizer on the output of the encoder *)

Lemma comma_csv : In COMMA csvDelimiters.
Proof. now left. Qed.

Lemma grow_fits (cf : jsstring) (c : char) :
  sizeN cf < MAX_FIELD_SIZE -> grow cf c = cf ++ [c].
Proof.
  intros H. unfold grow. apply N.ltb_lt in H. now rewrite H.
Qed.

Lemma sizeN_app (u v : jsstring) : sizeN (u ++ v) = sizeN u + sizeN v.
Proof. unfold sizeN, jsstring, char. rewrite length_app. lia. Qed.

Lemma sizeN_cons (c : char) (v : jsstring) : sizeN (c :: v) = 1 + sizeN v.
Proof. unfold sizeN, jsstring, char. simpl length. lia. Qed.

(** Inside quotes the doubled quotes of a value are read back as the
    value, up to the closing quote. *)
Lemma parseCSVData_loop_quoted_value (v rest : jsstring) lines cl :
  nextIs DQUOTE rest = false ->
  forall cf, sizeN (cf ++ v) <= MAX_FIELD_SIZE ->
  parseCSVData_loop COMMA false (doubleQuotes v ++ DQUOTE :: rest)
    lines cl cf true
  = parseCSVData_loop COMMA false rest lines cl (cf ++ v) false.
Proof.
  intros Hrest. induction v as [|c v IH]; intros cf Hsize.
  - simpl app. rewrite parseCSVData_loop_quote, app_nil_r.
    destruct rest as [|c' rest']; [reflexivity|].
    simpl in Hrest. now rewrite Hrest.
  - unfold doubleQuotes. simpl flat_map. fold (doubleQuotes v).
    assert (Hnext : sizeN ((cf ++ [c]) ++ v) <= MAX_FIELD_SIZE).
    { rewrite <- app_assoc. exact Hsize. }
    destruct (c =? DQUOTE) eqn:Ec.
    + apply N.eqb_eq in Ec. subst c. simpl app.
      rewrite parseCSVData_loop_quote.
      change (DQUOTE =? DQUOTE) with true. cbv iota.
      rewrite (IH (cf ++ [DQUOTE]) Hnext), <- app_assoc. reflexivity.
    + simpl app. rewrite (parseCSVData_loop_inside COMMA c _ lines cl cf Ec).
      rewrite grow_fits.
      * rewrite (IH (cf ++ [c]) Hnext), <- app_assoc. reflexivity.
      * rewrite sizeN_app, sizeN_cons in Hsize. lia.
Qed.

(** Outside quotes a value without comma, quote or row terminator is read
    as it stands. *)
Lemma parseCSVData_loop_plain_value (v rest : jsstring) lines cl :
  includes COMMA v = false -> includes DQUOTE v = false ->
  includes LF v = false -> includes CR v = false ->
  forall cf, sizeN (cf ++ v) <= MAX_FIELD_SIZE ->
  parseCSVData_loop COMMA false (v ++ rest) lines cl cf false
  = parseCSVData_loop COMMA false rest lines cl (cf ++ v) false.
Proof.
  induction v as [|c v IH]; intros Hc Hq Hl Hr cf Hsize.
  - now rewrite app_nil_r.
  - unfold includes in Hc, Hq, Hl, Hr. simpl existsb in Hc, Hq, Hl, Hr.
    apply orb_false_elim in Hc, Hq, Hl, Hr.
    destruct Hc as [Hc Hc'], Hq as [Hq Hq'], Hl as [Hl Hl'], Hr as [Hr Hr'].
    rewrite N.eqb_sym in Hc, Hq, Hl, Hr.
    simpl app. rewrite parseCSVData_loop_outside.
    + rewrite Hc, grow_fits.
      * rewrite (IH Hc' Hq' Hl' Hr' (cf ++ [c])), <- app_assoc;
          [reflexivity | now rewrite <- app_assoc].
      * rewrite sizeN_app, sizeN_cons in Hsize. lia.
    + exact Hq.
    + unfold isTerminator. now rewrite Hl, Hr.
Qed.

(** One encoded field is read back as the value it encodes. *)
Lemma parseCSVData_loop_field (value : option jsstring) (rest : jsstring)
    lines cl :
  nextIs DQUOTE rest = false -> fitsField (valueOf value) ->
  parseCSVData_loop COMMA false (formatCSVField value ++ rest) lines cl [] false
  = parseCSVData_loop COMMA false rest lines cl (valueOf value) false.
Proof.
  intros Hrest Hfit. destruct value as [v|]; [|reflexivity].
  unfold formatCSVField. cbv zeta. simpl valueOf in *.
  destruct (includes COMMA v || includes DQUOTE v || includes LF v
            || includes CR v || startsWith SPACE v || endsWith SPACE v) eqn:E.
  - change ((DQUOTE :: doubleQuotes v ++ [DQUOTE]) ++ rest)
      with (DQUOTE :: ((doubleQuotes v ++ [DQUOTE]) ++ rest)).
    rewrite <- app_assoc. simpl app at 2.
    rewrite parseCSVData_loop_quote. cbv iota. simpl negb.
    apply (parseCSVData_loop_quoted_value v rest lines cl Hrest []).
    exact Hfit.
  - repeat (apply orb_false_elim in E; destruct E as [E ?]).
    now apply (parseCSVData_loop_plain_value v rest lines cl).
Qed.

(** One encoded row followed by a line feed is read back as one row. *)
Lemma parseCSVData_loop_row (values : list (option jsstring))
    (rest : jsstring) lines :
  Forall (fun v => fitsField (valueOf v)) values ->
  forall cl, (values = [] -> cl = []) ->
  parseCSVData_loop COMMA false (formatCSVLine values ++ LF :: rest)
    lines cl [] false
  = parseCSVData_loop COMMA false rest
      (pushLine lines (cl ++ map valueOf values)) [] [] false.
Proof.
  assert (Hend : forall lines' cl cf,
    parseCSVData_loop COMMA false (LF :: rest) lines' cl cf false
    = parseCSVData_loop COMMA false rest (pushLine lines' (cl ++ [cf]))
        [] [] false).
  { intros lines' cl cf.
    rewrite (parseCSVData_loop_terminator COMMA comma_csv) by reflexivity.
    destruct rest as [|c' rest']; [|reflexivity].
    simpl. unfold pushLine at 1. reflexivity. }
  unfold formatCSVLine.
  induction values as [|v values IH]; intros Hfit cl Hcl.
  - rewrite (Hcl eq_refl). simpl app. rewrite Hend. reflexivity.
  - apply Forall_cons_iff in Hfit. destruct Hfit as [Hv Hfit].
    destruct values as [|v' values'].
    + simpl map. simpl join.
      rewrite (parseCSVData_loop_field v (LF :: rest) lines cl eq_refl Hv).
      apply Hend.
    + change (join COMMA (map formatCSVField (v :: v' :: values')))
        with (formatCSVField v
              ++ COMMA :: join COMMA (map formatCSVField (v' :: values'))).
      rewrite <- app_assoc, <- app_comm_cons.
      rewrite parseCSVData_loop_field; [|reflexivity|exact Hv].
      rewrite parseCSVData_loop_outside by reflexivity.
      change (COMMA =? COMMA) with true. cbv iota.
      rewrite (IH Hfit (cl ++ [valueOf v])) by discriminate.
      rewrite <- app_assoc. reflexivity.
Qed.

Lemma parseCSVData_loop_rows (rows : list (list (option jsstring))) :
  Forall (Forall (fun v => fitsField (valueOf v))) rows ->
  forall lines,
  parseCSVData_loop COMMA false
    (concat (map (fun values => formatCSVLine values ++ [LF]) rows))
    lines [] [] false
  = lines ++ filter keepLine (map (map valueOf) rows).
Proof.
  induction rows as [|values rows IH]; intros Hfit lines.
  - simpl. now rewrite app_nil_r.
  - apply Forall_cons_iff in Hfit. destruct Hfit as [Hv Hfit].
    simpl concat. simpl map. rewrite <- app_assoc. simpl app at 2.
    rewrite (parseCSVData_loop_row values _ lines Hv []) by reflexivity.
    rewrite (IH Hfit). simpl app. simpl filter. unfold pushLine.
    destruct (keepLine (map valueOf values)).
    + now rewrite <- app_assoc.
    + reflexivity.
Qed.

(** X1: the tokenizer undoes the encoder on whole rows.  When every value
    has at most [MAX_FIELD_SIZE] characters, the text made of the encoded
    rows, each followed by a line feed, is tokenized with the comma into
    the rows of values, in order, without the blank rows (a row with no
    value or with a single empty value): quoting, doubled quotes, commas
    and line breaks inside values, and spaces at the ends of values all
    come back unchanged, and [null] comes back as the empty string. *)
Theorem parseCSVData_formatCSVLine_rows
    (rows : list (list (option jsstring))) :
  Forall (Forall (fun v => fitsField (valueOf v))) rows ->
  parseCSVData (concat (map (fun values => formatCSVLine values ++ [LF]) rows))
               COMMA
  = filter keepLine (map (map valueOf) rows).
Proof.
  intros Hfit. unfold parseCSVData. change (COMMA =? TAB) with false.
  now rewrite (parseCSVData_loop_rows rows Hfit []).
Qed.

Lemma parseCSVData_formatCSVLine_rows_witness :
  parseCSVData
    (concat (map (fun values => formatCSVLine values ++ [LF])
       [[Some (str "a,b"); None]; [Some []]; [Some [DQUOTE; LF]; Some (str " x")]]))
    COMMA
  = [[str "a,b"; []]; [[DQUOTE; LF]; str " x"]].
Proof.
  apply (parseCSVData_formatCSVLine_rows
    [[Some (str "a,b"); None]; [Some []]; [Some [DQUOTE; LF]; Some (str " x")]]).
  repeat constructor; vm_compute; discriminate.
Defined.

(** ** Stripping the quotes of a tab-separated field *)

Lemma undoubleQuotes_doubleQuotes (v : jsstring) :
  undoubleQuotes (doubleQuotes v) = v.
Proof.
  induction v as [|c v IH]; [reflexivity|].
  unfold doubleQuotes. simpl flat_map. fold (doubleQuotes v).
  destruct (c =? DQUOTE) eqn:Ec.
  - apply N.eqb_eq in Ec. subst c. simpl. now rewrite IH.
  - simpl app. simpl undoubleQuotes. rewrite Ec. simpl andb.
    destruct (doubleQuotes v) eqn:Ed.
    + simpl in IH. now rewrite <- IH.
    + now rewrite IH.
Qed.

(** X2: the callback that strips the quotes of a tab-separated field undoes
    the encoder on every value: whatever the encoder writes for a value,
    quoted or not, is read back as that value. *)
Theorem unquoteField_formatCSVField (value : option jsstring) :
  unquoteField (formatCSVField value) = valueOf value.
Proof.
  destruct value as [v|]; [|reflexivity].
  unfold formatCSVField. cbv zeta. simpl valueOf.
  destruct (includes COMMA v || includes DQUOTE v || includes LF v
            || includes CR v || startsWith SPACE v || endsWith SPACE v) eqn:E.
  - unfold unquoteField.
    assert (Hends : endsWith DQUOTE (DQUOTE :: doubleQuotes v ++ [DQUOTE]) = true).
    { apply endsWith_spec. now exists (DQUOTE :: doubleQuotes v). }
    rewrite Hends.
    assert (Hlen : (2 <=? length (DQUOTE :: doubleQuotes v ++ [DQUOTE]))%nat = true).
    { apply Nat.leb_le. simpl. rewrite length_app. simpl. lia. }
    rewrite Hlen. simpl. unfold sliceInner. simpl tl.
    rewrite removelast_last. apply undoubleQuotes_doubleQuotes.
  - repeat (apply orb_false_elim in E; destruct E as [E ?]).
    unfold unquoteField.
    destruct (startsWith DQUOTE v) eqn:Es.
    + apply startsWith_spec in Es. destruct Es as (t & ->).
      match goal with H : includes DQUOTE _ = false |- _ =>
        unfold includes in H; simpl in H; discriminate H end.
    + now rewrite andb_false_r.
Qed.

(** ** What every row of the tokenizer satisfies *)

Lemma pushLine_kept (lines : list (list jsstring)) (row : list jsstring) :
  Forall (fun r => keepLine r = true) lines ->
  Forall (fun r => keepLine r = true) (pushLine lines row).
Proof.
  intros H. unfold pushLine. destruct (keepLine row) eqn:K; [|exact H].
  apply Forall_app. split; [exact H|]. now constructor.
Qed.

Lemma parseCSVData_loop_kept (delimiter : char) (isTSV : bool)
    (text : jsstring) :
  forall lines currentLine currentField inQuotes,
    Forall (fun r => keepLine r = true) lines ->
    Forall (fun r => keepLine r = true)
      (parseCSVData_loop delimiter isTSV text lines currentLine currentField
         inQuotes).
Proof.
  wf_text_induction text IH.
  intros lines cl cf q H.
  destruct text as [|c rest]; simpl.
  - apply pushLine_kept, H.
  - assert (Hrest : forall l cl' cf' q', Forall (fun r => keepLine r = true) l ->
      Forall (fun r => keepLine r = true)
        (parseCSVData_loop delimiter isTSV rest l cl' cf' q')).
    { intros. apply IH; [shorter | assumption]. }
    assert (Hrest' : forall c' rest', rest = c' :: rest' ->
      forall l cl' cf' q', Forall (fun r => keepLine r = true) l ->
      Forall (fun r => keepLine r = true)
        (parseCSVData_loop delimiter isTSV rest' l cl' cf' q')).
    { intros c' rest' -> l cl' cf' q' Hl. apply IH; [shorter | assumption]. }
    destruct (negb isTSV && (c =? DQUOTE)).
    { destruct q; [|now apply Hrest].
      destruct rest as [|c' rest'] eqn:R; [now apply Hrest|].
      destruct (c' =? DQUOTE); [|now apply Hrest].
      now apply (Hrest' c' rest' eq_refl). }
    destruct (isTSV && (c =? DQUOTE)).
    { destruct (negb (nonEmpty cf) && negb (nextIs delimiter rest)
                && negb (nextIs LF rest) && negb (nextIs CR rest));
        [now apply Hrest|].
      destruct (q && (nextIs delimiter rest || nextIs LF rest
                      || nextIs CR rest || negb (nonEmpty rest)));
        [now apply Hrest|].
      destruct q; [|now apply Hrest].
      destruct rest as [|c' rest'] eqn:R; [now apply Hrest|].
      destruct (c' =? DQUOTE); [|now apply Hrest].
      now apply (Hrest' c' rest' eq_refl). }
    destruct ((c =? delimiter) && negb q); [now apply Hrest|].
    destruct (((c =? LF) || (c =? CR)) && negb q); [|now apply Hrest].
    destruct rest as [|c' rest'] eqn:R.
    + apply Hrest. now apply pushLine_kept.
    + destruct ((c =? CR) && (c' =? LF)).
      * apply (Hrest' c' rest' eq_refl). now apply pushLine_kept.
      * apply Hrest. now apply pushLine_kept.
Qed.

(** X3: the tokenizer never returns a blank row.  Whatever the text and the
    delimiter, every row of [parseCSVData] has two fields or more, or one
    field that is not the empty string: blank lines, in any number and
    with either line ending, leave no row behind. *)
Theorem parseCSVData_no_blank_row (text : jsstring) (delimiter : char) :
  Forall (fun row => keepLine row = true) (parseCSVData text delimiter).
Proof. apply parseCSVData_loop_kept. constructor. Qed.

Lemma pushLine_fit (lines : list (list jsstring)) (row : list jsstring) :
  Forall fieldsFit lines -> fieldsFit row ->
  Forall fieldsFit (pushLine lines row).
Proof.
  intros H Hr. unfold pushLine. destruct (keepLine row); [|exact H].
  apply Forall_app. split; [exact H|]. now constructor.
Qed.

Lemma fieldsFit_snoc (cl : list jsstring) (cf : jsstring) :
  fieldsFit cl -> fitsField cf -> fieldsFit (cl ++ [cf]).
Proof.
  intros Hcl Hcf. apply Forall_app. split; [exact Hcl | now constructor].
Qed.

Lemma fitsField_nil : fitsField [].
Proof. unfold fitsField, sizeN. simpl. discriminate. Qed.

Lemma fitsField_grow (cf : jsstring) (c : char) :
  fitsField cf ->
  fitsField (if sizeN cf <? MAX_FIELD_SIZE then cf ++ [c] else cf).
Proof.
  intros H. destruct (sizeN cf <? MAX_FIELD_SIZE) eqn:E; [|exact H].
  apply N.ltb_lt in E. unfold fitsField. rewrite sizeN_app.
  unfold sizeN at 2. simpl length. lia.
Qed.

Lemma includes_cons_false (c x : char) (rest : jsstring) :
  includes c (x :: rest) = false -> (x =? c) = false /\ includes c rest = false.
Proof.
  unfold includes. simpl existsb. intros H.
  apply orb_false_elim in H. destruct H as [H1 H2].
  rewrite N.eqb_sym in H1. now split.
Qed.

Lemma parseCSVData_loop_fit (delimiter : char) (isTSV : bool)
    (text : jsstring) :
  includes DQUOTE text = false ->
  forall lines cl cf q,
    Forall fieldsFit lines -> fieldsFit cl -> fitsField cf ->
    Forall fieldsFit (parseCSVData_loop delimiter isTSV text lines cl cf q).
Proof.
  wf_text_induction text IH.
  intros Hq lines cl cf q Hl Hcl Hcf.
  destruct text as [|c rest].
  - simpl. apply pushLine_fit; [exact Hl|].
    destruct (nonEmpty cf || negb (length cl =? 0)%nat);
      [now apply fieldsFit_snoc | exact Hcl].
  - apply includes_cons_false in Hq. destruct Hq as [Hc Hq].
    assert (Hrest : forall l cl' cf' q',
      Forall fieldsFit l -> fieldsFit cl' -> fitsField cf' ->
      Forall fieldsFit (parseCSVData_loop delimiter isTSV rest l cl' cf' q')).
    { intros. apply IH; [shorter | assumption ..]. }
    simpl. rewrite Hc, !andb_false_r.
    destruct ((c =? delimiter) && negb q).
    { apply Hrest; [exact Hl | now apply fieldsFit_snoc | apply fitsField_nil]. }
    destruct (((c =? LF) || (c =? CR)) && negb q).
    { assert (Hp : Forall fieldsFit (pushLine lines (cl ++ [cf]))).
      { apply pushLine_fit; [exact Hl | now apply fieldsFit_snoc]. }
      destruct rest as [|c' rest'].
      - apply Hrest; [exact Hp | constructor | apply fitsField_nil].
      - destruct ((c =? CR) && (c' =? LF)).
        + apply includes_cons_false in Hq. destruct Hq as [_ Hq'].
          apply IH; [shorter | exact Hq' | exact Hp | constructor
                    | apply fitsField_nil].
        + apply Hrest; [exact Hp | constructor | apply fitsField_nil]. }
    apply Hrest; [exact Hl | exact Hcl | now apply fitsField_grow].
Qed.

(** X4: the bound on the size of a field.  In a text without double quote,
    whatever the delimiter, no field of a row of [parseCSVData] has more
    than [MAX_FIELD_SIZE] characters: the characters of a longer field are
    dropped from the 1,000,001st on. *)
Theorem parseCSVData_field_bound (text : jsstring) (delimiter : char) :
  includes DQUOTE text = false ->
  Forall (Forall (fun field => sizeN field <= MAX_FIELD_SIZE))
         (parseCSVData text delimiter).
Proof.
  intros Hq. apply (parseCSVData_loop_fit delimiter _ text Hq);
    [constructor | constructor | apply fitsField_nil].
Qed.

Lemma parseCSVData_field_bound_witness :
  Forall (Forall (fun field => sizeN field <= MAX_FIELD_SIZE))
         (parseCSVData (str "a;b") SEMICOLON).
Proof.
  apply (parseCSVData_field_bound (str "a;b") SEMICOLON). reflexivity.
Defined.

(** ** The line feed at the end of a text *)

Lemma parseCSVData_loop_end (delimiter : char) lines cl cf :
  In delimiter csvDelimiters ->
  parseCSVData_loop delimiter false [LF] lines cl cf false
  = parseCSVData_loop delimiter false [] lines cl cf false.
Proof.
  intros Hd.
  rewrite (parseCSVData_loop_terminator delimiter Hd) by reflexivity.
  simpl. destruct cf as [|x cf']; [|reflexivity].
  destruct cl as [|f cl']; reflexivity.
Qed.

Lemma parseCSVData_loop_final_LF (delimiter : char) (text : jsstring) :
  In delimiter csvDelimiters ->
  forall lines cl cf q,
    xorb q (Nat.odd (quotesIn text)) = false ->
    parseCSVData_loop delimiter false (text ++ [LF]) lines cl cf q
    = parseCSVData_loop delimiter false text lines cl cf q.
Proof.
  intros Hd. wf_text_induction text IH.
  intros lines cl cf q Hpar.
  destruct text as [|c rest].
  - destruct q; [discriminate Hpar|]. now apply parseCSVData_loop_end.
  - rewrite quotesIn_cons in Hpar. rewrite <- app_comm_cons.
    destruct (c =? DQUOTE) eqn:Ec.
    + apply N.eqb_eq in Ec. subst c. rewrite odd_S in Hpar.
      rewrite !parseCSVData_loop_quote.
      destruct q.
      * destruct rest as [|c' rest'].
        -- simpl app. change (LF =? DQUOTE) with false. cbv iota.
           now apply parseCSVData_loop_end.
        -- rewrite <- app_comm_cons. destruct (c' =? DQUOTE) eqn:Ec'.
           ++ apply IH; [shorter|].
              rewrite quotesIn_cons, Ec', odd_S in Hpar.
              now destruct (Nat.odd (quotesIn rest')).
           ++ rewrite app_comm_cons. apply IH; [shorter|].
              now destruct (Nat.odd (quotesIn (c' :: rest'))).
      * cbv iota. apply IH; [shorter|].
        now destruct (Nat.odd (quotesIn rest)).
    + destruct q.
      * rewrite !(parseCSVData_loop_inside delimiter c) by exact Ec.
        apply IH; [shorter | exact Hpar].
      * destruct (isTerminator c) eqn:Et.
        -- rewrite !(parseCSVData_loop_terminator delimiter Hd c)
             by assumption.
           destruct rest as [|c' rest'].
           ++ simpl app.
              replace ((c =? CR) && (LF =? LF)) with (c =? CR)
                by (now rewrite andb_true_r).
              destruct (c =? CR).
              ** reflexivity.
              ** rewrite (parseCSVData_loop_terminator delimiter Hd)
                   by reflexivity.
                 reflexivity.
           ++ rewrite <- app_comm_cons.
              destruct ((c =? CR) && (c' =? LF)) eqn:Ecr.
              ** apply IH; [shorter|].
                 apply andb_prop in Ecr. destruct Ecr as [_ Ec'].
                 apply N.eqb_eq in Ec'. subst c'.
                 rewrite quotesIn_cons in Hpar. exact Hpar.
              ** rewrite app_comm_cons. apply IH; [shorter | exact Hpar].
        -- rewrite !(parseCSVData_loop_outside delimiter c) by assumption.
           destruct (c =? delimiter); (apply IH; [shorter | exact Hpar]).
Qed.

(** X5: the line feed at the end of the text is optional.  For a comma,
    pipe or semicolon delimiter and a text with an even number of double
    quotes (every quoted field is closed), [parseCSVData] returns the same
    rows for the text and for the text followed by one line feed: the last
    row is found whether or not it is terminated. *)
Theorem parseCSVData_final_line_feed (text : jsstring) (delimiter : char) :
  In delimiter csvDelimiters ->
  Nat.even (quotesIn text) = true ->
  parseCSVData (text ++ [LF]) delimiter = parseCSVData text delimiter.
Proof.
  intros Hd Heven. unfold parseCSVData.
  rewrite (delimiter_not_tab delimiter Hd).
  apply (parseCSVData_loop_final_LF delimiter text Hd).
  rewrite <- Nat.negb_even, Heven. reflexivity.
Qed.

Lemma parseCSVData_final_line_feed_witness :
  parseCSVData (heSaidEncoded ++ [LF]) COMMA = parseCSVData heSaidEncoded COMMA.
Proof.
  apply (parseCSVData_final_line_feed heSaidEncoded COMMA).
  - now left.
  - reflexivity.
Defined.

(** ** The tokenizer and the line parser on one line *)

Lemma legacy_parseCSVLine_loop_nonempty (delimiter : char) (line : jsstring) :
  forall result current q,
    Legacy.parseCSVLine_loop delimiter line result current q <> [].
Proof.
  wf_text_induction line IH.
  intros result current q.
  destruct line as [|c rest]; simpl.
  - now destruct result.
  - destruct (c =? DQUOTE).
    + destruct q; [|apply IH; shorter].
      destruct rest as [|c' rest']; [apply IH; shorter|].
      destruct (c' =? DQUOTE); apply IH; shorter.
    + destruct ((c =? delimiter) && negb q); apply IH; shorter.
Qed.

Lemma parseCSVData_loop_line (delimiter : char) (line : jsstring) :
  In delimiter csvDelimiters ->
  includes LF line = false -> includes CR line = false ->
  forall lines cl (cf : jsstring) q,
    sizeN cf + sizeN line <= MAX_FIELD_SIZE ->
    parseCSVData_loop delimiter false line lines cl cf q
    = pushLine lines (Legacy.parseCSVLine_loop delimiter line cl cf q).
Proof.
  intros Hd. wf_text_induction line IH.
  intros Hlf Hcr lines cl cf q Hsize.
  destruct line as [|c rest].
  - simpl. destruct cf as [|x cf']; [|reflexivity].
    destruct cl as [|f cl']; reflexivity.
  - apply includes_cons_false in Hlf, Hcr.
    destruct Hlf as [Hlf Hlf'], Hcr as [Hcr Hcr'].
    rewrite sizeN_cons in Hsize.
    assert (Hrest : forall l cl' (cf' : jsstring) q',
      sizeN cf' <= sizeN cf + 1 ->
      parseCSVData_loop delimiter false rest l cl' cf' q'
      = pushLine l (Legacy.parseCSVLine_loop delimiter rest cl' cf' q')).
    { intros. apply IH; [shorter | assumption | assumption | lia]. }
    assert (Hsnoc : forall x, sizeN (cf ++ [x]) = sizeN cf + 1).
    { intros x. rewrite sizeN_app. reflexivity. }
    destruct (c =? DQUOTE) eqn:Ec.
    + apply N.eqb_eq in Ec. subst c. rewrite parseCSVData_loop_quote.
      simpl Legacy.parseCSVLine_loop. change (DQUOTE =? DQUOTE) with true.
      cbv iota.
      destruct q; [|apply Hrest; lia].
      destruct rest as [|c' rest']; [apply Hrest; lia|].
      destruct (c' =? DQUOTE); [|apply Hrest; lia].
      apply includes_cons_false in Hlf', Hcr'.
      rewrite sizeN_cons in Hsize.
      apply IH; [shorter | apply Hlf' | apply Hcr' | rewrite Hsnoc; lia].
    + simpl Legacy.parseCSVLine_loop. rewrite Ec.
      destruct q.
      * rewrite (parseCSVData_loop_inside delimiter c) by exact Ec.
        rewrite andb_false_r, grow_fits by lia.
        apply Hrest. rewrite Hsnoc. lia.
      * rewrite (parseCSVData_loop_outside delimiter c);
          [|exact Ec | unfold isTerminator; now rewrite Hlf, Hcr].
        rewrite andb_true_r.
        destruct (c =? delimiter).
        -- apply Hrest. unfold sizeN. simpl. lia.
        -- rewrite grow_fits by lia. apply Hrest. rewrite Hsnoc. lia.
Qed.

(** X6: on one line the line parser and the tokenizer agree.  For a comma,
    pipe or semicolon delimiter and a line of at most [MAX_FIELD_SIZE]
    characters without line feed or carriage return, [parseCSVData] returns
    at most one row, and [parseCSVLine] returns the fields of that row,
    each trimmed (the single empty field when there is no row). *)
Theorem parseCSVLine_parseCSVData (line : jsstring) (delimiter : char) :
  In delimiter csvDelimiters ->
  includes LF line = false -> includes CR line = false ->
  sizeN line <= MAX_FIELD_SIZE ->
  (length (parseCSVData line delimiter) <= 1)%nat
  /\ parseCSVLine line delimiter
     = map trim (hd [[]] (parseCSVData line delimiter)).
Proof.
  intros Hd Hlf Hcr Hsize.
  unfold parseCSVData. rewrite (delimiter_not_tab delimiter Hd).
  rewrite (parseCSVData_loop_line delimiter line Hd Hlf Hcr [] [] [] false)
    by exact Hsize.
  unfold parseCSVLine.
  assert (Ht := parseCSVLine_loop_trims delimiter line [] [] false).
  simpl map in Ht. rewrite Ht. clear Ht.
  pose proof (legacy_parseCSVLine_loop_nonempty delimiter line [] [] false)
    as Hne.
  unfold pushLine.
  destruct (Legacy.parseCSVLine_loop delimiter line [] [] false)
    as [|f [|g row]].
  - now elim Hne.
  - simpl. destruct f as [|x f']; simpl; split; try lia; reflexivity.
  - simpl. split; [lia | reflexivity].
Qed.

Lemma parseCSVLine_parseCSVData_witness :
  (length (parseCSVData heSaidEncoded COMMA) <= 1)%nat
  /\ parseCSVLine heSaidEncoded COMMA
     = map trim (hd [[]] (parseCSVData heSaidEncoded COMMA)).
Proof.
  apply (parseCSVLine_parseCSVData heSaidEncoded COMMA).
  - now left.
  - reflexivity.
  - reflexivity.
  - vm_compute. discriminate.
Defined.

(** ** The rows of the tab tokenizer *)

Lemma splitOn_from_length (sep : char) (s : jsstring) :
  forall cur, (1 <= length (splitOn_from sep cur s))%nat.
Proof.
  induction s as [|c rest IH]; intros cur; simpl; [lia|].
  destruct (c =? sep); [simpl; lia | apply IH].
Qed.

Lemma flat_map_filter_map {A B : Type} (p : A -> bool) (f : A -> B)
    (l : list A) :
  flat_map (fun x => if p x then [f x] else []) l = map f (filter p l).
Proof.
  induction l as [|x l IH]; [reflexivity|].
  simpl. destruct (p x); simpl; now rewrite IH.
Qed.

Lemma maxFields_list_max (rawLines : list jsstring) :
  forall m,
    fold_left (fun m line =>
                 if nonEmpty line
                 then Nat.max m (length (splitOn TAB line)) else m)
              rawLines m
    = Nat.max m (list_max (map (fun line => length (splitOn TAB line))
                             (filter nonEmpty rawLines))).
Proof.
  induction rawLines as [|line rawLines IH]; intros m.
  - simpl. lia.
  - cbn [fold_left filter]. rewrite IH. destruct (nonEmpty line).
    + cbn [map list_max fold_right]. unfold list_max. lia.
    + reflexivity.
Qed.

(** X7: the rows of the tab tokenizer form a rectangle.  [parseTSVData]
    returns one row for every non-empty line of the text, in order (lines
    are separated by a line feed or by a carriage return and a line feed);
    the row holds the tab-separated pieces of the line, each without its
    enclosing quotes, followed by empty strings up to [maxFields], which
    is the largest number of pieces of a non-empty line (0 when there is
    none): all the rows have [maxFields] fields, one at least, no line has
    more pieces, and some line has as many when there is a row. *)
Theorem parseTSVData_rows (text : jsstring) :
  exists maxFields,
    maxFields
    = list_max (map (fun line => length (splitOn TAB line))
                  (filter nonEmpty (splitLines text)))
    /\ parseTSVData text
       = map (fun line => padTo maxFields (map unquoteField (splitOn TAB line)))
             (filter nonEmpty (splitLines text))
    /\ Forall (fun row => length row = maxFields) (parseTSVData text)
    /\ Forall (fun line => (length (splitOn TAB line) <= maxFields)%nat)
         (filter nonEmpty (splitLines text))
    /\ (parseTSVData text <> [] ->
        (1 <= maxFields)%nat
        /\ exists line,
             In line (filter nonEmpty (splitLines text))
             /\ length (splitOn TAB line) = maxFields).
Proof.
  unfold parseTSVData. cbv zeta.
  rewrite (maxFields_list_max (splitLines text) 0%nat). cbn [Nat.max].
  set (pieces := map (fun line => length (splitOn TAB line))
                   (filter nonEmpty (splitLines text))).
  set (maxFields := list_max pieces).
  exists maxFields. split; [reflexivity|].
  rewrite (flat_map_filter_map nonEmpty
             (fun line => padTo maxFields (map unquoteField (splitOn TAB line)))).
  assert (Hfit : Forall (fun line => (length (splitOn TAB line) <= maxFields)%nat)
                   (filter nonEmpty (splitLines text))).
  { pose proof (proj1 (list_max_le pieces maxFields) (Nat.le_refl _)) as Hall.
    unfold pieces in Hall. rewrite Forall_map in Hall. exact Hall. }
  split; [reflexivity|]. split; [|split; [exact Hfit|]].
  - apply Forall_map. eapply Forall_impl; [|exact Hfit].
    intros line Hline. cbv beta in Hline |- *.
    unfold padTo. rewrite length_app, repeat_length, length_map. lia.
  - intros Hrows.
    assert (Hne : pieces <> []).
    { unfold pieces. destruct (filter nonEmpty (splitLines text));
        [now elim Hrows | discriminate]. }
    assert (Hin : In maxFields pieces).
    { clear -Hne. unfold maxFields. induction pieces as [|x l IH]; [congruence|].
      destruct l as [|y l'].
      - left. simpl. lia.
      - assert (Hl : y :: l' <> []) by discriminate.
        specialize (IH Hl).
        change (list_max (x :: y :: l')) with (Nat.max x (list_max (y :: l'))).
        destruct (Nat.max_spec x (list_max (y :: l'))) as [[_ ->] | [_ ->]].
        + right. exact IH.
        + now left. }
    unfold pieces in Hin. apply in_map_iff in Hin as (line & Hlen & Hline).
    split.
    + rewrite <- Hlen. unfold splitOn. apply splitOn_from_length.
    + now exists line.
Qed.

(** ** Padding a row to the width of the header *)

(** X8: the three padding loops of the export do the same thing.  The row
    handed to the column selection has exactly as many fields as the
    header: the first fields of the parsed row, those past the width of
    the header being dropped, followed by empty strings when the row is
    shorter.  This holds for the loop of the comma path ([padValues]),
    for the loop of the tab path inside the chunk loop ([padValuesTSV])
    and for the loop of the tab path on the trailing text. *)
Theorem padValues_cuts_and_fills (headers values : list jsstring) :
  padValues headers values
  = firstn (length headers) values
    ++ repeat [] (length headers - length values)
  /\ padValuesTSV headers values = padValues headers values
  /\ map (fun j => if (j <? length values)%nat then nth j values [] else [])
         (seq 0 (length headers))
     = padValues headers values.
Proof.
  split; [|split].
  - unfold padValues. apply (nth_ext _ _ [] []).
    + rewrite length_map, length_seq, length_app, repeat_length,
        length_firstn. lia.
    + intros i Hi. rewrite length_map, length_seq in Hi.
      rewrite nth_map_seq by exact Hi.
      destruct (Nat.lt_ge_cases i (length values)) as [L | G].
      * rewrite app_nth1 by (rewrite length_firstn; lia).
        rewrite nth_firstn.
        apply Nat.ltb_lt in Hi. now rewrite Hi.
      * rewrite app_nth2 by (rewrite length_firstn; lia).
        rewrite nth_repeat. now apply nth_overflow.
  - apply padValuesTSV_padValues.
  - unfold padValues. apply map_ext. intros j.
    destruct (j <? length values)%nat eqn:E; [reflexivity|].
    apply Nat.ltb_ge in E. symmetry. now apply nth_overflow.
Qed.

(** ** Loading a file *)

Lemma detectDelimiter_candidate (text : jsstring) :
  In (detectDelimiter text) candidates.
Proof.
  destruct (detectDelimiter_scored text) as (s & [[E _] | H]).
  - inversion E as [Hd]. now left.
  - destruct H as (pre & post & Hsplit & _). cbn [fst] in Hsplit.
    rewrite Hsplit. apply in_or_app. right. now left.
Qed.

Lemma parseTSVData_nonempty (text : jsstring) :
  Forall (fun row => row <> []) (parseTSVData text).
Proof.
  unfold parseTSVData. cbv zeta. apply Forall_flat_map, Forall_forall.
  intros line _. destruct (nonEmpty line); [|constructor].
  constructor; [|constructor].
  unfold padTo, splitOn. intros H. apply (f_equal (@length jsstring)) in H.
  rewrite length_app, length_map in H.
  pose proof (splitOn_from_length TAB line []). simpl in H. lia.
Qed.

(** X9: what a loaded file leaves in the globals.  When [handleFile]
    accepts a file, the file has at most 700 MB, the delimiter is the one
    the detector returns on the preview (the text of the first megabyte
    without its byte order mark) and is one of comma, tab, pipe and semicolon, the
    preview has at least one row, and the header is not empty: it begins
    with the fields of the first row of the preview and is as long as the
    longest of the first twenty rows. *)
Theorem handleFile_loaded (file : blob) (delimiter : char)
    (headers : list jsstring) :
  handleFile file = Loaded delimiter headers ->
  let text :=
    removeBOM (decodeUTF8 (sliceN 0 (N.min PREVIEW_SIZE (sizeN file)) file)) in
  sizeN file <= MAX_FILE_SIZE
  /\ delimiter = detectDelimiter text
  /\ In delimiter candidates
  /\ headers <> []
  /\ exists first rows,
       previewLines text delimiter = first :: rows
       /\ first <> []
       /\ firstn (length first) headers = first
       /\ length headers
          = Nat.max (length first)
              (list_max (map (@length jsstring) (firstn 19 rows))).
Proof.
  intros H text. unfold handleFile in H.
  destruct (MAX_FILE_SIZE <? sizeN file) eqn:Esize; [discriminate H|].
  apply N.ltb_ge in Esize. fold text in H.
  destruct (previewLines text (detectDelimiter text)) as [|first rows] eqn:Ep;
    [discriminate H|].
  inversion H as [[Hd Hh]]. clear H. subst delimiter headers.
  assert (Hfirst : first <> []).
  { assert (Hall : Forall (fun row => row <> [])
                     (previewLines text (detectDelimiter text))).
    { unfold previewLines. destruct (detectDelimiter text =? TAB).
      - apply parseTSVData_nonempty.
      - apply parseCSVData_nonempty. }
    rewrite Ep in Hall. now inversion Hall. }
  split; [exact Esize|]. split; [reflexivity|].
  split; [apply detectDelimiter_candidate|].
  split.
  - rewrite extendHeaders_app. cbn [hd].
    destruct first; [now elim Hfirst | discriminate].
  - exists first, rows. split; [exact Ep|]. split; [exact Hfirst|]. split.
    + rewrite extendHeaders_app. cbn [hd].
      rewrite firstn_app, firstn_all, Nat.sub_diag. simpl. apply app_nil_r.
    + now rewrite extendHeaders_length.
Qed.

Lemma handleFile_loaded_witness :
  let text :=
    removeBOM (decodeUTF8 (sliceN 0 (N.min PREVIEW_SIZE (sizeN fileRagged))
                             fileRagged)) in
  sizeN fileRagged <= MAX_FILE_SIZE
  /\ COMMA = detectDelimiter text
  /\ In COMMA candidates
  /\ extendHeaders COMMA (parseCSVData (removeBOM (decodeUTF8 fileRagged)) COMMA) <> []
  /\ exists first rows,
       previewLines text COMMA = first :: rows
       /\ first <> []
       /\ firstn (length first)
            (extendHeaders COMMA (parseCSVData (removeBOM (decodeUTF8 fileRagged)) COMMA)) = first
       /\ length (extendHeaders COMMA (parseCSVData (removeBOM (decodeUTF8 fileRagged)) COMMA))
          = Nat.max (length first)
              (list_max (map (@length jsstring) (firstn 19 rows))).
Proof.
  apply (handleFile_loaded fileRagged COMMA
           (extendHeaders COMMA (parseCSVData (removeBOM (decodeUTF8 fileRagged)) COMMA))).
  vm_compute. reflexivity.
Defined.

(** ** The detector on a line of the encoder *)

Lemma hasOwnProperty_increment (c d : char) (counts : list (char * Z)) :
  hasOwnProperty c (increment d counts) = hasOwnProperty c counts.
Proof.
  unfold hasOwnProperty, increment.
  induction counts as [|[k z] counts IH]; [reflexivity|].
  simpl. rewrite IH. destruct (k =? d); reflexivity.
Qed.

Lemma getCount_increment_same (c : char) (counts : list (char * Z)) :
  hasOwnProperty c counts = true ->
  getCount c (increment c counts) = (getCount c counts + 1)%Z.
Proof.
  unfold hasOwnProperty, getCount, increment.
  induction counts as [|[k z] counts IH]; [discriminate|].
  simpl. destruct (k =? c) eqn:E; simpl; rewrite E; [reflexivity|].
  simpl. exact IH.
Qed.

Lemma getCount_increment_other (c d : char) (counts : list (char * Z)) :
  (d =? c) = false ->
  getCount c (increment d counts) = getCount c counts.
Proof.
  intros Hdc. unfold getCount, increment.
  induction counts as [|[k z] counts IH]; [reflexivity|].
  simpl. destruct (k =? d) eqn:E; simpl.
  - apply N.eqb_eq in E. subst k. rewrite Hdc. exact IH.
  - destruct (k =? c); [reflexivity | exact IH].
Qed.

(** Inside quotes nothing is counted up to the closing quote. *)
Lemma countLine_loop_quoted_value (v rest : jsstring) (counts : list (char * Z)) :
  nextIs DQUOTE rest = false ->
  countLine_loop (doubleQuotes v ++ DQUOTE :: rest) true counts
  = countLine_loop rest false counts.
Proof.
  intros Hrest. induction v as [|c v IH].
  - simpl app. simpl countLine_loop. change (DQUOTE =? DQUOTE) with true.
    cbv iota. destruct rest as [|c' rest']; [reflexivity|].
    simpl in Hrest. now rewrite Hrest.
  - unfold doubleQuotes. simpl flat_map. fold (doubleQuotes v).
    destruct (c =? DQUOTE) eqn:Ec.
    + apply N.eqb_eq in Ec. subst c. simpl app. simpl countLine_loop.
      change (DQUOTE =? DQUOTE) with true. cbv iota. exact IH.
    + simpl app. simpl countLine_loop. rewrite Ec. simpl. exact IH.
Qed.

(** Outside quotes a value without comma or quote leaves the count of
    commas as it is. *)
Lemma countLine_loop_plain_value (v rest : jsstring) :
  includes COMMA v = false -> includes DQUOTE v = false ->
  forall counts, hasOwnProperty COMMA counts = true ->
  exists counts',
    countLine_loop (v ++ rest) false counts = countLine_loop rest false counts'
    /\ hasOwnProperty COMMA counts' = true
    /\ getCount COMMA counts' = getCount COMMA counts.
Proof.
  induction v as [|c v IH]; intros Hc Hq counts Hown.
  - exists counts. now repeat split.
  - apply includes_cons_false in Hc, Hq.
    destruct Hc as [Hc Hc'], Hq as [Hq Hq'].
    simpl app. simpl countLine_loop. rewrite Hq. simpl negb. simpl andb.
    destruct (hasOwnProperty c counts).
    + destruct (IH Hc' Hq' (increment c counts)) as (counts' & E & Ho & Hg).
      { now rewrite hasOwnProperty_increment. }
      exists counts'. split; [exact E|]. split; [exact Ho|].
      rewrite Hg. now apply getCount_increment_other.
    + now apply IH.
Qed.

Lemma countLine_loop_field (value : option jsstring) (rest : jsstring) :
  nextIs DQUOTE rest = false ->
  forall counts, hasOwnProperty COMMA counts = true ->
  exists counts',
    countLine_loop (formatCSVField value ++ rest) false counts
    = countLine_loop rest false counts'
    /\ hasOwnProperty COMMA counts' = true
    /\ getCount COMMA counts' = getCount COMMA counts.
Proof.
  intros Hrest counts Hown.
  destruct value as [v|]; [|exists counts; now repeat split].
  unfold formatCSVField. cbv zeta.
  destruct (includes COMMA v || includes DQUOTE v || includes LF v
            || includes CR v || startsWith SPACE v || endsWith SPACE v) eqn:E.
  - exists counts. split; [|now split].
    rewrite <- app_comm_cons, <- app_assoc. simpl app at 2.
    simpl countLine_loop at 1. change (DQUOTE =? DQUOTE) with true. cbv iota.
    simpl negb. now apply countLine_loop_quoted_value.
  - repeat (apply orb_false_elim in E; destruct E as [E ?]).
    now apply countLine_loop_plain_value.
Qed.

Lemma countLine_loop_row (values : list (option jsstring)) :
  forall counts, hasOwnProperty COMMA counts = true ->
  getCount COMMA (countLine_loop (formatCSVLine values) false counts)
  = (getCount COMMA counts + Z.of_nat (length values - 1))%Z.
Proof.
  unfold formatCSVLine.
  induction values as [|v values IH]; intros counts Hown.
  - simpl. lia.
  - destruct values as [|v' values'].
    + simpl map. simpl join.
      destruct (countLine_loop_field v [] eq_refl counts Hown)
        as (counts' & E & _ & Hg).
      rewrite app_nil_r in E. rewrite E. simpl. rewrite Hg. lia.
    + change (join COMMA (map formatCSVField (v :: v' :: values')))
        with (formatCSVField v
              ++ COMMA :: join COMMA (map formatCSVField (v' :: values'))).
      destruct (countLine_loop_field v
                  (COMMA :: join COMMA (map formatCSVField (v' :: values')))
                  eq_refl counts Hown) as (counts' & E & Ho & Hg).
      rewrite E. simpl countLine_loop at 1.
      change (COMMA =? DQUOTE) with false. cbv iota.
      rewrite Ho. simpl andb. cbv iota.
      rewrite IH by (now rewrite hasOwnProperty_increment).
      rewrite getCount_increment_same, Hg by exact Ho.
      simpl length. lia.
Qed.

(** X10: on a line written by the encoder the detector counts the commas
    between the fields and no other: the count of commas of [countLine] on
    [formatCSVLine values] is the number of values less one (none for an
    empty list), whatever the values hold, because a comma inside a value
    is quoted by the encoder and skipped by the detector. *)
Theorem countLine_formatCSVLine (values : list (option jsstring)) :
  getCount COMMA (countLine (formatCSVLine values))
  = Z.of_nat (length values - 1).
Proof.
  unfold countLine. now rewrite countLine_loop_row.
Qed.

(** ** The slices an export reads *)

Lemma takeN_window (chunkSize : N) (file : blob) (off : N) :
  takeN (off + chunkSize) file
  = takeN off file ++ sliceN off (N.min (off + chunkSize) (sizeN file)) file.
Proof.
  unfold sliceN, sizeN, blob, byte in *. rewrite !takeN_firstn, dropN_skipn.
  replace (N.to_nat (off + chunkSize))
    with (N.to_nat off + N.to_nat chunkSize)%nat by lia.
  rewrite firstn_add_split. f_equal.
  rewrite (firstn_min_length (N.to_nat chunkSize)). f_equal.
  rewrite length_skipn. lia.
Qed.

Lemma windows_concat (chunkSize : N) (file : blob) (n : nat) :
  concat (map (sliceBytes file)
            (map (fun k => (N.of_nat k * chunkSize,
                            N.min (N.of_nat k * chunkSize + chunkSize)
                                  (sizeN file)))
                 (seq 0 n)))
  = takeN (N.of_nat n * chunkSize) file.
Proof.
  induction n as [|n IH].
  - simpl. destruct file; reflexivity.
  - rewrite seq_S, !map_app, concat_app, IH. cbn [map concat Nat.add].
    rewrite app_nil_r. unfold sliceBytes. cbn [fst snd].
    replace (N.of_nat (S n) * chunkSize)
      with (N.of_nat n * chunkSize + chunkSize) by lia.
    now rewrite takeN_window.
Qed.

(** X11: an export reads the file once, from end to end.  For a non-empty
    selection and a positive window size, on either path, the run ends,
    and the bytes of the slices it requests, put end to end in the order
    of the requests, are the file: no byte is read twice and none is left
    unread. *)
Theorem exportFile_reads_file_once headers delimiter sel chunkSize
    (file : blob) :
  sel <> [] -> 0 < chunkSize ->
  exists o,
    exportFile headers delimiter sel chunkSize file = Some o
    /\ concat (map (sliceBytes file) (slices o)) = file.
Proof.
  intros Hsel Hc.
  destruct (exportFile_runs headers delimiter sel chunkSize file Hsel Hc)
    as (st & Hrun & Hexp).
  eexists. split; [exact Hexp|]. cbn [slices].
  destruct file as [|c file'].
  { simpl in Hrun. inversion Hrun. reflexivity. }
  set (file := c :: file') in *.
  assert (Hs : 0 < sizeN file) by (apply sizeN_positive; discriminate).
  assert (Hinv : paced (sizeN file) chunkSize st /\ sizeN file <= offset st).
  { eapply whileChunks_invariant; [| |exact Hrun].
    - intros s Hps Hlt. apply paced_step; try assumption.
      + apply exportBody_offset.
      + apply exportBody_progress.
      + apply exportBody_requested.
    - apply paced_start; [exact Hs | reflexivity ..]. }
  destruct Hinv as ((n & Ho & _ & Hr & _) & Hend).
  rewrite Hr, windows_concat. apply takeN_all. now rewrite <- Ho.
Qed.

Lemma exportFile_reads_file_once_witness :
  exists o,
    exportFile [str "h"] COMMA [0%nat] 2 (str "h,x") = Some o
    /\ concat (map (sliceBytes (str "h,x")) (slices o)) = str "h,x".
Proof.
  apply (exportFile_reads_file_once [str "h"] COMMA [0%nat] 2 (str "h,x")).
  - discriminate.
  - reflexivity.
Defined.

(** ** A file without data rows *)

(** X12: a file without data rows is exported as the header line alone.
    For a non-empty selection and a window that holds the file, when the
    text without its byte order mark has no row after the first (comma,
    pipe or semicolon) or no non-empty line after the first line (tab),
    the download is the encoded header line and nothing else; an empty
    file gives the same. *)
Theorem exportFile_header_only headers delimiter sel chunkSize (file : blob) :
  sel <> [] -> sizeN file <= chunkSize ->
  (if delimiter =? TAB
   then filter nonEmpty (tl (splitLines (removeBOM (decodeUTF8 file)))) = []
   else tl (parseCSVData (removeBOM (decodeUTF8 file)) delimiter) = []) ->
  exists o,
    exportFile headers delimiter sel chunkSize file = Some o
    /\ errorMessage o = None
    /\ download o = Some [headerLine headers sel].
Proof.
  intros Hsel Hsize Hrows.
  destruct file as [|c file'].
  { rewrite exportFile_unfold by exact Hsel. simpl whileChunks.
    eexists. split; [reflexivity|]. split; [reflexivity|].
    cbn [download outputParts remainder exportStart].
    now rewrite exportTail_nil. }
  destruct (exportFile_single_window headers delimiter sel chunkSize
              (c :: file') Hsel) as (o & Ho & He & Hd);
    [discriminate | exact Hsize |].
  exists o. split; [exact Ho|]. split; [exact He|].
  rewrite Hd. unfold headerLine. do 2 f_equal.
  destruct (delimiter =? TAB).
  - unfold emitTSVLines, fromRow. rewrite emitTSVLines_filter, Hrows.
    reflexivity.
  - unfold emitCSVRows, fromRow. now rewrite Hrows.
Qed.

Lemma exportFile_header_only_witness :
  exists o,
    exportFile [str "h"; str "k"] COMMA [1%nat] CHUNK_SIZE (str "h,k") = Some o
    /\ errorMessage o = None
    /\ download o = Some [headerLine [str "h"; str "k"] [1%nat]].
Proof.
  apply (exportFile_header_only [str "h"; str "k"] COMMA [1%nat] CHUNK_SIZE
           (str "h,k")).
  - discriminate.
  - vm_compute. discriminate.
  - reflexivity.
Defined.

(** ** The byte order mark *)

Lemma sliceN_all (file : blob) : sliceN 0 (sizeN file) file = file.
Proof.
  pose proof (sliceN_whole file (sizeN file) (N.le_refl _)) as H.
  now rewrite N.add_0_l, N.min_id in H.
Qed.

Lemma decodeUTF8_bomBytes (file : blob) :
  firstn 3 file <> bomBytes ->
  decodeUTF8 (bomBytes ++ file) = decodeUTF8 file.
Proof.
  intros H. destruct file as [|b1 [|b2 [|b3 rest]]]; try reflexivity.
  change (decodeUTF8 (bomBytes ++ b1 :: b2 :: b3 :: rest))
    with (utf8Decoder utf8Start (b1 :: b2 :: b3 :: rest)).
  unfold decodeUTF8.
  destruct ((b1 =? 239) && (b2 =? 187) && (b3 =? 191)) eqn:E; [|reflexivity].
  apply andb_true_iff in E as [E E3]. apply andb_true_iff in E as [E1 E2].
  apply N.eqb_eq in E1, E2, E3. subst. now elim H.
Qed.

Lemma sizeN_bomBytes (file : blob) : sizeN (bomBytes ++ file) = 3 + sizeN file.
Proof. unfold sizeN, bomBytes. cbn [app length]. lia. Qed.

(** X13: a byte order mark at the head of the file changes nothing.  For a
    file that does not itself begin with the three bytes of a byte order
    mark and that, with the mark in front, has at most [PREVIEW_SIZE]
    bytes, loading the file with the mark put in front finds the same
    delimiter and the same header, or rejects it with the same message;
    and an export in one window, which holds the file with its mark,
    downloads the same parts. *)
Theorem byte_order_mark_ignored headers delimiter sel chunkSize (file : blob) :
  firstn 3 file <> bomBytes -> sizeN file + 3 <= PREVIEW_SIZE ->
  sel <> [] -> file <> [] -> sizeN file + 3 <= chunkSize ->
  handleFile (bomBytes ++ file) = handleFile file
  /\ exists o o',
       exportFile headers delimiter sel chunkSize (bomBytes ++ file) = Some o
       /\ exportFile headers delimiter sel chunkSize file = Some o'
       /\ download o = download o'
       /\ errorMessage o = errorMessage o'.
Proof.
  intros Hbom Hprev Hsel Hfile Hsize.
  pose proof (sizeN_bomBytes file) as Hsz.
  assert (Hmax : PREVIEW_SIZE < MAX_FILE_SIZE) by reflexivity.
  split.
  - unfold handleFile.
    destruct (MAX_FILE_SIZE <? sizeN (bomBytes ++ file)) eqn:E1;
      [apply N.ltb_lt in E1; lia|].
    destruct (MAX_FILE_SIZE <? sizeN file) eqn:E2;
      [apply N.ltb_lt in E2; lia|].
    rewrite !N.min_r by lia.
    rewrite !sliceN_all.
    rewrite (decodeUTF8_bomBytes file Hbom). reflexivity.
  - destruct (exportFile_single_window headers delimiter sel chunkSize
                (bomBytes ++ file) Hsel) as (o & Ho & He & Hd);
      [discriminate | lia |].
    destruct (exportFile_single_window headers delimiter sel chunkSize
                file Hsel Hfile) as (o' & Ho' & He' & Hd'); [lia|].
    exists o, o'. split; [exact Ho|]. split; [exact Ho'|].
    split; [|now rewrite He, He'].
    rewrite Hd, Hd', (decodeUTF8_bomBytes file Hbom). reflexivity.
Qed.

Lemma byte_order_mark_ignored_witness :
  handleFile (bomBytes ++ fileRagged) = handleFile fileRagged
  /\ exists o o',
       exportFile [str "a"; str "b"] COMMA [0%nat] CHUNK_SIZE
         (bomBytes ++ fileRagged)
       = Some o
       /\ exportFile [str "a"; str "b"] COMMA [0%nat] CHUNK_SIZE fileRagged
          = Some o'
       /\ download o = download o'
       /\ errorMessage o = errorMessage o'.
Proof.
  apply (byte_order_mark_ignored [str "a"; str "b"] COMMA [0%nat] CHUNK_SIZE
           fileRagged).
  - discriminate.
  - vm_compute. discriminate.
  - discriminate.
  - discriminate.
  - vm_compute. discriminate.
Defined.

(** ** Exporting every column and loading the result *)

Lemma map_nth_self {A : Type} (l : list A) (d : A) :
  map (fun j => nth j l d) (seq 0 (length l)) = l.
Proof.
  apply (nth_ext _ _ d d).
  - now rewrite length_map, length_seq.
  - intros i Hi. rewrite length_map, length_seq in Hi.
    now rewrite (nth_map_seq (fun j => nth j l d) (length l) i d Hi).
Qed.

Lemma selectedHeaders_all (headers : list jsstring) :
  selectedHeaders headers (seq 0 (length headers)) = map Some headers.
Proof.
  unfold selectedHeaders.
  induction headers as [|h headers IH]; [reflexivity|].
  cbn [length seq map nth_error]. f_equal.
  rewrite <- seq_shift, map_map. exact IH.
Qed.

Lemma selectValues_all (headers values : list jsstring) :
  length values = length headers ->
  selectValues (seq 0 (length headers)) (padValues headers values) = values.
Proof.
  intros Hlen. unfold selectValues, padValues.
  rewrite <- Hlen, !map_nth_self. reflexivity.
Qed.

Lemma map_valueOf_Some (row : list jsstring) :
  map valueOf (map Some row) = row.
Proof. rewrite map_map. simpl. apply map_id. Qed.

(** X14: exporting every column of a well-formed file and loading the
    download gives the rows back.  Take a non-empty file in one window,
    tokenized with a comma, pipe or semicolon delimiter into a header row
    and data rows; when every data row has as many fields as the header
    and a field that is not empty, and no field has more than
    [MAX_FIELD_SIZE] characters, the export of all the columns downloads
    parts whose text, tokenized with the comma, is the header row followed
    by the data rows, field for field. *)
Theorem exportFile_all_columns_round_trip
    (headers : list jsstring) (data : list (list jsstring))
    (delimiter : char) (chunkSize : N) (file : blob) :
  In delimiter csvDelimiters ->
  file <> [] -> sizeN file <= chunkSize ->
  parseCSVData (removeBOM (decodeUTF8 file)) delimiter = headers :: data ->
  Forall (fun row => length row = length headers) data ->
  Forall (fun row => existsb nonEmpty row = true) data ->
  Forall (Forall fitsField) (headers :: data) ->
  exists o parts,
    exportFile headers delimiter (seq 0 (length headers)) chunkSize file
    = Some o
    /\ download o = Some parts
    /\ parseCSVData (concat parts) COMMA = headers :: data.
Proof.
  intros Hd Hfile Hsize Hparse Hwidth Hsome Hfit.
  pose proof (parseCSVData_nonempty (removeBOM (decodeUTF8 file)) delimiter) as Hne.
  pose proof (parseCSVData_loop_kept delimiter (delimiter =? TAB)
                (removeBOM (decodeUTF8 file)) [] [] [] false (Forall_nil _)) as Hkept.
  fold (parseCSVData (removeBOM (decodeUTF8 file)) delimiter) in Hkept.
  rewrite Hparse in Hne, Hkept.
  assert (Hh : headers <> []) by (now inversion Hne).
  assert (Hsel : seq 0 (length headers) <> []).
  { destruct headers; [now elim Hh | discriminate]. }
  destruct (exportFile_single_window headers delimiter
              (seq 0 (length headers)) chunkSize file Hsel Hfile Hsize)
    as (o & Ho & _ & Hdl).
  rewrite (delimiter_not_tab delimiter Hd), Hparse in Hdl.
  exists o. eexists. split; [exact Ho|]. split; [exact Hdl|].
  unfold emitCSVRows, fromRow. cbn [tl].
  assert (Hdata : Forall (fun r => r <> []) data) by (now inversion Hne).
  rewrite emitCSVRows_filter by exact Hdata.
  assert (Hparts :
    (formatCSVLine (selectedHeaders headers (seq 0 (length headers))) ++ [LF])
    :: map (projectRow headers (seq 0 (length headers)))
         (filter (someSelected headers (seq 0 (length headers))) data)
    = map (fun values => formatCSVLine values ++ [LF])
        (map (map Some) (headers :: data))).
  { cbn [map]. rewrite selectedHeaders_all. f_equal.
    clear Hparse Hne Hkept Hdl Hfit Hdata.
    induction data as [|row data IH]; [reflexivity|].
    inversion Hwidth as [|? ? Hw Hws]. inversion Hsome as [|? ? Hs Hss].
    subst. cbn [filter map].
    unfold someSelected at 1. rewrite (selectValues_all headers row Hw), Hs.
    cbn [map]. unfold projectRow at 1, encodeRow.
    rewrite (selectValues_all headers row Hw).
    f_equal. now apply IH. }
  rewrite Hparts. unfold parseCSVData. change (COMMA =? TAB) with false.
  rewrite parseCSVData_loop_rows.
  - cbn [app]. rewrite map_map.
    rewrite (map_ext _ (fun row => row) map_valueOf_Some), map_id.
    apply forallb_filter_id. apply forallb_forall.
    intros row Hin. rewrite Forall_forall in Hkept. now apply Hkept.
  - apply Forall_map. eapply Forall_impl; [|exact Hfit].
    intros row Hrow. apply Forall_map. eapply Forall_impl; [|exact Hrow].
    intros field Hf. exact Hf.
Qed.

Lemma exportFile_all_columns_round_trip_witness :
  exists o parts,
    exportFile [str "a"; str "b"] SEMICOLON (seq 0 2) CHUNK_SIZE fileQuotedFields
    = Some o
    /\ download o = Some parts
    /\ parseCSVData (concat parts) COMMA
       = [str "a"; str "b"] :: [[str "x;" ++ [DQUOTE; SPACE]; str "y"]].
Proof.
  apply (exportFile_all_columns_round_trip [str "a"; str "b"]
           [[str "x;" ++ [DQUOTE; SPACE]; str "y"]] SEMICOLON CHUNK_SIZE
           fileQuotedFields).
  - right. right. now left.
  - discriminate.
  - vm_compute. discriminate.
  - vm_compute. reflexivity.
  - repeat constructor.
  - repeat constructor.
  - repeat constructor; vm_compute; discriminate.
Defined.

(** ** The export of the older variant *)

Lemma splitOn_from_nonempty (sep : char) (s : jsstring) :
  forall cur, splitOn_from sep cur s <> [].
Proof.
  intros cur H. pose proof (splitOn_from_length sep s cur) as L.
  rewrite H in L. simpl in L. lia.
Qed.

Lemma removelast_cons {A : Type} (x : A) (l : list A) :
  l <> [] -> removelast (x :: l) = x :: removelast l.
Proof. destruct l; [congruence | reflexivity]. Qed.

Lemma last_cons {A : Type} (x : A) (l : list A) (d : A) :
  l <> [] -> last (x :: l) d = last l d.
Proof. destruct l; [congruence | reflexivity]. Qed.

Lemma last_app_nonempty {A : Type} (l l' : list A) (d : A) :
  l' <> [] -> last (l ++ l') d = last l' d.
Proof.
  intros H. induction l as [|x l IH]; [reflexivity|].
  rewrite <- app_comm_cons, last_cons; [exact IH|].
  destruct l; [exact H | discriminate].
Qed.

(** Splitting a text in two parts: the pieces before the last one of the
    first part, then the pieces of the second part, the first of which
    continues the last piece of the first part. *)
Lemma splitOn_from_app (sep : char) (u v : jsstring) :
  forall cur,
    splitOn_from sep cur (u ++ v)
    = removelast (splitOn_from sep cur u)
      ++ splitOn_from sep (last (splitOn_from sep cur u) []) v.
Proof.
  induction u as [|c u IH]; intros cur; [reflexivity|].
  simpl. destruct (c =? sep).
  - rewrite removelast_cons, last_cons by apply splitOn_from_nonempty.
    rewrite IH. reflexivity.
  - apply IH.
Qed.

Lemma splitOn_from_plain (sep : char) (r t : jsstring) :
  includes sep r = false ->
  forall cur, splitOn_from sep cur (r ++ t) = splitOn_from sep (cur ++ r) t.
Proof.
  induction r as [|c r IH]; intros Hr cur.
  - now rewrite app_nil_r.
  - apply includes_cons_false in Hr. destruct Hr as [Hc Hr].
    simpl. rewrite Hc, (IH Hr), <- app_assoc. reflexivity.
Qed.

Lemma includes_snoc (sep : char) (cur : jsstring) (c : char) :
  includes sep cur = false -> (c =? sep) = false ->
  includes sep (cur ++ [c]) = false.
Proof.
  intros Hcur Hc. rewrite includes_app, Hcur. unfold includes. simpl.
  now rewrite N.eqb_sym, Hc.
Qed.

Lemma splitOn_from_pieces (sep : char) (s : jsstring) :
  forall cur, includes sep cur = false ->
    Forall (fun piece => includes sep piece = false) (splitOn_from sep cur s).
Proof.
  induction s as [|c s IH]; intros cur Hcur; simpl.
  - now constructor.
  - destruct (c =? sep) eqn:Ec.
    + constructor; [exact Hcur | now apply IH].
    + apply IH. now apply includes_snoc.
Qed.

Lemma last_Forall {A : Type} (P : A -> Prop) (l : list A) (d : A) :
  Forall P l -> P d -> P (last l d).
Proof.
  induction 1 as [|x l Hx Hl IH]; intros Hd; [exact Hd|].
  destruct l; [exact Hx | now apply IH].
Qed.

Lemma splitOn_app (sep : char) (u v : jsstring) :
  splitOn sep (u ++ v)
  = removelast (splitOn sep u) ++ splitOn sep (last (splitOn sep u) [] ++ v).
Proof.
  unfold splitOn. rewrite splitOn_from_app. f_equal.
  rewrite splitOn_from_plain; [reflexivity|].
  apply last_Forall; [now apply splitOn_from_pieces | reflexivity].
Qed.

Lemma splitOn_from_no_sep (sep : char) (s : jsstring) :
  includes sep s = false ->
  forall cur, splitOn_from sep cur s = [cur ++ s].
Proof.
  induction s as [|c s IH]; intros Hs cur; simpl.
  - now rewrite app_nil_r.
  - apply includes_cons_false in Hs. destruct Hs as [Hc Hs].
    rewrite Hc, (IH Hs), <- app_assoc. reflexivity.
Qed.

Lemma splitOn_from_two (sep : char) (s : jsstring) :
  includes sep s = true ->
  forall cur, (2 <= length (splitOn_from sep cur s))%nat.
Proof.
  induction s as [|c s IH]; intros Hs cur; [discriminate|].
  simpl. destruct (c =? sep) eqn:Ec.
  - simpl. pose proof (splitOn_from_length sep s []). lia.
  - apply IH. unfold includes in Hs. simpl in Hs.
    rewrite N.eqb_sym, Ec in Hs. exact Hs.
Qed.

Lemma removelast_two {A : Type} (l : list A) :
  (2 <= length l)%nat -> removelast l <> [].
Proof.
  destruct l as [|x [|y l]]; simpl; intros H; [lia | lia | discriminate].
Qed.

Lemma takeN_slice (chunkSize : N) (file : blob) (off : N) :
  takeN (off + chunkSize) file
  = takeN off file ++ sliceN off (off + chunkSize) file.
Proof.
  unfold sliceN. rewrite !takeN_firstn, dropN_skipn.
  replace (N.to_nat (off + chunkSize))
    with (N.to_nat off + N.to_nat chunkSize)%nat by lia.
  rewrite firstn_add_split. do 2 f_equal. lia.
Qed.

Lemma textRead_snoc (currentFile : blob) (requested : list (N * N))
    (from to : N) :
  textRead currentFile (requested ++ [(from, to)])
  = textRead currentFile requested ++ decodeUTF8 (sliceN from to currentFile).
Proof.
  unfold textRead. rewrite map_app, concat_app. cbn [map concat].
  now rewrite app_nil_r.
Qed.

Lemma legacySlices_S (chunkSize : N) (k : nat) :
  legacySlices chunkSize (S k)
  = legacySlices chunkSize k
    ++ [(N.of_nat k * chunkSize, N.of_nat k * chunkSize + chunkSize)].
Proof. unfold legacySlices. now rewrite seq_S, map_app. Qed.

Lemma legacySlices_concat (chunkSize : N) (file : blob) (k : nat) :
  concat (map (sliceBytes file) (legacySlices chunkSize k))
  = takeN (N.of_nat k * chunkSize) file.
Proof.
  induction k as [|k IH].
  - simpl. destruct file; reflexivity.
  - rewrite legacySlices_S, map_app, concat_app, IH. cbn [map concat].
    rewrite app_nil_r. unfold sliceBytes. cbn [fst snd].
    replace (N.of_nat (S k) * chunkSize)
      with (N.of_nat k * chunkSize + chunkSize) by lia.
    now rewrite takeN_slice.
Qed.

Lemma isASCII_app (x y : blob) : isASCII x -> isASCII y -> isASCII (x ++ y).
Proof. intros Hx Hy. apply Forall_app. now split. Qed.

Lemma isASCII_sliceN (file : blob) (from to : N) :
  isASCII file -> isASCII (sliceN from to file).
Proof.
  intros H. unfold sliceN. rewrite takeN_firstn, dropN_skipn.
  now apply isASCII_firstn, isASCII_skipn.
Qed.

(** On a file of ASCII bytes the text read is the bytes of the slices. *)
Lemma textRead_ascii (file : blob) (requested : list (N * N)) :
  isASCII file ->
  textRead file requested = concat (map (sliceBytes file) requested).
Proof.
  intros H. unfold textRead. f_equal. apply map_ext. intros bounds.
  apply decodeUTF8_ascii. now apply isASCII_sliceN.
Qed.

Lemma legacyInvariant_step headers delimiter selectedColumns chunkSize
    (currentFile : blob) (st : exportState) :
  legacyInvariant headers delimiter selectedColumns chunkSize currentFile st ->
  legacyInvariant headers delimiter selectedColumns chunkSize currentFile
    (Legacy.chunk delimiter selectedColumns chunkSize currentFile st).
Proof.
  unfold legacyInvariant. cbv zeta. intros (Hrem & (k & Hk & Hreq) & Hparts).
  unfold Legacy.chunk. cbn [offset remainder isFirstChunk outputParts requested].
  rewrite textRead_snoc,
    (splitOn_app LF (textRead currentFile (requested st))), <- Hrem.
  set (lines := splitOn LF
                  (remainder st
                   ++ decodeUTF8
                        (sliceN (offset st) (offset st + chunkSize) currentFile))).
  assert (Hlines : lines <> []) by apply splitOn_from_nonempty.
  split; [now rewrite last_app_nonempty|].
  split.
  { exists (S k). rewrite Hk, Hreq, legacySlices_S. split; [lia | reflexivity]. }
  rewrite removelast_app by exact Hlines.
  destruct (isFirstChunk st).
  - destruct Hparts as (Hoff & Hnone & Hout).
    subst lines. rewrite Hrem, Hoff, Hnone in *. rewrite N.add_0_l in *.
    cbn [textRead map concat splitOn splitOn_from removelast last app].
    split; [now exists []; rewrite app_nil_r|].
    rewrite Hout. cbn [app]. f_equal.
    unfold legacyRows, fromRow.
    destruct (includes LF (decodeUTF8 (sliceN 0 chunkSize currentFile))) eqn:E;
      [reflexivity|].
    unfold splitOn. rewrite (splitOn_from_no_sep LF _ E). reflexivity.
  - destruct Hparts as ((rest & Hrest) & Hout). split.
    { exists (rest ++ decodeUTF8
                 (sliceN (offset st) (offset st + chunkSize) currentFile)).
      now rewrite Hrest, app_assoc. }
    rewrite Hout. cbn [app]. f_equal.
    unfold legacyRows, fromRow.
    destruct (includes LF (decodeUTF8 (sliceN 0 chunkSize currentFile))) eqn:E.
    + rewrite <- flat_map_app. f_equal.
      assert (Hne : removelast (splitOn LF (textRead currentFile (requested st)))
                    <> []).
      { apply removelast_two, splitOn_from_two.
        rewrite Hrest, includes_app, E. reflexivity. }
      destruct (removelast (splitOn LF (textRead currentFile (requested st))));
        [now elim Hne | reflexivity].
    + now rewrite <- flat_map_app.
Qed.

Lemma legacy_exportFile_runs headers delimiter selectedColumns chunkSize
    (currentFile : blob) :
  0 < chunkSize -> selectedColumns <> [] ->
  exists st,
    whileChunks (length currentFile) (sizeN currentFile)
      (Legacy.chunk delimiter selectedColumns chunkSize currentFile)
      {| offset := 0;
         outputParts :=
           [Legacy.formatCSVLine (selectedHeaders headers selectedColumns)
            ++ [LF]];
         remainder := [];
         isFirstChunk := true;
         progress := [0];
         requested := [] |}
    = Some st
    /\ legacyInvariant headers delimiter selectedColumns chunkSize
         currentFile st
    /\ sizeN currentFile <= offset st
    /\ Legacy.exportFile headers delimiter selectedColumns chunkSize currentFile
       = Some {| errorMessage := None;
                 shown := progress st;
                 slices := requested st;
                 download :=
                   Some (outputParts st
                         ++ legacyTail delimiter selectedColumns (remainder st)) |}.
Proof.
  intros chunk_positive Hsel.
  set (start := {| offset := 0;
         outputParts :=
           [Legacy.formatCSVLine (selectedHeaders headers selectedColumns)
            ++ [LF]];
         remainder := [];
         isFirstChunk := true;
         progress := [0];
         requested := [] |}).
  destruct (whileChunks_terminates (sizeN currentFile) chunkSize
              (Legacy.chunk delimiter selectedColumns chunkSize currentFile)
              chunk_positive (fun st => eq_refl)
              (length currentFile) start
              (sizeN_fuel currentFile chunkSize chunk_positive)) as (st & Hst).
  exists st. split; [exact Hst|].
  assert (Hinv : legacyInvariant headers delimiter selectedColumns chunkSize
                   currentFile st
                 /\ sizeN currentFile <= offset st).
  { eapply whileChunks_invariant; [| |exact Hst].
    - intros s Hs _. now apply legacyInvariant_step.
    - unfold legacyInvariant. cbn.
      split; [reflexivity|]. split; [now exists 0%nat|]. now repeat split. }
  destruct Hinv as (Hinv & Hend). split; [exact Hinv|]. split; [exact Hend|].
  unfold Legacy.exportFile. fold start.
  destruct selectedColumns as [|i sel]; [congruence|].
  rewrite Hst. reflexivity.
Qed.

(** X15: what the older variant exports, for every window size.  For a
    non-empty selection and a positive window size the run ends and
    downloads the encoded header line, then one part for every line of the
    text read that ends with a line feed and is not blank once trimmed,
    then a part for the text after the last line feed when it is not
    blank.  The text read is made of the texts of the requested slices,
    each decoded on its own, put end to end; for a file of ASCII bytes it
    is the file.  The first line is left out only when the text of the
    first window holds a line feed: for a file of ASCII bytes the download
    is then the same for every such window size; with a first window that
    holds no line feed the first line of the file, its header, is exported
    as a data row. *)
Theorem legacy_exportFile_download headers delimiter selectedColumns
    chunkSize (currentFile : blob) :
  selectedColumns <> [] -> 0 < chunkSize ->
  exists o,
    Legacy.exportFile headers delimiter selectedColumns chunkSize currentFile
    = Some o
    /\ errorMessage o = None
    /\ download o
       = Some ((Legacy.formatCSVLine (selectedHeaders headers selectedColumns)
                ++ [LF])
               :: legacyRows delimiter selectedColumns
                    (includes LF (decodeUTF8 (sliceN 0 chunkSize currentFile)))
                    (removelast (splitOn LF (textRead currentFile (slices o))))
               ++ legacyTail delimiter selectedColumns
                    (last (splitOn LF (textRead currentFile (slices o))) []))
    /\ (isASCII currentFile ->
        textRead currentFile (slices o) = currentFile
        /\ decodeUTF8 (sliceN 0 chunkSize currentFile)
           = takeN chunkSize currentFile).
Proof.
  intros Hsel Hc.
  destruct (legacy_exportFile_runs headers delimiter selectedColumns chunkSize
              currentFile Hc Hsel) as (st & _ & Hinv & Hend & Hexp).
  eexists. split; [exact Hexp|]. split; [reflexivity|]. cbn [download slices].
  unfold legacyInvariant in Hinv. cbv zeta in Hinv.
  destruct Hinv as (Hrem & (k & Hk & Hreq) & Hparts). split.
  - rewrite Hrem. destruct (isFirstChunk st).
    + destruct Hparts as (Hoff & Hnone & Hout). rewrite Hout, Hnone.
      unfold legacyRows, fromRow.
      destruct (includes LF (decodeUTF8 (sliceN 0 chunkSize currentFile)));
        reflexivity.
    + destruct Hparts as (_ & Hout). rewrite Hout. reflexivity.
  - intros Hascii. split.
    + rewrite textRead_ascii, Hreq, legacySlices_concat by exact Hascii.
      apply takeN_all. rewrite <- Hk. exact Hend.
    + rewrite decodeUTF8_ascii by now apply isASCII_sliceN.
      unfold sliceN. now rewrite dropN_0, N.sub_0_r.
Qed.

Lemma legacy_exportFile_download_witness :
  [0%nat] <> [] /\ 0 < 2
  /\ exists o,
    Legacy.exportFile [str "h"] COMMA [0%nat] 2 fileTwoLines = Some o
    /\ errorMessage o = None
    /\ download o
       = Some ((Legacy.formatCSVLine (selectedHeaders [str "h"] [0%nat]) ++ [LF])
               :: legacyRows COMMA [0%nat]
                    (includes LF (decodeUTF8 (sliceN 0 2 fileTwoLines)))
                    (removelast (splitOn LF (textRead fileTwoLines (slices o))))
               ++ legacyTail COMMA [0%nat]
                    (last (splitOn LF (textRead fileTwoLines (slices o))) []))
    /\ (isASCII fileTwoLines ->
        textRead fileTwoLines (slices o) = fileTwoLines
        /\ decodeUTF8 (sliceN 0 2 fileTwoLines) = takeN 2 fileTwoLines).
Proof.
  split; [discriminate|]. split; [reflexivity|].
  apply (legacy_exportFile_download [str "h"] COMMA [0%nat] 2 fileTwoLines).
  - discriminate.
  - reflexivity.
Defined.

(** ** The name of the download *)

Lemma eqString_eq (a b : jsstring) : eqString a b = true <-> a = b.
Proof.
  revert b. induction a as [|x a IH]; intros [|y b]; simpl;
    try (split; [discriminate | discriminate]); [now split|].
  rewrite andb_true_iff, N.eqb_eq, IH. split.
  - intros [-> ->]. reflexivity.
  - intros H. inversion H. now split.
Qed.

Lemma endsWithString_app (suffix s : jsstring) :
  endsWithString suffix (s ++ suffix) = true.
Proof.
  unfold endsWithString. rewrite length_app.
  replace (length s + length suffix - length suffix)%nat with (length s) by lia.
  rewrite skipn_app, skipn_all, Nat.sub_diag. simpl.
  apply andb_true_intro. split; [apply Nat.leb_le; lia | now apply eqString_eq].
Qed.

Lemma endsWithString_converted (s : jsstring) :
  endsWithString (str ".csv") (s ++ str "_converted") = false.
Proof.
  unfold endsWithString. rewrite length_app.
  change (length (str "_converted")) with 10%nat.
  change (length (str ".csv")) with 4%nat.
  replace (length s + 10 - 4)%nat with (length s + 6)%nat by lia.
  rewrite skipn_app.
  replace (length s + 6 - length s)%nat with 6%nat by lia.
  rewrite skipn_all2 by lia.
  apply andb_false_intro2. reflexivity.
Qed.

(** X16: the name of the download always ends with the extension csv.
    When the name field is blank the name is the name of the file without
    a final extension csv or tsv (in any letter case), followed by
    _converted.csv; otherwise it is the trimmed content of the field,
    followed by the extension unless it already ends with it in lower
    case. *)
Theorem exportFileName_csv (nameInput fileName : jsstring) :
  endsWithString (str ".csv") (exportFileName nameInput fileName) = true
  /\ (nonEmpty (trim nameInput) = false ->
      exportFileName nameInput fileName
      = stripCsvTsv fileName ++ str "_converted" ++ str ".csv")
  /\ (nonEmpty (trim nameInput) = true ->
      exportFileName nameInput fileName
      = if endsWithString (str ".csv") (trim nameInput)
        then trim nameInput
        else trim nameInput ++ str ".csv").
Proof.
  unfold exportFileName. cbv zeta.
  destruct (nonEmpty (trim nameInput)).
  - split; [|split; [discriminate | reflexivity]].
    destruct (endsWithString (str ".csv") (trim nameInput)) eqn:E;
      [exact E | apply endsWithString_app].
  - unfold defaultExportName. rewrite endsWithString_converted.
    split; [apply endsWithString_app|].
    split; [intros _; now rewrite <- app_assoc | discriminate].
Qed.

(** ** Presets *)

Lemma combine_seq_In (boxes : list bool) :
  forall (k j : nat) (b : bool),
    In (j, b) (combine (seq k (length boxes)) boxes)
    <-> (k <= j)%nat /\ nth_error boxes (j - k) = Some b.
Proof.
  induction boxes as [|x boxes IH]; intros k j b.
  - simpl. split; [tauto|]. intros (_ & H). destruct (j - k)%nat; discriminate.
  - cbn [length seq combine In]. rewrite IH. split.
    + intros [E | (Hle & Hnth)].
      * inversion E. subst. split; [lia|]. now rewrite Nat.sub_diag.
      * split; [lia|].
        replace (j - k)%nat with (S (j - S k)) by lia. exact Hnth.
    + intros (Hle & Hnth).
      destruct (Nat.eq_dec j k) as [-> | Hneq].
      * left. rewrite Nat.sub_diag in Hnth. simpl in Hnth. congruence.
      * right. split; [lia|].
        replace (j - k)%nat with (S (j - S k)) in Hnth by lia. exact Hnth.
Qed.

(** The headers a preset stores are those of the ticked boxes. *)
Lemma tickedHeaders_In (headers : list jsstring) (boxes : list bool)
    (x : option jsstring) :
  In x (tickedHeaders headers boxes)
  <-> exists j, nth_error boxes j = Some true /\ x = nth_error headers j.
Proof.
  unfold tickedHeaders. rewrite in_flat_map. split.
  - intros ([j b] & Hin & Hx). apply combine_seq_In in Hin.
    destruct Hin as (_ & Hnth). rewrite Nat.sub_0_r in Hnth.
    cbn [fst snd] in Hx. destruct b; [|now elim Hx].
    destruct Hx as [<- | []]. now exists j.
  - intros (j & Hnth & ->). exists (j, true). split.
    + apply combine_seq_In. split; [lia | now rewrite Nat.sub_0_r].
    + now left.
Qed.

Lemma sameHeader_exists (header : jsstring) (stored : list (option jsstring)) :
  existsb (sameHeader header) stored = true <-> In (Some header) stored.
Proof.
  rewrite existsb_exists. split.
  - intros ([h|] & Hin & E); [|discriminate].
    apply eqString_eq in E. now subst.
  - intros Hin. exists (Some header). split; [exact Hin|].
    now apply eqString_eq.
Qed.

(** A box is ticked by [applyPreset] when it has a header and the preset
    stores that header. *)
Lemma applyPreset_nth (headers : list jsstring) (boxes : list bool)
    (p : preset) (i : nat) :
  nth i (applyPreset headers boxes p) false = true
  <-> (i < length boxes)%nat
      /\ exists header, nth_error headers i = Some header
                        /\ In (Some header) (presetHeaders p).
Proof.
  unfold applyPreset.
  destruct (Nat.lt_ge_cases i (length boxes)) as [L | G].
  - rewrite (nth_map_seq _ (length boxes) i false L).
    destruct (nth_error headers i) as [header|].
    + rewrite sameHeader_exists. split.
      * intros H. split; [exact L|]. now exists header.
      * intros (_ & h & E & Hin). now inversion E; subst.
    + split; [discriminate|]. intros (_ & h & E & _). discriminate.
  - rewrite nth_overflow by (rewrite length_map, length_seq; lia).
    split; [discriminate | intros (L & _); lia].
Qed.

Lemma nth_true_nth_error (boxes : list bool) (i : nat) :
  nth i boxes false = true <-> nth_error boxes i = Some true.
Proof.
  split.
  - intros H. destruct (nth_error boxes i) as [b|] eqn:E.
    + apply (nth_error_nth boxes i false) in E. congruence.
    + apply nth_error_None in E. rewrite nth_overflow in H by exact E.
      discriminate.
  - intros H. now apply nth_error_nth.
Qed.

(** X17: applying a preset that was just saved.  With one box per header,
    saving the ticked boxes as a preset and applying it, whatever the
    boxes show by then, leaves as many boxes, ticks every box that was
    ticked, and ticks another box only when its header has the name of a
    header that was ticked; when no two headers have the same name the
    boxes are exactly as they were. *)
Theorem applyPreset_newPreset (name : jsstring) (headers : list jsstring)
    (boxes current : list bool) :
  length boxes = length headers -> length current = length boxes ->
  let restored := applyPreset headers current (newPreset name headers boxes) in
  length restored = length boxes
  /\ (forall i, nth i boxes false = true -> nth i restored false = true)
  /\ (forall i, nth i restored false = true ->
        exists j, nth j boxes false = true
                  /\ nth_error headers j = nth_error headers i)
  /\ (NoDup headers -> restored = boxes).
Proof.
  intros Hlen Hcur restored.
  assert (Hl : length restored = length boxes).
  { unfold restored, applyPreset. now rewrite length_map, length_seq. }
  assert (Hin : forall i, nth i boxes false = true ->
                          nth i restored false = true).
  { intros i Hi. apply applyPreset_nth.
    apply nth_true_nth_error in Hi.
    assert (Li : (i < length boxes)%nat)
      by (apply nth_error_Some; congruence).
    split; [lia|].
    destruct (nth_error headers i) as [header|] eqn:E.
    - exists header. split; [reflexivity|].
      cbn [newPreset presetHeaders]. apply tickedHeaders_In.
      exists i. now split.
    - apply nth_error_None in E. lia. }
  assert (Hout : forall i, nth i restored false = true ->
                   exists j, nth j boxes false = true
                             /\ nth_error headers j = nth_error headers i).
  { intros i Hi. apply applyPreset_nth in Hi.
    destruct Hi as (_ & header & E & Hstored).
    cbn [newPreset presetHeaders] in Hstored.
    apply tickedHeaders_In in Hstored. destruct Hstored as (j & Hj & Ej).
    exists j. split; [now apply nth_true_nth_error | congruence]. }
  split; [exact Hl|]. split; [exact Hin|]. split; [exact Hout|].
  intros Hnodup. apply (nth_ext _ _ false false); [exact Hl|].
  intros i Hi. apply eq_true_iff_eq. split; [|apply Hin].
  intros H. destruct (Hout i H) as (j & Hj & E).
  assert (Li : (i < length headers)%nat) by lia.
  assert (Lj : (j < length headers)%nat).
  { apply nth_true_nth_error in Hj.
    assert (j < length boxes)%nat by (apply nth_error_Some; congruence). lia. }
  rewrite NoDup_nth_error in Hnodup.
  rewrite <- (Hnodup j i Lj E). exact Hj.
Qed.

Lemma applyPreset_newPreset_witness :
  let restored :=
    applyPreset [str "id"; str "name"; str "id"] [true; true; true]
      (newPreset (str "p") [str "id"; str "name"; str "id"]
         [true; false; false]) in
  length restored = length [true; false; false]
  /\ (forall i, nth i [true; false; false] false = true ->
        nth i restored false = true)
  /\ (forall i, nth i restored false = true ->
        exists j, nth j [true; false; false] false = true
                  /\ nth_error [str "id"; str "name"; str "id"] j
                     = nth_error [str "id"; str "name"; str "id"] i)
  /\ (NoDup [str "id"; str "name"; str "id"] ->
      restored = [true; false; false]).
Proof.
  apply (applyPreset_newPreset (str "p") [str "id"; str "name"; str "id"]
           [true; false; false] [true; true; true]); reflexivity.
Defined.

(** ** Where the comma path cuts a window *)

Lemma charAt_lt (s : jsstring) (i : nat) (c : char) :
  charAt s i c = true -> (i < length s)%nat.
Proof.
  intros H. apply charAt_nth_error in H. apply nth_error_Some. congruence.
Qed.

Lemma firstn_S_terminator (s : jsstring) (i : nat) :
  charAt s i LF || charAt s i CR = true ->
  endsWithTerminator (firstn (S i) s) = true.
Proof.
  intros H. apply orb_prop in H.
  destruct H as [H | H]; apply charAt_nth_error in H;
    rewrite (firstn_S_nth_error s i _ H), endsWithTerminator_snoc;
    reflexivity.
Qed.

Lemma scanBack_cut (fullText : jsstring) :
  forall i inQuotes, (i < length fullText)%nat ->
    let cut := scanBack fullText i inQuotes in
    (cut <= length fullText)%nat
    /\ (length fullText <= cut + 999)%nat
    /\ ((cut < length fullText)%nat ->
        endsWithTerminator (firstn cut fullText) = true).
Proof.
  induction i as [|i IH]; intros inQ Hi; cbv zeta; rewrite scanBack_eq;
    (destruct (Z.of_nat (length fullText) - 1000 <=? Z.of_nat _)%Z eqn:E;
     [apply Z.leb_le in E | repeat split; lia]); cbv zeta;
    (destruct ((charAt fullText _ LF || charAt fullText _ CR) && negb _) eqn:T;
     [apply andb_prop in T; destruct T as [T _];
      destruct (charAt fullText _ CR && charAt fullText (_ + 1) LF) eqn:P
     |]).
  - apply andb_prop in P. destruct P as [_ P].
    pose proof (charAt_lt _ _ _ P) as L. repeat split; try lia.
    intros _. replace (0 + 2)%nat with (S (0 + 1)) by lia.
    apply firstn_S_terminator. now rewrite P.
  - repeat split; try lia. intros _.
    replace (0 + 1)%nat with 1%nat by lia. now apply firstn_S_terminator.
  - repeat split; lia.
  - apply andb_prop in P. destruct P as [_ P].
    pose proof (charAt_lt _ _ _ P) as L. repeat split; try lia.
    intros _. replace (S i + 2)%nat with (S (S i + 1)) by lia.
    apply firstn_S_terminator. now rewrite P.
  - repeat split; try lia. intros _.
    replace (S i + 1)%nat with (S (S i)) by lia.
    now apply firstn_S_terminator.
  - apply IH. lia.
Qed.

(** X18: where the comma path cuts the text of a window.  Whatever the
    text, [findSafeBreak] returns a position within the text; the text
    after it, which is carried over to the next window, has at most 999
    characters; and a position before the end of the text comes directly
    after a line feed or a carriage return. *)
Theorem findSafeBreak_cut (fullText : jsstring) :
  let cut := findSafeBreak fullText in
  (cut <= length fullText)%nat
  /\ (length (skipn cut fullText) <= 999)%nat
  /\ firstn cut fullText ++ skipn cut fullText = fullText
  /\ ((cut < length fullText)%nat ->
      endsWithTerminator (firstn cut fullText) = true).
Proof.
  cbv zeta. unfold findSafeBreak.
  destruct (length fullText) as [|i] eqn:E.
  - rewrite length_skipn, E.
    split; [lia|]. split; [lia|]. split; [apply firstn_skipn | lia].
  - destruct (scanBack_cut fullText i false) as (H1 & H2 & H3); [lia|].
    cbv zeta in H1, H2, H3. rewrite E in H1, H2, H3.
    rewrite length_skipn, E.
    split; [lia|]. split; [lia|]. split; [apply firstn_skipn | exact H3].
Qed.

(** ** The line parser on a line of the encoder *)

Section LegacyLine.

Variable delimiter : char.

Lemma legacy_parseCSVLine_loop_quoted_value (v rest : jsstring) result :
  nextIs DQUOTE rest = false ->
  forall current,
    Legacy.parseCSVLine_loop delimiter (doubleQuotes v ++ DQUOTE :: rest)
      result current true
    = Legacy.parseCSVLine_loop delimiter rest result (current ++ v) false.
Proof.
  intros Hrest. induction v as [|c v IH]; intros current.
  - simpl app. simpl Legacy.parseCSVLine_loop.
    change (DQUOTE =? DQUOTE) with true. cbv iota. rewrite app_nil_r.
    destruct rest as [|c' rest']; [reflexivity|].
    simpl in Hrest. now rewrite Hrest.
  - unfold doubleQuotes. simpl flat_map. fold (doubleQuotes v).
    destruct (c =? DQUOTE) eqn:Ec.
    + apply N.eqb_eq in Ec. subst c. simpl app.
      simpl Legacy.parseCSVLine_loop.
      change (DQUOTE =? DQUOTE) with true. cbv iota.
      rewrite IH, <- app_assoc. reflexivity.
    + simpl app. simpl Legacy.parseCSVLine_loop. rewrite Ec.
      rewrite andb_false_r, IH, <- app_assoc. reflexivity.
Qed.

Lemma legacy_parseCSVLine_loop_plain_value (v rest : jsstring) result :
  includes DQUOTE v = false -> includes delimiter v = false ->
  forall current,
    Legacy.parseCSVLine_loop delimiter (v ++ rest) result current false
    = Legacy.parseCSVLine_loop delimiter rest result (current ++ v) false.
Proof.
  induction v as [|c v IH]; intros Hq Hd current.
  - now rewrite app_nil_r.
  - apply includes_cons_false in Hq, Hd.
    destruct Hq as [Hq Hq'], Hd as [Hd Hd'].
    simpl app. simpl Legacy.parseCSVLine_loop. rewrite Hq, Hd. simpl andb.
    cbv iota. rewrite (IH Hq' Hd'), <- app_assoc. reflexivity.
Qed.

End LegacyLine.

(** A field written by either encoder is read back as its value. *)
Lemma legacy_parseCSVLine_loop_field (value : option jsstring)
    (rest : jsstring) result :
  nextIs DQUOTE rest = false ->
  Legacy.parseCSVLine_loop COMMA (formatCSVField value ++ rest) result [] false
  = Legacy.parseCSVLine_loop COMMA rest result (valueOf value) false
  /\ Legacy.parseCSVLine_loop COMMA (Legacy.formatCSVField value ++ rest)
       result [] false
     = Legacy.parseCSVLine_loop COMMA rest result (valueOf value) false.
Proof.
  intros Hrest. destruct value as [v|]; [|now split].
  assert (Hw : Legacy.parseCSVLine_loop COMMA
                 ((DQUOTE :: doubleQuotes v ++ [DQUOTE]) ++ rest) result [] false
               = Legacy.parseCSVLine_loop COMMA rest result v false).
  { rewrite <- app_comm_cons, <- app_assoc. simpl app at 2.
    simpl Legacy.parseCSVLine_loop at 1.
    change (DQUOTE =? DQUOTE) with true. cbv iota. simpl negb.
    now rewrite (legacy_parseCSVLine_loop_quoted_value COMMA v rest result Hrest []). }
  unfold formatCSVField, Legacy.formatCSVField. cbv zeta. simpl valueOf.
  destruct (includes COMMA v) eqn:Ec; [now split|].
  destruct (includes DQUOTE v) eqn:Eq; [now split|].
  assert (Hp : Legacy.parseCSVLine_loop COMMA (v ++ rest) result [] false
               = Legacy.parseCSVLine_loop COMMA rest result v false).
  { now rewrite (legacy_parseCSVLine_loop_plain_value COMMA v rest result Eq Ec []). }
  simpl orb. split.
  - destruct (includes LF v || includes CR v || startsWith SPACE v
              || endsWith SPACE v); [exact Hw | exact Hp].
  - destruct (includes LF v); [exact Hw | exact Hp].
Qed.

Lemma legacy_parseCSVLine_loop_comma (rest : jsstring) result current :
  Legacy.parseCSVLine_loop COMMA (COMMA :: rest) result current false
  = Legacy.parseCSVLine_loop COMMA rest (result ++ [current]) [] false.
Proof. reflexivity. Qed.

Lemma legacy_parseCSVLine_loop_row (values : list (option jsstring)) :
  values <> [] ->
  forall result,
    Legacy.parseCSVLine_loop COMMA (formatCSVLine values) result [] false
    = result ++ map valueOf values
    /\ Legacy.parseCSVLine_loop COMMA (Legacy.formatCSVLine values)
         result [] false
       = result ++ map valueOf values.
Proof.
  unfold formatCSVLine, Legacy.formatCSVLine.
  induction values as [|v values IH]; intros Hne result; [congruence|].
  destruct values as [|v' values'].
  - simpl map. simpl join.
    destruct (legacy_parseCSVLine_loop_field v [] result eq_refl) as (H1 & H2).
    rewrite !app_nil_r in H1, H2. rewrite H1, H2. now split.
  - change (join COMMA (map formatCSVField (v :: v' :: values')))
      with (formatCSVField v
            ++ COMMA :: join COMMA (map formatCSVField (v' :: values'))).
    change (join COMMA (map Legacy.formatCSVField (v :: v' :: values')))
      with (Legacy.formatCSVField v
            ++ COMMA :: join COMMA (map Legacy.formatCSVField (v' :: values'))).
    destruct (IH ltac:(discriminate) (result ++ [valueOf v])) as (I1 & I2).
    split.
    + destruct (legacy_parseCSVLine_loop_field v
                  (COMMA :: join COMMA (map formatCSVField (v' :: values')))
                  result eq_refl) as (H1 & _).
      rewrite H1, legacy_parseCSVLine_loop_comma, I1, <- app_assoc.
      reflexivity.
    + destruct (legacy_parseCSVLine_loop_field v
                  (COMMA :: join COMMA (map Legacy.formatCSVField (v' :: values')))
                  result eq_refl) as (_ & H2).
      rewrite H2, legacy_parseCSVLine_loop_comma, I2, <- app_assoc.
      reflexivity.
Qed.

(** X19: the line parser undoes the encoder on a whole line.  For a list
    of values that is not empty, the line parser of the older variant
    reads the line written by either encoder back as the values, in order
    and unchanged ([null] as the empty string), and the line parser of the
    main variant reads the line of its encoder back as the values with
    their leading and trailing whitespace removed. *)
Theorem parseCSVLine_formatCSVLine_row (values : list (option jsstring)) :
  values <> [] ->
  Legacy.parseCSVLine (Legacy.formatCSVLine values) COMMA = map valueOf values
  /\ Legacy.parseCSVLine (formatCSVLine values) COMMA = map valueOf values
  /\ parseCSVLine (formatCSVLine values) COMMA
     = map (fun value => trim (valueOf value)) values.
Proof.
  intros Hne.
  destruct (legacy_parseCSVLine_loop_row values Hne []) as (H1 & H2).
  split; [exact H2|]. split; [exact H1|].
  unfold parseCSVLine.
  assert (Ht := parseCSVLine_loop_trims COMMA (formatCSVLine values) [] [] false).
  simpl map in Ht. rewrite Ht, H1. simpl app. now rewrite map_map.
Qed.

Lemma parseCSVLine_formatCSVLine_row_witness :
  Legacy.parseCSVLine (Legacy.formatCSVLine [Some heSaid; None; Some (str " x")])
    COMMA
  = map valueOf [Some heSaid; None; Some (str " x")]
  /\ Legacy.parseCSVLine (formatCSVLine [Some heSaid; None; Some (str " x")])
       COMMA
     = map valueOf [Some heSaid; None; Some (str " x")]
  /\ parseCSVLine (formatCSVLine [Some heSaid; None; Some (str " x")]) COMMA
     = map (fun value => trim (valueOf value))
         [Some heSaid; None; Some (str " x")].
Proof.
  apply (parseCSVLine_formatCSVLine_row [Some heSaid; None; Some (str " x")]).
  discriminate.
Defined.
